(** * kivaloo mux dispatcher (mux/dispatch.c, tag 1.1.0)

    A shallow embedding of the connection and request life cycle of the
    request multiplexer, followed by the properties of its admission
    control, request accounting and teardown.

    Representation choices.
    - The dispatcher is a single [struct dispatch_state]; its fields are the
      first five fields of [world] ([nsock_listen] is the length of
      [sock_listen], the request queue [Q] is an outside object).  The back
      pointers [L->dstate] and [S->dstate] all designate that one structure.
    - [malloc]ed [struct sock_active] objects live in the heap [conns],
      keyed by address; the intrusive doubly linked list is kept as it is in
      C, through the [next] and [prev] fields and the head pointer
      [sock_active].  Reading through a pointer whose object has been freed
      is undefined behaviour ([Undefined]).
    - [struct forwardee] records live in the pool [fwds].
    - [size_t] is 64 bits wide; [++] and [--] wrap modulo [2^64].
    - [void *] cookies are only compared with [NULL] and handed back to the
      cancel functions, so they are represented by a [bool]: [true] for a
      non-[NULL] cookie.
    - Every fallible call into the outside world (allocator, sockets, the
      packet codec, the request queue) takes its result from a list of
      answers supplied with the callback ([true]: the call succeeded; an
      exhausted list answers [true]).  The calls that matter for admission
      and draining are recorded, in order, in [calls].
    - The walk along [next] at the end of [callback_gotresponse] is given
      the number of live connections as its iteration bound.  In the loop
      of [dropconn] that retries [close], every call of [close] is
      recorded, and a failed [close] takes a second answer, which says
      whether [errno] is [EINTR].  [close] is interrupted only finitely
      often: every interruption is one of the answers supplied with the
      callback, and the number of answers left is the iteration bound of
      the loop.  [callbacks_return] shows that neither bound is ever
      reached.
    - [dispatch_done] is its three assertions; the two [free]s that follow
      end the life of the dispatcher and have no effect that could be
      observed afterwards.

    Organisation.  The model, the vocabulary of the statements and the
    scenarios come first.  Then come the rules of the callback monad and
    the invariants of the reactor loop, followed by a pass through the file
    function by function: the exact effect of the listener loops, what the
    callbacks leave alone, the outcome of each callback, and request
    accounting on every path.  The last two parts state the properties of
    admission control, request accounting and teardown. *)

From Stdlib Require Import ZArith Lia Bool List Init.Byte.
From stdpp Require Import base option list gmap fin_maps.
Import ListNotations.

Open Scope Z_scope.

(** ** Data model *)

Definition addr := nat.

Definition SIZE_MAX : Z := 2 ^ 64 - 1.

(** [size_t] arithmetic. *)
Definition size_wrap (z : Z) : Z := z mod 2 ^ 64.

(** [struct sock_listen]. *)
Record sock_listen_t := SockListen {
  listen_s : Z;                (* s: listening socket *)
  accept_cookie : bool         (* accept_cookie != NULL *)
}.

(** [struct sock_active]. *)
Record sock_active_t := SockActive {
  next : option addr;
  prev : option addr;
  conn_s : Z;                  (* s: connected socket *)
  read_cookie : bool;          (* read_cookie != NULL *)
  nrequests : Z                (* # responses we owe *)
}.

(** Which outside component currently holds the cookie of a forwardee: the
    request queue (until [callback_gotresponse]) or the connection's packet
    writer (until [callback_writresponse]). *)
Inductive holder := InQueue | InWriter.

(** [struct forwardee], together with the holder of its cookie. *)
Record forwardee_t := Forwardee {
  conn : addr;                 (* request origin *)
  pkt : list byte;             (* P: the request, later the response *)
  held_by : holder
}.

(** Calls into the reactor, the packet codec and the request queue. *)
Inductive call :=
| network_accept (i : nat)
| network_accept_cancel (i : nat)
| wire_readpacket (S : addr)
| wire_readpacket_cancel (S : addr)
| wire_requestqueue_add (F : addr)
| wire_writepacket (S F : addr)
| close_socket (s : Z).

Record world := World {
  sock_listen : list sock_listen_t;      (* sock_listen[0 .. nsock_listen-1] *)
  sock_active : option addr;             (* head of the list of connections *)
  nsock_active : Z;
  nsock_active_max : Z;
  failed : bool;
  conns : gmap addr sock_active_t;       (* live struct sock_active objects *)
  fwds : gmap addr forwardee_t;          (* live struct forwardee records *)
  calls : list call                      (* outside calls made so far *)
}.

Definition set_sock_listen (v : list sock_listen_t) (w : world) : world :=
  World v (sock_active w) (nsock_active w) (nsock_active_max w) (failed w)
        (conns w) (fwds w) (calls w).
Definition set_sock_active (v : option addr) (w : world) : world :=
  World (sock_listen w) v (nsock_active w) (nsock_active_max w) (failed w)
        (conns w) (fwds w) (calls w).
Definition set_nsock_active (v : Z) (w : world) : world :=
  World (sock_listen w) (sock_active w) v (nsock_active_max w) (failed w)
        (conns w) (fwds w) (calls w).
Definition set_failed (v : bool) (w : world) : world :=
  World (sock_listen w) (sock_active w) (nsock_active w) (nsock_active_max w) v
        (conns w) (fwds w) (calls w).
Definition set_conns (v : gmap addr sock_active_t) (w : world) : world :=
  World (sock_listen w) (sock_active w) (nsock_active w) (nsock_active_max w)
        (failed w) v (fwds w) (calls w).
Definition set_fwds (v : gmap addr forwardee_t) (w : world) : world :=
  World (sock_listen w) (sock_active w) (nsock_active w) (nsock_active_max w)
        (failed w) (conns w) v (calls w).
Definition add_call (c : call) (w : world) : world :=
  World (sock_listen w) (sock_active w) (nsock_active w) (nsock_active_max w)
        (failed w) (conns w) (fwds w) (calls w ++ [c]).

Definition set_accept_cookie (v : bool) (L : sock_listen_t) : sock_listen_t :=
  SockListen (listen_s L) v.
Definition set_next (v : option addr) (c : sock_active_t) : sock_active_t :=
  SockActive v (prev c) (conn_s c) (read_cookie c) (nrequests c).
Definition set_prev (v : option addr) (c : sock_active_t) : sock_active_t :=
  SockActive (next c) v (conn_s c) (read_cookie c) (nrequests c).
Definition set_read_cookie (v : bool) (c : sock_active_t) : sock_active_t :=
  SockActive (next c) (prev c) (conn_s c) v (nrequests c).
Definition set_nrequests (v : Z) (c : sock_active_t) : sock_active_t :=
  SockActive (next c) (prev c) (conn_s c) (read_cookie c) v.

(** ** The monad of the callbacks

    A computation reads and writes the [world], consumes answers of the
    outside world, and either returns, trips an [assert], reads freed
    memory, or exhausts the iteration bound of a pointer-chasing loop. *)

Inductive outcome (A : Type) :=
| Ok (a : A) (w : world) (o : list bool)
| AssertFailed
| Undefined
| OutOfFuel.
Arguments Ok {A} a w o.
Arguments AssertFailed {A}.
Arguments Undefined {A}.
Arguments OutOfFuel {A}.

Definition M (A : Type) : Type := world -> list bool -> outcome A.

Definition ret {A} (a : A) : M A := fun w o => Ok a w o.

Definition bind {A B} (m : M A) (f : A -> M B) : M B :=
  fun w o =>
    match m w o with
    | Ok a w' o' => f a w' o'
    | AssertFailed => AssertFailed
    | Undefined => Undefined
    | OutOfFuel => OutOfFuel
    end.

Notation "x <- m ;; k" := (bind m (fun x => k))
  (at level 100, m at next level, right associativity).
Notation "m ;;; k" := (bind m (fun _ => k))
  (at level 100, right associativity).

Definition get : M world := fun w o => Ok w w o.
Definition modify (f : world -> world) : M unit := fun w o => Ok tt (f w) o.

(** Result of the next fallible outside call. *)
Definition ask_env : M bool :=
  fun w o =>
    match o with
    | [] => Ok true w []
    | b :: o' => Ok b w o'
    end.

Definition assert (b : bool) : M unit :=
  fun w o => if b then Ok tt w o else AssertFailed.

Definition out_of_fuel {A} : M A := fun _ _ => OutOfFuel.

Definition do_call (c : call) : M unit := modify (add_call c).

(** [*S] for a [struct sock_active *]. *)
Definition deref (S : addr) : M sock_active_t :=
  fun w o =>
    match conns w !! S with
    | Some c => Ok c w o
    | None => Undefined
    end.

Definition store (S : addr) (c : sock_active_t) : M unit :=
  modify (fun w => set_conns (<[S := c]> (conns w)) w).

(** [S->field = ...] *)
Definition update (S : addr) (f : sock_active_t -> sock_active_t) : M unit :=
  c <- deref S ;; store S (f c).

(** [free(S)] *)
Definition free_conn (S : addr) : M unit :=
  modify (fun w => set_conns (delete S (conns w)) w).

(** [*F] for a [struct forwardee *]. *)
Definition deref_fwd (F : addr) : M forwardee_t :=
  fun w o =>
    match fwds w !! F with
    | Some f => Ok f w o
    | None => Undefined
    end.

Definition store_fwd (F : addr) (f : forwardee_t) : M unit :=
  modify (fun w => set_fwds (<[F := f]> (fwds w)) w).

(** [mpool_forwardee_malloc()]: fails when the allocator says so, and cannot
    succeed once [SIZE_MAX] records are live, since live records occupy
    distinct addresses. *)
Definition mpool_forwardee_malloc : M bool :=
  ok <- ask_env ;;
  w <- get ;;
  ret (ok && (Z.of_nat (size (fwds w)) <? SIZE_MAX)).

Definition mpool_forwardee_free (F : addr) : M unit :=
  modify (fun w => set_fwds (delete F (fwds w)) w).

(** [&dstate->sock_listen[i]] *)
Definition listener (i : nat) : M sock_listen_t :=
  fun w o =>
    match sock_listen w !! i with
    | Some L => Ok L w o
    | None => Undefined
    end.

Definition set_listener (i : nat) (L : sock_listen_t) : M unit :=
  modify (fun w => set_sock_listen (<[i := L]> (sock_listen w)) w).

(** ** The dispatcher (mux/dispatch.c) *)

(** A [NULL] pointer, or an address at which nothing is allocated. *)
Definition unused {A} (p : option A) : bool :=
  match p with
  | None => true
  | Some _ => false
  end.

(** C truth value of an [int] return code. *)
Definition nonzero (rc : Z) : bool := negb (rc =? 0).

(** [accept_stop]: the loop body at index [i], with [k] iterations left. *)
Fixpoint accept_stop_loop (k i : nat) : M unit :=
  match k with
  | O => ret tt
  | Datatypes.S k' =>
      L <- listener i ;;
      (if accept_cookie L
       then do_call (network_accept_cancel i) ;;;
            set_listener i (set_accept_cookie false L)
       else ret tt) ;;;
      accept_stop_loop k' (Datatypes.S i)
  end.

Definition accept_stop : M unit :=
  w <- get ;;
  accept_stop_loop (length (sock_listen w)) 0.

(** First loop of [accept_start]: is there an in-progress accept? *)
Fixpoint accept_start_busy (k i : nat) : M bool :=
  match k with
  | O => ret false
  | Datatypes.S k' =>
      L <- listener i ;;
      if accept_cookie L then ret true
      else accept_start_busy k' (Datatypes.S i)
  end.

(** Second loop of [accept_start]: [false] is the jump to [err1]. *)
Fixpoint accept_start_arm (k i : nat) : M bool :=
  match k with
  | O => ret true
  | Datatypes.S k' =>
      L <- listener i ;;
      do_call (network_accept i) ;;;
      ok <- ask_env ;;
      set_listener i (set_accept_cookie ok L) ;;;
      if ok then accept_start_arm k' (Datatypes.S i) else ret false
  end.

Definition accept_start : M Z :=
  w <- get ;;
  busy <- accept_start_busy (length (sock_listen w)) 0 ;;
  if busy then ret (-1)
  else
    armed <- accept_start_arm (length (sock_listen w)) 0 ;;
    if armed then ret 0
    else accept_stop ;;; ret (-1).

Definition readreq (S : addr) : M Z :=
  c <- deref S ;;
  assert (negb (read_cookie c)) ;;;
  do_call (wire_readpacket S) ;;;
  ok <- ask_env ;;
  update S (set_read_cookie ok) ;;;
  if ok then ret 0 else ret (-1).

(** The block "Detach from the dispatcher" of [dropconn]. *)
Definition detach (S : addr) : M unit :=
  c <- deref S ;;
  (match prev c with
   | None => modify (set_sock_active (next c))
   | Some p => update p (set_next (next c))
   end) ;;;
  c <- deref S ;;
  match next c with
  | Some n => update n (set_prev (prev c))
  | None => ret tt
  end.

(** The loop "Close the socket" of [dropconn]:
    [while (close(s)) { if (errno == EINTR) continue; goto err1; }].
    Every iteration calls [close]; a failed [close] takes one more answer,
    which says whether [errno] is [EINTR].  [false] is the jump to [err1].
    [k] bounds the number of iterations. *)
Fixpoint close_retry (k : nat) (s : Z) : M bool :=
  match k with
  | O => out_of_fuel
  | Datatypes.S k' =>
      do_call (close_socket s) ;;;
      ok <- ask_env ;;
      if ok then ret true
      else
        eintr <- ask_env ;;
        if eintr then close_retry k' s else ret false
  end.

(** A retry consumes an answer, so the answers left bound the loop. *)
Definition close_until_done (s : Z) : M bool :=
  fun w o => close_retry (Datatypes.S (length o)) s w o.

Definition dropconn (S : addr) : M Z :=
  c <- deref S ;;
  (* Sanity check. *)
  assert (negb (read_cookie c)) ;;;
  assert (nrequests c =? 0) ;;;
  detach S ;;;
  w <- get ;;
  modify (set_nsock_active (size_wrap (nsock_active w - 1))) ;;;
  rc <- (if nsock_active w =? nsock_active_max w then accept_start else ret 0) ;;
  if nonzero rc then
    (* err3 *) do_call (close_socket (conn_s c)) ;;; free_conn S ;;; ret (-1)
  else
    (* netbuf_write_destroy *)
    ok <- ask_env ;;
    if negb ok then
      (* err2 *) do_call (close_socket (conn_s c)) ;;; free_conn S ;;; ret (-1)
    else
      closed <- close_until_done (conn_s c) ;;
      if negb closed then (* err1 *) free_conn S ;;; ret (-1)
      else free_conn S ;;; ret 0.

Definition readreq_cancel (S : addr) : M Z :=
  do_call (wire_readpacket_cancel S) ;;;
  update S (set_read_cookie false) ;;;
  c <- deref S ;;
  if nrequests c =? 0 then
    rc <- dropconn S ;;
    if nonzero rc then ret (-1) else ret 0
  else ret 0.

Definition reqdone (S : addr) : M Z :=
  c <- deref S ;;
  store S (set_nrequests (size_wrap (nrequests c - 1)) c) ;;;
  c <- deref S ;;
  if (nrequests c =? 0) && negb (read_cookie c) then
    rc <- dropconn S ;;
    if nonzero rc then ret (-1) else ret 0
  else ret 0.

(** The block "Add this connection to the list" of [callback_gotconn]. *)
Definition attach (S : addr) : M unit :=
  w <- get ;;
  update S (set_next (sock_active w)) ;;;
  (match sock_active w with
   | Some n => update n (set_prev (Some S))
   | None => ret tt
   end) ;;;
  modify (set_sock_active (Some S)).

(** The labels [err4] .. [err1] of [callback_gotconn], from [err2] on: the
    reader and writer are outside objects, what remains is [free(S)] and
    [close(s)]. *)
Definition gotconn_unwind (S : addr) (s : Z) : M Z :=
  free_conn S ;;; do_call (close_socket s) ;;; ret (-1).

(** [callback_gotconn(L, s)] for [L = &sock_listen[i]]; [S] is the address
    [malloc] returns if it succeeds. *)
Definition callback_gotconn (i : nat) (s : Z) (S : addr) : M Z :=
  L <- listener i ;;
  set_listener i (set_accept_cookie false L) ;;;
  if s =? -1 then ret (-1)
  else
    accept_stop ;;;
    ok <- ask_env ;;                                  (* malloc *)
    if negb ok then (* err1 *) do_call (close_socket s) ;;; ret (-1)
    else
      store S (SockActive None None s false 0) ;;;
      ok <- ask_env ;;                                (* fcntl *)
      if negb ok then (* err2 *) gotconn_unwind S s
      else
        ok <- ask_env ;;                              (* netbuf_write_init *)
        if negb ok then (* err2 *) gotconn_unwind S s
        else
          ok <- ask_env ;;                            (* netbuf_read_init *)
          if negb ok then (* err3 *) gotconn_unwind S s
          else
            rc <- readreq S ;;
            if nonzero rc then (* err4 *) gotconn_unwind S s
            else
              attach S ;;;
              (* We have a connection.  Do we want more? *)
              w <- get ;;
              modify (set_nsock_active (size_wrap (nsock_active w + 1))) ;;;
              if size_wrap (nsock_active w + 1) <? nsock_active_max w then
                rc <- accept_start ;;
                if nonzero rc then ret (-1) else ret 0
              else ret 0.

(** [callback_gotrequest(S, P)]; [F] is the address the pool returns if the
    allocation succeeds. *)
Definition callback_gotrequest (S : addr) (P : option (list byte)) (F : addr)
  : M Z :=
  update S (set_read_cookie false) ;;;
  match P with
  | None =>
      c <- deref S ;;
      if nrequests c =? 0 then
        rc <- dropconn S ;;
        if nonzero rc then ret (-1) else ret 0
      else ret 0
  | Some p =>
      ok <- mpool_forwardee_malloc ;;
      if negb ok then (* err1 *) ret (-1)
      else
        store_fwd F (Forwardee S p InQueue) ;;;
        c <- deref S ;;
        store S (set_nrequests (size_wrap (nrequests c + 1)) c) ;;;
        do_call (wire_requestqueue_add F) ;;;
        ok <- ask_env ;;
        if negb ok then (* err2 *) mpool_forwardee_free F ;;; ret (-1)
        else
          rc <- readreq S ;;
          if nonzero rc then ret (-1) else ret 0
  end.

(** The loop at the end of [callback_gotresponse]:
    [while (S != NULL) { S_next = S->next; ...; S = S_next; }],
    with at most [fuel] iterations. *)
Fixpoint stop_reading (fuel : nat) (S : option addr) : M Z :=
  match S with
  | None => ret 0
  | Some a =>
      match fuel with
      | O => out_of_fuel
      | Datatypes.S fuel' =>
          c <- deref a ;;
          let S_next := next c in
          if read_cookie c then
            rc <- readreq_cancel a ;;
            if nonzero rc then ret (-1) else stop_reading fuel' S_next
          else stop_reading fuel' S_next
      end
  end.

Definition callback_gotresponse (F : addr) (buf : option (list byte)) : M Z :=
  f <- deref_fwd F ;;
  let S := conn f in
  match buf with
  | Some b =>
      (* Turn the request packet into a response packet. *)
      store_fwd F (Forwardee S b InWriter) ;;;
      _ <- deref S ;;                                 (* S->writeq *)
      do_call (wire_writepacket S F) ;;;
      ok <- ask_env ;;
      if negb ok then (* err1 *) mpool_forwardee_free F ;;; ret (-1)
      else ret 0
  | None =>
      mpool_forwardee_free F ;;;
      rc <- reqdone S ;;
      if nonzero rc then ret (-1)
      else
        _ <- deref S ;;                               (* S->dstate *)
        accept_stop ;;;
        _ <- deref S ;;                               (* S->dstate *)
        modify (set_failed true) ;;;
        w <- get ;;
        stop_reading (size (conns w)) (Some S)
  end.

Definition callback_writresponse (F : addr) (failed : bool) : M Z :=
  f <- deref_fwd F ;;
  let S := conn f in
  mpool_forwardee_free F ;;;
  rc <- reqdone S ;;
  if nonzero rc then ret (-1) else ret 0.

(** [dispatch_init(socks, nsocks, Q, maxconn)]; [None] is the [NULL]
    return. *)
Definition dispatch_init (socks : list Z) (maxconn : Z) (o : list bool)
  : option world :=
  let boot :=
    ok <- ask_env ;;                                  (* malloc(dstate) *)
    if negb ok then ret false
    else
      ok <- ask_env ;;                                (* malloc(sock_listen) *)
      if negb ok then ret false
      else
        modify (set_sock_listen (map (fun s => SockListen s false) socks)) ;;;
        rc <- accept_start ;;
        ret (negb (nonzero rc)) in
  match boot (World [] None 0 maxconn false ∅ ∅ []) o with
  | Ok true w _ => Some w
  | _ => None
  end.

Definition dispatch_alive (w : world) : bool :=
  negb (failed w) || (0 <? nsock_active w).

(** The three assertions at the top of [dispatch_done]. *)
Definition dispatch_done_asserts (w : world) : bool :=
  failed w && unused (sock_active w) && (nsock_active w =? 0).

(** [dispatch_done(dstate)]: the sanity checks; the two [free]s that follow
    leave nothing of the dispatcher behind. *)
Definition dispatch_done : M unit :=
  w <- get ;;
  assert (failed w) ;;;
  assert (unused (sock_active w)) ;;;
  assert (nsock_active w =? 0) ;;;
  ret tt.

(** ** The reactor

    The reactor serialises the four callbacks.  An [event] is one callback
    invocation together with the answers of the outside world to the
    fallible calls made while it runs. *)

Inductive callback :=
| gotconn (i : nat) (s : Z) (S : addr)
| gotrequest (S : addr) (P : option (list byte)) (F : addr)
| gotresponse (F : addr) (buf : option (list byte))
| writresponse (F : addr) (write_failed : bool).

Record event := Event { cb : callback; answers : list bool }.

Definition run_callback (c : callback) : M Z :=
  match c with
  | gotconn i s Sa => callback_gotconn i s Sa
  | gotrequest Sa P F => callback_gotrequest Sa P F
  | gotresponse F buf => callback_gotresponse F buf
  | writresponse F b => callback_writresponse F b
  end.

Definition step (w : world) (e : event) : outcome Z :=
  run_callback (cb e) w (answers e).

(** What the reactor, the allocator and the request queue guarantee when
    they invoke a callback: an accept completes only on a listener whose
    accept is armed, a read only on a connection whose read is armed, a
    response only for a request that sits in the queue, a write completion
    only for a response handed to the writer; freshly allocated objects do
    not overlap live ones. *)
Definition enabled (w : world) (e : event) : bool :=
  match cb e with
  | gotconn i s Sa =>
      match sock_listen w !! i with
      | Some L => accept_cookie L && unused (conns w !! Sa)
      | None => false
      end
  | gotrequest Sa P F =>
      match conns w !! Sa with
      | Some c => read_cookie c && unused (fwds w !! F)
      | None => false
      end
  | gotresponse F buf =>
      match fwds w !! F with
      | Some f => match held_by f with InQueue => true | InWriter => false end
      | None => false
      end
  | writresponse F b =>
      match fwds w !! F with
      | Some f => match held_by f with InWriter => true | InQueue => false end
      | None => false
      end
  end.

(** Running a list of events from [w]; [None] as soon as an event is not
    enabled, does not return, or returns failure (the reactor then stops the
    process). *)
Fixpoint run (w : world) (es : list event) : option world :=
  match es with
  | [] => Some w
  | e :: es' =>
      if enabled w e then
        match step w e with
        | Ok 0 w' _ => run w' es'
        | _ => None
        end
      else None
  end.

(** States of a dispatcher whose callbacks have all returned success. *)
Inductive running : world -> Prop :=
| running_init socks maxconn o w :
    0 <= maxconn <= SIZE_MAX ->
    dispatch_init socks maxconn o = Some w ->
    running w
| running_step w e w' o :
    running w ->
    enabled w e = true ->
    step w e = Ok 0 w' o ->
    running w'.

(** States reached when the reactor keeps going whatever the callbacks
    return. *)
Inductive reachable : world -> Prop :=
| reachable_init socks maxconn o w :
    0 <= maxconn <= SIZE_MAX ->
    dispatch_init socks maxconn o = Some w ->
    reachable w
| reachable_step w e rc w' o :
    reachable w ->
    enabled w e = true ->
    step w e = Ok rc w' o ->
    reachable w'.

(** The connections on the list, following [next] from the head. *)
Fixpoint chain (fuel : nat) (p : option addr) (h : gmap addr sock_active_t)
  : list addr :=
  match fuel, p with
  | Datatypes.S fuel', Some a =>
      match h !! a with
      | Some c => a :: chain fuel' (next c) h
      | None => []
      end
  | _, _ => []
  end.

Definition connections (w : world) : list addr :=
  chain (size (conns w)) (sock_active w) (conns w).

(** ** Specification vocabulary *)

(** Partial-correctness precondition: [m] started in [w] trips no assertion
    and stays within its iteration bound whatever the outside world answers,
    and [Q] holds of every result it returns.  Runs that read freed memory
    have no result to speak of. *)
Definition wp {A} (m : M A) (Q : A -> world -> Prop) (w : world) : Prop :=
  forall o,
    match m w o with
    | Ok a w' _ => Q a w'
    | Undefined => True
    | AssertFailed => False
    | OutOfFuel => False
    end.

(** Total version: [m] returns, whatever the outside world answers, and
    [Q] holds of the result. *)
Definition twp {A} (m : M A) (Q : A -> world -> Prop) (w : world) : Prop :=
  forall o,
    match m w o with
    | Ok a w' _ => Q a w'
    | _ => False
    end.

(** [m] returns. *)
Definition returns {A} (m : M A) (w : world) : Prop :=
  twp m (fun _ _ => True) w.

Definition all_armed (w : world) : Prop :=
  Forall (fun L => accept_cookie L = true) (sock_listen w).
Definition none_armed (w : world) : Prop :=
  Forall (fun L => accept_cookie L = false) (sock_listen w).
Definition any_armed (w : world) : Prop :=
  Exists (fun L => accept_cookie L = true) (sock_listen w).

(** The fields no listener loop touches. *)
Definition rest_eq (w w' : world) : Prop :=
  sock_active w' = sock_active w /\
  nsock_active w' = nsock_active w /\
  nsock_active_max w' = nsock_active_max w /\
  failed w' = failed w /\
  conns w' = conns w /\
  fwds w' = fwds w.

(** The fields of [struct dispatch_state]. *)
Definition dstate_eq (w w' : world) : Prop :=
  sock_listen w' = sock_listen w /\
  sock_active w' = sock_active w /\
  nsock_active w' = nsock_active w /\
  nsock_active_max w' = nsock_active_max w /\
  failed w' = failed w.

(** The two projections of the heap of connections: list structure and
    per-connection bookkeeping. *)
Definition links (h : gmap addr sock_active_t)
  : gmap addr (option addr * option addr) :=
  (fun c => (next c, prev c)) <$> h.
Definition view (h : gmap addr sock_active_t) : gmap addr (bool * Z) :=
  (fun c => (read_cookie c, nrequests c)) <$> h.

Definition head_or (q : option addr) (l : list addr) : option addr :=
  match l with
  | [] => q
  | a :: _ => Some a
  end.

Fixpoint last_or (p : option addr) (l : list addr) : option addr :=
  match l with
  | [] => p
  | a :: l' => last_or (Some a) l'
  end.

(** [l] is a doubly linked segment: the first node points back to [p], the
    last one forward to [q]. *)
Fixpoint dllseg (lk : gmap addr (option addr * option addr))
    (p : option addr) (l : list addr) (q : option addr) : Prop :=
  match l with
  | [] => True
  | a :: l' => lk !! a = Some (head_or q l', p) /\ dllseg lk (Some a) l' q
  end.

Definition linked (hd : option addr)
    (lk : gmap addr (option addr * option addr)) (l : list addr) : Prop :=
  hd = head_or None l /\ dllseg lk None l None /\ NoDup l.

(** The list headed at [sock_active] holds exactly the live connections
    [l], in this order. *)
Definition conn_list (w : world) (l : list addr) : Prop :=
  linked (sock_active w) (links (conns w)) l /\
  (forall a, a ∈ l <-> is_Some (conns w !! a)).

(** Admission bounds.  With [maxconn = 0] one connection still gets in. *)
Definition cap (w : world) : Z := Z.max 1 (nsock_active_max w).

Definition adm (w : world) : Prop :=
  0 <= nsock_active_max w <= SIZE_MAX /\
  nsock_active w <= cap w /\
  (any_armed w -> nsock_active w < cap w).

Definition WInv (w : world) (l : list addr) : Prop :=
  conn_list w l /\ nsock_active w = Z.of_nat (length l) /\ adm w.

(** Number of forwardees in the pool [fw] whose [conn] field is [S]. *)
Definition owed_in (S : addr) (fw : gmap addr forwardee_t) : Z :=
  Z.of_nat (size (filter (fun kv => conn (snd kv) = S) fw)).

(** Number of live forwardees whose [conn] field is [S]. *)
Definition owed (S : addr) (w : world) : Z := owed_in S (fwds w).

(** Request accounting, on the bookkeeping view of the heap. *)
Definition acct (v : gmap addr (bool * Z)) (fw : gmap addr forwardee_t)
  : Prop :=
  forall a rc nr, v !! a = Some (rc, nr) ->
    nr = owed_in a fw /\ (rc = true \/ nr <> 0).

Definition open_door (w : world) : Prop :=
  failed w = false -> nsock_active w < nsock_active_max w -> all_armed w.


Definition remove_addr (S : addr) (l : list addr) : list addr :=
  filter (fun a => a <> S) l.

Definition disarmed_below (i : nat) (w : world) : Prop :=
  forall j L, (j < i)%nat -> sock_listen w !! j = Some L ->
              accept_cookie L = false.
Definition armed_below (i : nat) (w : world) : Prop :=
  forall j L, (j < i)%nat -> sock_listen w !! j = Some L ->
              accept_cookie L = true.

(** The fields the list surgery leaves alone. *)
Definition off_list_eq (w w' : world) : Prop :=
  sock_listen w' = sock_listen w /\
  nsock_active w' = nsock_active w /\
  nsock_active_max w' = nsock_active_max w /\
  failed w' = failed w /\
  fwds w' = fwds w.

(** What unlinking the node [c] does to any other node [ca] at [a]. *)
Definition bypass (c : sock_active_t) (a : addr) (ca : sock_active_t)
  : sock_active_t :=
  let ca1 := if decide (Some a = prev c) then set_next (next c) ca else ca in
  if decide (Some a = next c) then set_prev (prev c) ca1 else ca1.

(** Outcome of an operation that leaves connection [S] with bookkeeping
    [(rd, nr)] and tears it down if that makes it idle. *)
Definition settled (S : addr) (rd : bool) (nr : Z) (w : world)
    (l : list addr) (rc : Z) (w' : world) : Prop :=
  fwds w' = fwds w /\
  failed w' = failed w /\
  nsock_active_max w' = nsock_active_max w /\
  (rc = 0 -> open_door w -> open_door w') /\
  ((rd = false /\ nr = 0 /\
    WInv w' (remove_addr S l) /\
    view (conns w') = delete S (view (conns w)))
   \/
   ((rd = true \/ nr <> 0) /\
    WInv w' l /\
    view (conns w') = <[S := (rd, nr)]> (view (conns w)))).

(** The accounting half of the invariant of a running dispatcher. *)
Definition Acct (w : world) : Prop :=
  acct (view (conns w)) (fwds w) /\
  (forall F f, fwds w !! F = Some f -> is_Some (conns w !! conn f)) /\
  Z.of_nat (size (fwds w)) <= SIZE_MAX.

Definition SInv (w : world) : Prop := Acct w /\ open_door w.

(** The pool of forwardees after callback [c] has returned success. *)
Definition fwds_after (c : callback) (w : world) : gmap addr forwardee_t :=
  match c with
  | gotconn _ _ _ => fwds w
  | gotrequest _ None _ => fwds w
  | gotrequest Sa (Some p) F => <[F := Forwardee Sa p InQueue]> (fwds w)
  | gotresponse F (Some b) =>
      match fwds w !! F with
      | Some f => <[F := Forwardee (conn f) b InWriter]> (fwds w)
      | None => fwds w
      end
  | gotresponse F None => delete F (fwds w)
  | writresponse F _ => delete F (fwds w)
  end.

(** What callback [c] guarantees about the state it returns. *)
Definition cb_post (c : callback) (w : world) (rc : Z) (w' : world) : Prop :=
  (exists l', WInv w' l') /\
  (SInv w -> rc = 0 -> SInv w') /\
  (rc = 0 -> fwds w' = fwds_after c w).

(** Liberal precondition: [Q] holds of every result [m] returns from [w];
    runs that do not return are not constrained. *)
Definition wlp {A} (m : M A) (Q : A -> world -> Prop) (w : world) : Prop :=
  forall o,
    match m w o with
    | Ok a w' _ => Q a w'
    | _ => True
    end.

(** Indices, counted from [i], of the listeners with an accept in
    progress. *)
Fixpoint armed_from (i : nat) (Ls : list sock_listen_t) : list nat :=
  match Ls with
  | [] => []
  | L :: Ls' =>
      if accept_cookie L then i :: armed_from (Datatypes.S i) Ls'
      else armed_from (Datatypes.S i) Ls'
  end.

(** The state [w] after the outside calls [cs]. *)
Definition add_calls (cs : list call) (w : world) : world :=
  World (sock_listen w) (sock_active w) (nsock_active w) (nsock_active_max w)
        (failed w) (conns w) (fwds w) (calls w ++ cs).

(** The calls the listener loops make. *)
Definition is_accept_call (c : call) : Prop :=
  match c with
  | network_accept _ | network_accept_cancel _ => True
  | _ => False
  end.

(** The answers to the next [n] fallible outside calls are all successes
    (an exhausted list answers success). *)
Definition all_succeed (n : nat) (o : list bool) : bool :=
  forallb (fun b => b) (take n o).

(** The mark a listener loop leaves: only accept cookies and the log of
    calls change, and the calls are accepts and their cancellations. *)
Definition listeners_only (w w' : world) : Prop :=
  rest_eq w w' /\
  listen_s <$> sock_listen w' = listen_s <$> sock_listen w /\
  exists cs, calls w' = calls w ++ cs /\ Forall is_accept_call cs.

(** What the helpers of the callbacks leave alone. *)
Definition inner (w w' : world) : Prop :=
  nsock_active_max w' = nsock_active_max w /\
  listen_s <$> sock_listen w' = listen_s <$> sock_listen w /\
  failed w' = failed w /\
  fwds w' = fwds w.

(** List surgery touches the head pointer and the records only. *)
Definition relinked (w w' : world) : Prop :=
  off_list_eq w w' /\ calls w' = calls w.

(** What [dropconn] does on every path that returns. *)
Definition dropped (S : addr) (s : Z) (w : world) (rc : Z) (w' : world)
  : Prop :=
  conns w' !! S = None /\
  inner w w' /\
  nsock_active w' = size_wrap (nsock_active w - 1) /\
  (rc = 0 \/ rc = -1) /\
  exists cs n,
    calls w' = calls w ++ cs ++ replicate (Datatypes.S n) (close_socket s) /\
    Forall is_accept_call cs.

(** What a callback invoked for the forwardee [F] leaves alone. *)
Definition outer (F : addr) (w w' : world) : Prop :=
  nsock_active_max w' = nsock_active_max w /\
  listen_s <$> sock_listen w' = listen_s <$> sock_listen w /\
  forall F', F' <> F -> fwds w' !! F' = fwds w !! F'.

(** [callback_gotconn] did not add a connection. *)
Definition turned_away (i : nat) (s : Z) (w : world) (l : list addr)
    (w' : world) : Prop :=
  WInv w' l /\ conns w' = conns w /\
  ((s = -1 /\
    exists L, sock_listen w !! i = Some L /\
              sock_listen w' = <[i := set_accept_cookie false L]> (sock_listen w))
   \/ (s <> -1 /\ none_armed w')).

(** [callback_gotconn] linked the new connection [S] at the head of the
    list. *)
Definition admitted (S : addr) (w : world) (l : list addr) (rc : Z)
    (w' : world) : Prop :=
  WInv w' (S :: l) /\
  view (conns w') = <[S := (true, 0)]> (view (conns w)) /\
  ((rc = 0 /\
    if nsock_active w + 1 <? nsock_active_max w
    then all_armed w' else none_armed w')
   \/ (rc = -1 /\ nsock_active w + 1 < nsock_active_max w /\ none_armed w')).

(** The forwardee a callback is invoked for, or allocates. *)
Definition own_forwardee (c : callback) : option addr :=
  match c with
  | gotconn _ _ _ => None
  | gotrequest _ _ F => Some F
  | gotresponse F _ => Some F
  | writresponse F _ => Some F
  end.

(** Bookkeeping of a connection after its read has been stopped: it is gone
    if it owed nothing, and is left not reading otherwise. *)
Definition stopped (x : option (bool * Z)) : option (bool * Z) :=
  match x with
  | Some (_, nr) => if nr =? 0 then None else Some (false, nr)
  | None => None
  end.

(** Connection [a] owes a response, according to the bookkeeping [v]. *)
Definition owes (v : gmap addr (bool * Z)) (a : addr) : bool :=
  match v !! a with
  | Some (_, nr) => negb (nr =? 0)
  | None => false
  end.

(** The answer of the outside world to the [n]-th fallible call of a
    callback, counted from 0. *)
Definition answer (n : nat) (o : list bool) : bool := default true (o !! n).

(** The pool has a forwardee for the read completion [e]. *)
Definition allocates (w : world) (e : event) : bool :=
  answer 0 (answers e) && (Z.of_nat (size (fwds w)) <? SIZE_MAX).

(** Callback [e] leaves connection [S] with a request that is counted in
    [nrequests] although its forwardee has been freed: [e] is a read
    completion on [S] whose request the queue refused ([err2] of
    [callback_gotrequest]), or a response for [S] that the packet writer
    refused ([err1] of [callback_gotresponse]). *)
Definition miscounted (w : world) (e : event) (S : addr) : bool :=
  match cb e with
  | gotrequest Sa (Some _) _ =>
      bool_decide (Sa = S) && allocates w e && negb (answer 1 (answers e))
  | gotresponse F (Some _) =>
      match fwds w !! F with
      | Some f => bool_decide (conn f = S) && negb (answer 0 (answers e))
      | None => false
      end
  | _ => false
  end.

(** [e] is a read completion on [S] for which no forwardee could be
    allocated ([err1] of [callback_gotrequest]). *)
Definition unserved (w : world) (e : event) (S : addr) : bool :=
  match cb e with
  | gotrequest Sa (Some _) _ => bool_decide (Sa = S) && negb (allocates w e)
  | _ => false
  end.

(** The pool of forwardees after callback [e], whatever it returns. *)
Definition fwds_left (w : world) (e : event) : gmap addr forwardee_t :=
  match cb e with
  | gotconn _ _ _ => fwds w
  | gotrequest _ None _ => fwds w
  | gotrequest Sa (Some p) F =>
      if allocates w e && answer 1 (answers e)
      then <[F := Forwardee Sa p InQueue]> (fwds w)
      else fwds w
  | gotresponse F (Some b) =>
      match fwds w !! F with
      | Some f =>
          if answer 0 (answers e)
          then <[F := Forwardee (conn f) b InWriter]> (fwds w)
          else delete F (fwds w)
      | None => fwds w
      end
  | gotresponse F None => delete F (fwds w)
  | writresponse F _ => delete F (fwds w)
  end.

(** ** Scenarios *)

(** A callback during which every outside call succeeds. *)
Definition quiet (c : callback) : event := Event c [].

(** The state after a successful [dispatch_init] followed by the events
    [es], all of which return success. *)
Definition after_init (socks : list Z) (maxconn : Z) (es : list event)
  : option world :=
  match dispatch_init socks maxconn [] with
  | Some w => run w es
  | None => None
  end.

(** One client connects, sends one request, and the target fails it. *)
Definition one_failed_request : list event :=
  [ quiet (gotconn 0 7 100%nat);
    quiet (gotrequest 100%nat (Some []) 200%nat);
    quiet (gotresponse 200%nat None) ].

(** Two clients connect; the first one has a request in flight. *)
Definition two_clients_one_request : list event :=
  [ quiet (gotconn 0 7 100%nat);
    quiet (gotconn 0 8 101%nat);
    quiet (gotrequest 100%nat (Some []) 200%nat) ].

(** A client sends one request and closes its sending side. *)
Definition request_then_eof : list event :=
  [ quiet (gotconn 0 7 100%nat);
    quiet (gotrequest 100%nat (Some []) 200%nat);
    quiet (gotrequest 100%nat None 201%nat) ].

(** The bookkeeping of connection [S], if it is live. *)
Definition bookkeeping (S : addr) (w : world) : option (bool * Z) :=
  view (conns w) !! S.

Definition world_of (o : option world) : world :=
  match o with
  | Some w => w
  | None => World [] None 0 0 false ∅ ∅ []
  end.

(** One listener, [maxconn = 1]: the state after the only request of the
    only client has been failed by the target. *)
Definition drained : world :=
  world_of (after_init [3] 1 one_failed_request).

(** One listener, [maxconn = 4]: two clients, one request in flight. *)
Definition serving : world :=
  world_of (after_init [3] 4 two_clients_one_request).

(** One listener, [maxconn = 4]: one client, nothing in flight. *)
Definition one_client : world :=
  world_of (after_init [3] 4 [quiet (gotconn 0 7 100%nat)]).

(** A request arrives on connection 100; the forwardee is allocated but
    [wire_requestqueue_add] fails. *)
Definition enqueue_fails : event :=
  Event (gotrequest 100%nat (Some []) 200%nat) [true; false].

(** One listener, [maxconn = 4]: one client, one request in flight. *)
Definition one_request : world :=
  world_of (after_init [3] 4 [quiet (gotconn 0 7 100%nat);
                              quiet (gotrequest 100%nat (Some []) 200%nat)]).

(** The first request of the client of [one_client]. *)
Definition first_request : event :=
  quiet (gotrequest 100%nat (Some []) 200%nat).

(** The newer client of [serving] closes its sending side. *)
Definition newer_client_eof : event :=
  quiet (gotrequest 101%nat None 201%nat).

(** A dispatcher state with no listener and no connection, after the
    target has failed. *)
Definition failed_and_empty : world := World [] None 0 1 true ∅ ∅ [].

(** One listener, [maxconn = 0], right after [dispatch_init]. *)
Definition zero_cap_start : world := world_of (after_init [3] 0 []).

(** One listener, [maxconn = 0]: one client has connected. *)
Definition zero_cap_one_client : world :=
  world_of (after_init [3] 0 [quiet (gotconn 0 7 100%nat)]).

(** Two clients fill a dispatcher with [maxconn = 2], each sends one
    request, and the target fails the request of the newer client. *)
Definition full_house_failure : list event :=
  [ quiet (gotconn 0 7 100%nat);
    quiet (gotconn 0 8 101%nat);
    quiet (gotrequest 100%nat (Some []) 200%nat);
    quiet (gotrequest 101%nat (Some []) 201%nat);
    quiet (gotresponse 201%nat None) ].

(** One listener, [maxconn = 2]: the state after [full_house_failure]. *)
Definition draining : world :=
  world_of (after_init [3] 2 full_house_failure).

(** In the state [draining]: a third client connects and sends a
    request. *)
Definition late_client : list event :=
  [ quiet (gotconn 0 9 102%nat);
    quiet (gotrequest 102%nat (Some []) 202%nat) ].

Definition relapsed : world := world_of (run draining late_client).

(** The target fails the request of the older of the two clients of
    [serving]. *)
Definition older_request_fails : event := quiet (gotresponse 200%nat None).

Definition half_stopped : world :=
  world_of (run serving [older_request_fails]).

(** In the state [half_stopped]: the client whose read was not cancelled
    sends a request. *)
Definition forwarded_late : world :=
  world_of (run half_stopped [quiet (gotrequest 101%nat (Some []) 202%nat)]).

(** One listener, [maxconn = 4]: the client has one request in flight and
    its read has completed with end of stream. *)
Definition half_closed : world :=
  world_of (after_init [3] 4 request_then_eof).

(** Two listeners, no accept in progress. *)
Definition cold : world :=
  World [SockListen 3 false; SockListen 4 false] None 0 2 false ∅ ∅ [].

(** The state [one_client] after a request arrived and the forwardee could
    not be allocated: the connection is neither reading nor owed a
    response. *)
Definition stalled : world :=
  match step one_client (Event (gotrequest 100%nat (Some []) 200%nat) [false])
  with
  | Ok _ w _ => w
  | _ => one_client
  end.

(** One listener, [maxconn = 4]: the clients 100 and 101, nothing in
    flight. *)
Definition two_clients : world :=
  world_of (run one_client [quiet (gotconn 0 8 101%nat)]).

(** A second client is accepted but [malloc] fails. *)
Definition accept_no_memory : event := Event (gotconn 0 8 101%nat) [false].

Definition refused : world :=
  match step one_client accept_no_memory with
  | Ok _ w _ => w
  | _ => one_client
  end.

(** The state [serving] after its newer client has closed its sending
    side. *)
Definition older_alone : world := world_of (run serving [newer_client_eof]).

(** One listener, [maxconn = 4]: the client has closed its sending side
    and the response to its only request has been handed to the writer. *)
Definition half_closed_answered : world :=
  world_of (after_init [3] 4
              (request_then_eof ++ [quiet (gotresponse 200%nat (Some []))])).

Definition last_write_done : event := quiet (writresponse 200%nat false).

Definition all_done : world :=
  world_of (run half_closed_answered [last_write_done]).

(** In the state [one_request]: the response to the request arrives, but
    the packet writer refuses it. *)
Definition write_refused : event :=
  Event (gotresponse 200%nat (Some [])) [false].


(** ** Basic rules *)

Lemma wp_ret {A} (a : A) Q w : Q a w -> wp (ret a) Q w.
Proof. intros H o. exact H. Qed.

Lemma wp_bind {A B} (m : M A) (f : A -> M B) Q w :
  wp m (fun a w' => wp (f a) Q w') w -> wp (bind m f) Q w.
Proof.
  intros H o. specialize (H o). unfold bind.
  destruct (m w o) as [a w' o'| | |]; auto. apply H.
Qed.

Lemma wp_mono {A} (m : M A) (Q Q' : A -> world -> Prop) w :
  wp m Q w -> (forall a w', Q a w' -> Q' a w') -> wp m Q' w.
Proof.
  intros H HQ o. specialize (H o). destruct (m w o); auto.
Qed.

Lemma wp_get Q w : Q w w -> wp get Q w.
Proof. intros H o. exact H. Qed.

Lemma wp_modify f Q w : Q tt (f w) -> wp (modify f) Q w.
Proof. intros H o. exact H. Qed.

Lemma wp_ask Q w : (forall b, Q b w) -> wp ask_env Q w.
Proof. intros H o. unfold ask_env. destruct o; apply H. Qed.

Lemma wp_assert b Q w : b = true -> Q tt w -> wp (assert b) Q w.
Proof. intros -> H o. exact H. Qed.

Lemma wp_deref S Q w :
  (forall c, conns w !! S = Some c -> Q c w) -> wp (deref S) Q w.
Proof.
  intros H o. unfold deref. destruct (conns w !! S) eqn:E; auto.
Qed.

Lemma wp_deref_fwd F Q w :
  (forall f, fwds w !! F = Some f -> Q f w) -> wp (deref_fwd F) Q w.
Proof.
  intros H o. unfold deref_fwd. destruct (fwds w !! F) eqn:E; auto.
Qed.

Lemma wp_listener i Q w :
  (forall L, sock_listen w !! i = Some L -> Q L w) -> wp (listener i) Q w.
Proof.
  intros H o. unfold listener. destruct (sock_listen w !! i) eqn:E; auto.
Qed.

Lemma wp_update S f Q w :
  (forall c, conns w !! S = Some c ->
             Q tt (set_conns (<[S := f c]> (conns w)) w)) ->
  wp (update S f) Q w.
Proof.
  intros H. unfold update. apply wp_bind, wp_deref. intros c Hc.
  apply wp_modify. auto.
Qed.

Ltac wp_step :=
  lazymatch goal with
  | |- wp (bind _ _) _ _ => apply wp_bind
  | |- wp (ret _) _ _ => apply wp_ret
  | |- wp get _ _ => apply wp_get
  | |- wp (modify _) _ _ => apply wp_modify
  | |- wp (do_call _) _ _ => apply wp_modify
  | |- wp (store _ _) _ _ => apply wp_modify
  | |- wp (store_fwd _ _) _ _ => apply wp_modify
  | |- wp (free_conn _) _ _ => apply wp_modify
  | |- wp (mpool_forwardee_free _) _ _ => apply wp_modify
  | |- wp (set_listener _ _) _ _ => apply wp_modify
  | |- wp ask_env _ _ => apply wp_ask; intros ?
  | |- wp (deref _) _ _ => apply wp_deref; intros ? ?
  | |- wp (deref_fwd _) _ _ => apply wp_deref_fwd; intros ? ?
  | |- wp (listener _) _ _ => apply wp_listener; intros ? ?
  | |- wp (update _ _) _ _ => apply wp_update; intros ? ?
  end.

Ltac wp_steps := repeat wp_step.

(** The loop that closes the socket returns after one or more calls of
    [close], and does nothing else. *)
Lemma add_calls_snoc cs c w : add_call c (add_calls cs w) = add_calls (cs ++ [c]) w.
Proof. unfold add_call, add_calls. simpl. rewrite <- app_assoc. reflexivity. Qed.

Lemma add_calls_cons c cs w : add_calls cs (add_call c w) = add_calls (c :: cs) w.
Proof. unfold add_call, add_calls. simpl. rewrite <- app_assoc. reflexivity. Qed.

Lemma close_retry_exact s k : forall w o,
  (length o < k)%nat ->
  exists n closed o',
    close_retry k s w o
    = Ok closed (add_calls (replicate (Datatypes.S n) (close_socket s)) w) o'.
Proof.
  induction k as [|k IH]; intros w o Hk; [lia|].
  cbn [close_retry]. unfold bind, do_call, modify, ask_env, ret.
  destruct o as [|[|] o].
  - exists 0%nat, true, []. reflexivity.
  - exists 0%nat, true, o. reflexivity.
  - destruct o as [|[|] o].
    + destruct (IH (add_call (close_socket s) w) []) as (n & closed & o' & E);
        [simpl in *; lia|].
      exists (Datatypes.S n), closed, o'. rewrite E, add_calls_cons. reflexivity.
    + destruct (IH (add_call (close_socket s) w) o) as (n & closed & o' & E);
        [simpl in *; lia|].
      exists (Datatypes.S n), closed, o'. rewrite E, add_calls_cons. reflexivity.
    + exists 0%nat, false, o. reflexivity.
Qed.

Lemma close_until_done_exact s w o :
  exists n closed o',
    close_until_done s w o
    = Ok closed (add_calls (replicate (Datatypes.S n) (close_socket s)) w) o'.
Proof. unfold close_until_done. apply close_retry_exact. lia. Qed.

Lemma wp_close s (Q : bool -> world -> Prop) w :
  (forall n closed,
     Q closed (add_calls (replicate (Datatypes.S n) (close_socket s)) w)) ->
  wp (close_until_done s) Q w.
Proof.
  intros H o. destruct (close_until_done_exact s w o) as (n & b & o' & ->).
  apply H.
Qed.

Lemma rest_eq_refl w : rest_eq w w.
Proof. repeat split. Qed.

Lemma rest_eq_trans w1 w2 w3 : rest_eq w1 w2 -> rest_eq w2 w3 -> rest_eq w1 w3.
Proof.
  unfold rest_eq. intros (?&?&?&?&?&?) (?&?&?&?&?&?).
  repeat split; congruence.
Qed.

(** ** The listener loops *)

Lemma accept_stop_loop_spec k : forall i w,
  disarmed_below i w ->
  wp (accept_stop_loop k i)
     (fun _ w' => rest_eq w w' /\ disarmed_below (i + k) w' /\
                  length (sock_listen w') = length (sock_listen w)) w.
Proof.
  induction k as [|k IH]; intros i w Hlow; simpl.
  - wp_step. rewrite Nat.add_0_r. split; [apply rest_eq_refl | auto].
  - wp_step. wp_step. rename H into HL.
    assert (Hi : (i < length (sock_listen w))%nat)
      by (eapply lookup_lt_Some; eauto).
    wp_step. destruct (accept_cookie L) eqn:E.
    + wp_steps. eapply wp_mono.
      * apply (IH (Datatypes.S i)). intros j L' Hj. simpl.
        destruct (decide (j = i)) as [->|Hne].
        -- rewrite list_lookup_insert_eq by exact Hi. intros [= <-]. reflexivity.
        -- rewrite list_lookup_insert_ne by congruence.
           apply Hlow. lia.
      * simpl. intros _ w' (Hr & Hd & Hlen). split; [|split].
        -- eapply rest_eq_trans; [|exact Hr]. repeat split.
        -- replace (i + Datatypes.S k)%nat with (Datatypes.S i + k)%nat by lia.
           exact Hd.
        -- rewrite Hlen. simpl. apply length_insert.
    + wp_step. eapply wp_mono.
      * apply (IH (Datatypes.S i)). intros j L' Hj HL'.
        destruct (decide (j = i)) as [->|Hne].
        -- congruence.
        -- apply (Hlow j); [lia | exact HL'].
      * simpl. intros _ w' (Hr & Hd & Hlen). split; [exact Hr|split].
        -- replace (i + Datatypes.S k)%nat with (Datatypes.S i + k)%nat by lia.
           exact Hd.
        -- exact Hlen.
Qed.

Lemma accept_stop_spec w :
  wp accept_stop
     (fun _ w' => rest_eq w w' /\ none_armed w' /\
                  length (sock_listen w') = length (sock_listen w)) w.
Proof.
  unfold accept_stop. wp_step. wp_step. eapply wp_mono.
  - apply accept_stop_loop_spec. intros j L Hj. lia.
  - simpl. intros _ w' (Hr & Hd & Hlen). split; [exact Hr|split; [|exact Hlen]].
    apply Forall_lookup. intros j L HL. apply (Hd j); [|exact HL].
    apply lookup_lt_Some in HL. lia.
Qed.

Lemma accept_start_busy_spec k : forall i w,
  wp (accept_start_busy k i) (fun _ w' => w' = w) w.
Proof.
  induction k as [|k IH]; intros i w; simpl.
  - wp_step. reflexivity.
  - wp_step. wp_step. destruct (accept_cookie L).
    + wp_step. reflexivity.
    + apply IH.
Qed.

Lemma accept_start_arm_spec k : forall i w,
  armed_below i w ->
  wp (accept_start_arm k i)
     (fun ok w' => rest_eq w w' /\ (ok = true -> armed_below (i + k) w') /\
                   length (sock_listen w') = length (sock_listen w)) w.
Proof.
  induction k as [|k IH]; intros i w Hlow; simpl.
  - wp_step. rewrite Nat.add_0_r. split; [apply rest_eq_refl | auto].
  - wp_step. wp_step. rename H into HL.
    assert (Hi : (i < length (sock_listen w))%nat)
      by (eapply lookup_lt_Some; eauto).
    wp_steps. rename b into ok. destruct ok.
    + eapply wp_mono.
      * apply (IH (Datatypes.S i)). intros j L' Hj. simpl.
        destruct (decide (j = i)) as [->|Hne].
        -- rewrite list_lookup_insert_eq by exact Hi. intros [= <-]. reflexivity.
        -- rewrite list_lookup_insert_ne by congruence.
           apply Hlow. lia.
      * simpl. intros ok w' (Hr & Hd & Hlen). split; [|split].
        -- eapply rest_eq_trans; [|exact Hr]. repeat split.
        -- replace (i + Datatypes.S k)%nat with (Datatypes.S i + k)%nat by lia.
           exact Hd.
        -- rewrite Hlen. simpl. apply length_insert.
    + wp_step. split; [repeat split|split; [discriminate|]].
      simpl. apply length_insert.
Qed.

Lemma accept_start_spec w :
  wp accept_start
     (fun rc w' => rest_eq w w' /\ (rc = 0 -> all_armed w') /\
                   (rc = 0 \/ rc = -1) /\
                   length (sock_listen w') = length (sock_listen w)) w.
Proof.
  unfold accept_start. wp_step. wp_step. wp_step.
  eapply wp_mono; [apply accept_start_busy_spec|].
  simpl. intros busy w' ->. destruct busy.
  - wp_step. split; [apply rest_eq_refl|]. split; [discriminate|]. auto.
  - wp_step. eapply wp_mono.
    + apply accept_start_arm_spec. intros j L Hj. lia.
    + simpl. intros ok w1 (Hr & Ha & Hlen). destruct ok.
      * wp_step. split; [exact Hr|]. split; [|auto].
        intros _. apply Forall_lookup. intros j L HL.
        apply (Ha eq_refl j); [|exact HL].
        apply lookup_lt_Some in HL. lia.
      * wp_step. eapply wp_mono; [apply accept_stop_spec|].
        simpl. intros _ w2 (Hr2 & _ & Hlen2). wp_step.
        split; [eapply rest_eq_trans; eauto|]. split; [discriminate|].
        split; [auto|congruence].
Qed.

(** ** Doubly linked segments *)

Lemma dllseg_frame lk lk' l : forall p q,
  (forall a, a ∈ l -> lk' !! a = lk !! a) ->
  dllseg lk p l q -> dllseg lk' p l q.
Proof.
  induction l as [|a l IH]; intros p q Hsame; simpl; [auto|].
  intros [Ha Hl]. split.
  - rewrite Hsame by apply list_elem_of_here. exact Ha.
  - apply IH; [|exact Hl]. intros b Hb. apply Hsame.
    apply list_elem_of_further. exact Hb.
Qed.

Lemma dllseg_app lk l1 l2 : forall p q,
  dllseg lk p (l1 ++ l2) q <->
  dllseg lk p l1 (head_or q l2) /\ dllseg lk (last_or p l1) l2 q.
Proof.
  induction l1 as [|a l1 IH]; intros p q; simpl.
  - tauto.
  - rewrite IH. destruct l1; simpl; tauto.
Qed.

Lemma dllseg_lookup lk l : forall p q a,
  dllseg lk p l q -> a ∈ l -> is_Some (lk !! a).
Proof.
  induction l as [|b l IH]; intros p q a; simpl.
  - intros _ Ha. inversion Ha.
  - intros [Hb Hl] Ha. apply elem_of_cons in Ha as [->|Ha].
    + rewrite Hb. eauto.
    + eapply IH; eauto.
Qed.

Lemma dllseg_mid lk l1 a l2 p q :
  dllseg lk p (l1 ++ a :: l2) q ->
  lk !! a = Some (head_or q l2, last_or p l1).
Proof.
  rewrite dllseg_app. simpl. tauto.
Qed.

Lemma last_or_snoc p l x : last_or p (l ++ [x]) = Some x.
Proof.
  revert p. induction l as [|a l IH]; intros p; simpl; auto.
Qed.

Lemma last_or_None p l : last_or p l = None -> l = [] /\ p = None.
Proof.
  revert p. induction l as [|a l IH]; intros p; simpl; [auto|].
  intros H. apply IH in H as [_ H]. discriminate.
Qed.

Lemma last_or_Some l x : last_or None l = Some x -> exists l', l = l' ++ [x].
Proof.
  destruct (decide (l = [])) as [->|Hne]; [discriminate|].
  destruct (exists_last Hne) as (l' & y & ->).
  rewrite last_or_snoc. intros [= ->]. eauto.
Qed.

Lemma head_or_app q l1 l2 : head_or q (l1 ++ l2) = head_or (head_or q l2) l1.
Proof. destruct l1; reflexivity. Qed.

Lemma remove_addr_notin S l : S ∉ l -> remove_addr S l = l.
Proof.
  unfold remove_addr. induction l as [|a l IH]; intros Hn; [reflexivity|].
  apply not_elem_of_cons in Hn as [Hne Hn].
  rewrite filter_cons_True by congruence. rewrite IH by exact Hn. reflexivity.
Qed.

Lemma remove_addr_mid S l1 l2 :
  NoDup (l1 ++ S :: l2) -> remove_addr S (l1 ++ S :: l2) = l1 ++ l2.
Proof.
  intros Hnd. apply NoDup_app in Hnd as (Hn1 & Hdisj & Hn2).
  apply NoDup_cons in Hn2 as [HS2 Hn2].
  unfold remove_addr. rewrite filter_app, filter_cons_False by tauto.
  fold (remove_addr S l1) (remove_addr S l2).
  rewrite !remove_addr_notin; auto.
  intros HS1. apply (Hdisj S HS1). apply list_elem_of_here.
Qed.

Lemma remove_addr_length S l :
  NoDup l -> S ∈ l ->
  Z.of_nat (length (remove_addr S l)) = Z.of_nat (length l) - 1.
Proof.
  intros Hnd HS. apply list_elem_of_split in HS as (l1 & l2 & ->).
  rewrite remove_addr_mid by exact Hnd. rewrite !length_app. simpl. lia.
Qed.

Lemma linked_unlink hd hd' lk lk' l1 S l2 :
  linked hd lk (l1 ++ S :: l2) ->
  hd' = match last_or None l1 with
        | None => head_or None l2
        | Some _ => hd
        end ->
  (forall a n p, a <> S -> lk !! a = Some (n, p) ->
     lk' !! a =
       Some (if decide (Some a = last_or None l1) then head_or None l2 else n,
             if decide (Some a = head_or None l2) then last_or None l1 else p)) ->
  linked hd' lk' (l1 ++ l2).
Proof.
  intros (Hhd & Hseg & Hnd) -> Hlk.
  pose proof Hnd as Hnd'.
  apply NoDup_app in Hnd' as (Hn1 & Hdisj & Hn2).
  apply NoDup_cons in Hn2 as [HS2 Hn2].
  assert (HS1 : S ∉ l1).
  { intros HS1. apply (Hdisj S HS1). apply list_elem_of_here. }
  assert (H12 : forall a, a ∈ l1 -> a ∉ l2).
  { intros a Ha Ha2. apply (Hdisj a Ha). apply list_elem_of_further, Ha2. }
  apply dllseg_app in Hseg as [Hseg1 Hseg2]. simpl in Hseg1, Hseg2.
  destruct Hseg2 as [HS Hseg2].
  split; [|split].
  - destruct (last_or None l1) eqn:E.
    + rewrite Hhd, !head_or_app. destruct l1; [discriminate|reflexivity].
    + apply last_or_None in E as [-> _]. reflexivity.
  - apply dllseg_app. split.
    + (* the part before S: its last node now points past S *)
      destruct (decide (l1 = [])) as [->|Hne]; [exact I|].
      destruct (exists_last Hne) as (l1' & x & ->). clear Hne.
      apply dllseg_app in Hseg1 as [Hseg1 [Hx _]]. simpl in Hseg1.
      apply NoDup_app in Hn1 as (Hn1' & Hdisj1 & _).
      apply dllseg_app. split.
      * eapply dllseg_frame; [|exact Hseg1]. intros a Ha.
        destruct (dllseg_lookup _ _ _ _ _ Hseg1 Ha) as [[n p] Hnp].
        rewrite (Hlk a n p); [|intros ->; apply HS1, elem_of_app; auto|exact Hnp].
        rewrite Hnp, last_or_snoc.
        rewrite decide_False.
        2:{ intros [= ->]. apply (Hdisj1 x Ha), list_elem_of_here. }
        rewrite decide_False; [reflexivity|].
        intros Heq. destruct l2 as [|y t]; [discriminate|].
        simpl in Heq. injection Heq as <-.
        apply (H12 a); [apply elem_of_app; auto|apply list_elem_of_here].
      * simpl. split; [|exact I].
        rewrite (Hlk x _ _ ltac:(intros ->; apply HS1, elem_of_app; right;
                                  apply list_elem_of_here) Hx).
        rewrite last_or_snoc, decide_True by reflexivity.
        rewrite decide_False; [reflexivity|].
        intros Heq. destruct l2 as [|y t]; [discriminate|].
        simpl in Heq. injection Heq as <-.
        apply (H12 x); [apply elem_of_app; right|]; apply list_elem_of_here.
    + (* the part after S: its first node now points back before S *)
      destruct l2 as [|y t]; [exact I|].
      simpl in Hseg2. destruct Hseg2 as [Hy Hseg2]. simpl.
      apply NoDup_cons in Hn2 as [Hyt Hn2].
      assert (HyS : y <> S).
      { intros ->. apply HS2, list_elem_of_here. }
      assert (Hy1 : Some y <> last_or None l1).
      { intros Heq. symmetry in Heq. apply last_or_Some in Heq as [l1' ->].
        apply (H12 y); [apply elem_of_app; right|]; apply list_elem_of_here. }
      split.
      * rewrite (Hlk y _ _ HyS Hy). rewrite decide_False by exact Hy1.
        rewrite decide_True by reflexivity. reflexivity.
      * eapply dllseg_frame; [|exact Hseg2]. intros a Ha.
        destruct (dllseg_lookup _ _ _ _ _ Hseg2 Ha) as [[n p] Hnp].
        rewrite (Hlk a n p);
          [|intros ->; apply HS2, list_elem_of_further, Ha|exact Hnp].
        rewrite Hnp. rewrite decide_False.
        2:{ intros Heq. symmetry in Heq. apply last_or_Some in Heq as [l1' ->].
            apply (H12 a); [apply elem_of_app; right; apply list_elem_of_here|].
            apply list_elem_of_further, Ha. }
        rewrite decide_False; [reflexivity|].
        simpl. intros [= ->]. exact (Hyt Ha).
  - apply NoDup_app. split; [exact Hn1|]. split; [|exact Hn2].
    exact H12.
Qed.

Lemma linked_push hd lk lk' l S :
  linked hd lk l ->
  S ∉ l ->
  lk' !! S = Some (hd, None) ->
  (forall a n p, a <> S -> lk !! a = Some (n, p) ->
     lk' !! a = Some (n, if decide (Some a = hd) then Some S else p)) ->
  linked (Some S) lk' (S :: l).
Proof.
  intros (Hhd & Hseg & Hnd) HS HlkS Hlk. split; [reflexivity|]. split.
  - simpl. split; [rewrite HlkS, Hhd; reflexivity|].
    destruct l as [|y t]; [exact I|].
    simpl in Hseg. destruct Hseg as [Hy Hseg]. simpl in Hhd.
    apply NoDup_cons in Hnd as [Hyt Hnd].
    apply not_elem_of_cons in HS as [HSy HSt].
    simpl. split.
    + rewrite (Hlk y _ _ ltac:(congruence) Hy).
      rewrite decide_True by congruence. reflexivity.
    + eapply dllseg_frame; [|exact Hseg]. intros a Ha.
      destruct (dllseg_lookup _ _ _ _ _ Hseg Ha) as [[n p] Hnp].
      rewrite (Hlk a n p); [|intros ->; exact (HSt Ha)|exact Hnp].
      rewrite Hnp, decide_False; [reflexivity|].
      rewrite Hhd. intros [= ->]. exact (Hyt Ha).
  - apply NoDup_cons. auto.
Qed.

(** ** The two projections of the heap *)

Lemma links_lookup h a :
  links h !! a = (fun c => (next c, prev c)) <$> h !! a.
Proof. apply lookup_fmap. Qed.

Lemma view_lookup h a :
  view h !! a = (fun c => (read_cookie c, nrequests c)) <$> h !! a.
Proof. apply lookup_fmap. Qed.

Lemma links_insert h a c :
  links (<[a := c]> h) = <[a := (next c, prev c)]> (links h).
Proof. unfold links. rewrite fmap_insert. reflexivity. Qed.

Lemma view_insert h a c :
  view (<[a := c]> h) = <[a := (read_cookie c, nrequests c)]> (view h).
Proof. unfold view. rewrite fmap_insert. reflexivity. Qed.

Lemma links_delete h a : links (delete a h) = delete a (links h).
Proof. apply fmap_delete. Qed.

Lemma view_delete h a : view (delete a h) = delete a (view h).
Proof. apply fmap_delete. Qed.

Lemma view_insert_same h a c c' :
  h !! a = Some c ->
  read_cookie c' = read_cookie c -> nrequests c' = nrequests c ->
  view (<[a := c']> h) = view h.
Proof.
  intros Hc Hr Hn. rewrite view_insert. apply insert_id.
  rewrite view_lookup, Hc. simpl. congruence.
Qed.

Lemma links_insert_same h a c c' :
  h !! a = Some c ->
  next c' = next c -> prev c' = prev c ->
  links (<[a := c']> h) = links h.
Proof.
  intros Hc Hr Hn. rewrite links_insert. apply insert_id.
  rewrite links_lookup, Hc. simpl. congruence.
Qed.

Lemma insert_is_Some_same (h : gmap addr sock_active_t) a c c' b :
  h !! a = Some c -> is_Some (<[a := c']> h !! b) <-> is_Some (h !! b).
Proof.
  intros Hc. destruct (decide (a = b)) as [->|Hne].
  - rewrite lookup_insert_eq, Hc. split; eauto.
  - rewrite lookup_insert_ne by exact Hne. tauto.
Qed.

(** ** List surgery *)

Lemma detach_lookup S c w :
  conns w !! S = Some c ->
  prev c <> Some S ->
  wp (detach S)
     (fun _ w' =>
        off_list_eq w w' /\
        sock_active w' = match prev c with
                         | None => next c
                         | Some _ => sock_active w
                         end /\
        forall a, conns w' !! a = bypass c a <$> conns w !! a) w.
Proof.
  intros Hc Hself. unfold detach. wp_step. wp_step.
  rename c0 into c', H into Hc'. rewrite Hc in Hc'. injection Hc' as <-.
  wp_step.
  destruct (prev c) as [x|] eqn:Hp; wp_step; wp_step; wp_step;
    match goal with
    | Hc' : conns _ !! S = Some ?c' |- _ =>
        simpl in Hc';
        try (rewrite lookup_insert_ne in Hc' by congruence);
        rewrite Hc in Hc'; injection Hc' as <-
    end;
    destruct (next c) as [y|] eqn:Hn; wp_step;
    (split; [repeat split|split; [reflexivity|]]); intros a; simpl;
    unfold bypass; rewrite Hp, Hn.
  all: simpl in *;
    repeat match goal with
           | |- context [decide (Some ?u = Some ?v)] =>
               destruct (decide (Some u = Some v)) as [[= ->]|?]
           | |- context [decide (Some ?u = None)] =>
               destruct (decide (Some u = None)) as [?|_]; [discriminate|]
           end;
    simplify_map_eq; try reflexivity.
  all: destruct (conns w !! a); reflexivity.
Qed.

Lemma detach_spec S c w l1 l2 :
  linked (sock_active w) (links (conns w)) (l1 ++ S :: l2) ->
  conns w !! S = Some c ->
  wp (detach S)
     (fun _ w' =>
        linked (sock_active w') (links (conns w')) (l1 ++ l2) /\
        view (conns w') = view (conns w) /\
        (forall a, is_Some (conns w' !! a) <-> is_Some (conns w !! a)) /\
        conns w' !! S = Some c /\
        off_list_eq w w') w.
Proof.
  intros Hl Hc.
  pose proof Hl as (_ & Hseg & Hnd).
  pose proof (dllseg_mid _ _ _ _ _ _ Hseg) as HS.
  rewrite links_lookup, Hc in HS. simpl in HS. injection HS as Hnx Hpv.
  apply NoDup_app in Hnd as (_ & Hdisj & Hn2).
  apply NoDup_cons in Hn2 as [HS2 _].
  assert (HS1 : S ∉ l1).
  { intros HS1. apply (Hdisj S HS1). apply list_elem_of_here. }
  assert (Hself : prev c <> Some S).
  { rewrite Hpv. intros Heq. apply last_or_Some in Heq as [l1' ->].
    apply HS1, elem_of_app. right. apply list_elem_of_here. }
  eapply wp_mono; [apply (detach_lookup S c w Hc Hself)|]. simpl.
  intros _ w' (Hoff & Hhd & Hlk).
  split; [|split; [|split; [|split]]].
  - eapply linked_unlink; [exact Hl| |].
    + rewrite Hhd, Hpv, Hnx. reflexivity.
    + intros a n p Ha Hnp. rewrite links_lookup, Hlk.
      rewrite links_lookup in Hnp.
      destruct (conns w !! a) as [ca|]; [|discriminate]. simpl in *.
      injection Hnp as <- <-. unfold bypass. rewrite Hpv, Hnx.
      repeat case_decide; reflexivity.
  - apply map_eq. intros a. rewrite !view_lookup, Hlk.
    destruct (conns w !! a); [|reflexivity]. simpl. unfold bypass.
    repeat case_decide; reflexivity.
  - intros a. rewrite Hlk. apply fmap_is_Some.
  - rewrite Hlk, Hc. simpl. unfold bypass. rewrite Hpv, Hnx.
    rewrite (decide_False (P := Some S = head_or None l2)).
    2:{ intros Heq. destruct l2 as [|y t]; [discriminate|].
        simpl in Heq. injection Heq as <-. apply HS2, list_elem_of_here. }
    rewrite decide_False; [reflexivity|].
    intros Heq. symmetry in Heq. apply last_or_Some in Heq as [l1' ->].
    apply HS1, elem_of_app. right. apply list_elem_of_here.
  - exact Hoff.
Qed.

Lemma attach_spec S c w l :
  linked (sock_active w) (links (conns w)) l ->
  S ∉ l ->
  conns w !! S = Some c ->
  prev c = None ->
  wp (attach S)
     (fun _ w' =>
        linked (sock_active w') (links (conns w')) (S :: l) /\
        view (conns w') = view (conns w) /\
        (forall a, is_Some (conns w' !! a) <-> is_Some (conns w !! a)) /\
        off_list_eq w w') w.
Proof.
  intros Hl HS Hc Hprev. pose proof Hl as (Hhd & _ & _).
  unfold attach. wp_step. wp_step. wp_step. wp_step.
  rename H into Hc'. rewrite Hc in Hc'. injection Hc' as <-.
  wp_step. destruct (sock_active w) as [y|] eqn:Hy.
  - assert (HyS : y <> S).
    { intros ->. apply HS. destruct l; [discriminate|].
      simpl in Hhd. injection Hhd as ->. apply list_elem_of_here. }
    wp_step. rename c0 into cy, H into Hcy. simpl in Hcy.
    rewrite lookup_insert_ne in Hcy by congruence.
    wp_step. simpl. split; [|split; [|split]].
    + eapply linked_push; [exact Hl|exact HS| |].
      * rewrite links_lookup, lookup_insert_ne by exact HyS.
        rewrite lookup_insert_eq. simpl. rewrite Hprev. reflexivity.
      * intros a n p Ha Hnp. rewrite links_lookup in Hnp |- *.
        destruct (decide (a = y)) as [->|Hay].
        -- rewrite lookup_insert_eq. rewrite Hcy in Hnp. simpl in *.
           injection Hnp as <- <-. rewrite decide_True by reflexivity.
           reflexivity.
        -- rewrite !lookup_insert_ne by congruence. rewrite Hnp.
           rewrite decide_False by congruence. reflexivity.
    + rewrite (view_insert_same _ _ cy); [|rewrite lookup_insert_ne by congruence; exact Hcy|reflexivity|reflexivity].
      apply (view_insert_same _ _ c); [exact Hc|reflexivity|reflexivity].
    + intros a. rewrite (insert_is_Some_same _ _ cy) by (rewrite lookup_insert_ne by congruence; exact Hcy).
      apply (insert_is_Some_same _ _ c). exact Hc.
    + repeat split.
  - wp_step. wp_step. simpl. split; [|split; [|split]].
    + eapply linked_push; [exact Hl|exact HS| |].
      * rewrite links_lookup, lookup_insert_eq. simpl. rewrite Hprev.
        reflexivity.
      * intros a n p Ha Hnp. rewrite links_lookup in Hnp |- *.
        rewrite lookup_insert_ne by congruence. rewrite Hnp.
        rewrite decide_False by discriminate. reflexivity.
    + apply (view_insert_same _ _ c); [exact Hc|reflexivity|reflexivity].
    + intros a. apply (insert_is_Some_same _ _ c). exact Hc.
    + repeat split.
Qed.

(** ** Teardown *)

Lemma size_wrap_small z : 0 <= z <= SIZE_MAX -> size_wrap z = z.
Proof.
  unfold size_wrap, SIZE_MAX. intros H. apply Z.mod_small. lia.
Qed.

Lemma linked_frame hd lk lk' l :
  (forall a, a ∈ l -> lk' !! a = lk !! a) ->
  linked hd lk l -> linked hd lk' l.
Proof.
  intros Hsame (Hhd & Hseg & Hnd). split; [exact Hhd|]. split; [|exact Hnd].
  eapply dllseg_frame; eauto.
Qed.

Lemma elem_of_remove_addr S l a : a ∈ remove_addr S l <-> a <> S /\ a ∈ l.
Proof. unfold remove_addr. rewrite list_elem_of_filter. tauto. Qed.

(** Everything after [accept_start] in [dropconn]: whichever label is
    taken, the connection record is freed. *)
Lemma dropconn_release S s rc w (Q : Z -> world -> Prop) :
  (forall rc' w', conns w' = delete S (conns w) ->
                  dstate_eq w w' -> fwds w' = fwds w ->
                  (rc' = 0 -> rc = 0) -> Q rc' w') ->
  wp (if nonzero rc then do_call (close_socket s) ;;; free_conn S ;;; ret (-1)
      else
        ok <- ask_env ;;
        if negb ok then do_call (close_socket s) ;;; free_conn S ;;; ret (-1)
        else
          closed <- close_until_done s ;;
          if negb closed then free_conn S ;;; ret (-1)
          else free_conn S ;;; ret 0) Q w.
Proof.
  intros HQ. unfold nonzero. destruct (rc =? 0) eqn:E; simpl.
  - apply Z.eqb_eq in E. wp_steps. destruct b; simpl.
    + wp_step. apply wp_close. intros n closed.
      destruct closed; simpl; wp_steps;
        (apply HQ; [reflexivity|repeat split|reflexivity|auto]).
    + wp_steps. apply HQ; [reflexivity|repeat split|reflexivity|auto].
  - wp_steps. apply HQ; [reflexivity|repeat split|reflexivity|].
    discriminate.
Qed.

Lemma dropconn_spec S c w l :
  WInv w l ->
  conns w !! S = Some c ->
  read_cookie c = false ->
  nrequests c = 0 ->
  wp (dropconn S)
     (fun rc w' =>
        WInv w' (remove_addr S l) /\
        view (conns w') = delete S (view (conns w)) /\
        fwds w' = fwds w /\
        failed w' = failed w /\
        nsock_active_max w' = nsock_active_max w /\
        (rc = 0 -> open_door w -> open_door w')) w.
Proof.
  intros ((Hl & Hdom) & Hn & (Hmax & Hle & Harm)) Hc Hr Hnr.
  assert (HS : S ∈ l) by (apply Hdom; eauto).
  pose proof HS as Hsplit. apply list_elem_of_split in Hsplit as (l1 & l2 & ->).
  pose proof Hl as (_ & _ & Hnd).
  assert (Hlen : 1 <= nsock_active w).
  { rewrite Hn, length_app. simpl. lia. }
  unfold dropconn. wp_step. wp_step. rename c0 into c', H into Hc'.
  rewrite Hc in Hc'. injection Hc' as <-.
  wp_step. apply wp_assert; [rewrite Hr; reflexivity|].
  wp_step. apply wp_assert; [rewrite Hnr; reflexivity|].
  wp_step. eapply wp_mono; [eapply detach_spec; eauto|]. simpl.
  intros _ w1 (Hl1 & Hv1 & Hdom1 & HcS1 & (Hsl1 & Hn1 & Hmax1 & Hf1 & Hfw1)).
  wp_step. wp_step. wp_step. wp_step.
  set (w2 := set_nsock_active (size_wrap (nsock_active w1 - 1)) w1).
  assert (Hn2 : nsock_active w2 = nsock_active w - 1).
  { simpl. rewrite Hn1. apply size_wrap_small. unfold cap in Hle. lia. }
  assert (Hfinal : forall rc w3 rc' w',
    rest_eq w2 w3 ->
    (nsock_active w = nsock_active_max w -> rc = 0 -> all_armed w3) ->
    (nsock_active w <> nsock_active_max w -> sock_listen w3 = sock_listen w) ->
    conns w' = delete S (conns w3) -> dstate_eq w3 w' -> fwds w' = fwds w3 ->
    (rc' = 0 -> rc = 0) ->
    WInv w' (remove_addr S (l1 ++ S :: l2)) /\
    view (conns w') = delete S (view (conns w)) /\
    fwds w' = fwds w /\ failed w' = failed w /\
    nsock_active_max w' = nsock_active_max w /\
    (rc' = 0 -> open_door w -> open_door w')).
  { intros rc w3 rc' w' (Hsa3 & Hn3 & Hmax3 & Hf3 & Hc3 & Hfw3) Hfull Hnot
           Hc4 (Hsl4 & Hsa4 & Hn4 & Hmax4 & Hf4) Hfw4 Hrc.
    simpl in Hsa3, Hn3, Hmax3, Hf3, Hc3, Hfw3.
    assert (Hn' : nsock_active w' = nsock_active w - 1).
    { rewrite Hn4, Hn3. exact Hn2. }
    assert (Hmax' : nsock_active_max w' = nsock_active_max w).
    { rewrite Hmax4, Hmax3. exact Hmax1. }
    split; [split; [split|split]|].
    - rewrite remove_addr_mid by exact Hnd.
      rewrite Hsa4, Hsa3, Hc4, Hc3, links_delete.
      eapply linked_frame; [|exact Hl1].
      intros a Ha. apply lookup_delete_ne. intros ->.
      destruct Hl1 as (_ & _ & Hnd1).
      apply NoDup_app in Hnd as (_ & Hdisj & Hnd2).
      apply NoDup_cons in Hnd2 as [HS2 _].
      apply elem_of_app in Ha as [Ha|Ha]; [|exact (HS2 Ha)].
      apply (Hdisj _ Ha), list_elem_of_here.
    - intros a. rewrite elem_of_remove_addr, Hc4, Hc3, lookup_delete_is_Some.
      rewrite Hdom1, Hdom. split; intros [? ?]; split; auto.
    - rewrite Hn', Hn. symmetry. apply remove_addr_length; assumption.
    - unfold adm, cap. rewrite Hn', Hmax'. unfold cap in Hle.
      split; [exact Hmax|]. split; [lia|]. intros _. lia.
    - split; [rewrite Hc4, Hc3, view_delete, Hv1; reflexivity|].
      split; [congruence|]. split; [congruence|]. split; [exact Hmax'|].
      intros Hrc' Hopen Hnf Hlt. unfold all_armed. rewrite Hsl4.
      destruct (decide (nsock_active w = nsock_active_max w)) as [Heq|Hne].
      + apply Hfull; auto.
      + rewrite (Hnot Hne). apply Hopen; [congruence|]. lia. }
  wp_step. destruct (nsock_active w1 =? nsock_active_max w1) eqn:E.
  - apply Z.eqb_eq in E. eapply wp_mono; [apply accept_start_spec|]. simpl.
    intros rc w3 (Hrest & Harmed & _ & _).
    apply dropconn_release. intros rc' w' H1 H2 H3 H4.
    eapply (Hfinal rc w3); eauto.
    intros Hne. exfalso. apply Hne. congruence.
  - apply Z.eqb_neq in E. wp_step.
    apply dropconn_release. intros rc' w' H1 H2 H3 H4.
    eapply (Hfinal 0 w2); eauto.
    + apply rest_eq_refl.
    + intros Heq. exfalso. apply E. congruence.
Qed.

Lemma WInv_fields w w' l S c c' :
  WInv w l ->
  conns w !! S = Some c ->
  next c' = next c -> prev c' = prev c ->
  conns w' = <[S := c']> (conns w) ->
  dstate_eq w w' ->
  WInv w' l.
Proof.
  intros ((Hl & Hdom) & Hn & (Hmax & Hle & Harm)) Hc Hnx Hpv Hc'
         (Hsl & Hsa & Hn' & Hmax' & Hf).
  split; [split|split].
  - rewrite Hsa, Hc', (links_insert_same _ _ c) by assumption. exact Hl.
  - intros a. rewrite Hc', (insert_is_Some_same _ _ c) by exact Hc. apply Hdom.
  - congruence.
  - unfold adm, cap, any_armed in *. rewrite Hn', Hmax', Hsl. auto.
Qed.

Lemma open_door_dstate w w' : dstate_eq w w' -> open_door w -> open_door w'.
Proof.
  intros (Hsl & Hsa & Hn' & Hmax' & Hf) H. unfold open_door, all_armed in *.
  rewrite Hsl, Hn', Hmax', Hf. exact H.
Qed.

Lemma readreq_spec S c w :
  conns w !! S = Some c ->
  read_cookie c = false ->
  wp (readreq S)
     (fun rc w' => exists b,
        conns w' = <[S := set_read_cookie b c]> (conns w) /\
        dstate_eq w w' /\ fwds w' = fwds w /\
        (rc = 0 -> b = true)) w.
Proof.
  intros Hc Hr. unfold readreq. wp_step. wp_step.
  rename c0 into c', H into Hc'. rewrite Hc in Hc'. injection Hc' as <-.
  wp_step. apply wp_assert; [rewrite Hr; reflexivity|].
  wp_steps. simpl in H. rewrite Hc in H. injection H as <-.
  rename b into ok. destruct ok; wp_step; [exists true|exists false];
    (split; [reflexivity|split; [repeat split|split; [reflexivity|]]]).
  - reflexivity.
  - intros [=].
Qed.

Lemma delete_insert_view (v : gmap addr (bool * Z)) S x :
  delete S (<[S := x]> v) = delete S v.
Proof. apply delete_insert_eq. Qed.

(** The tail shared by [readreq_cancel], [reqdone] and the end-of-stream
    branch of [callback_gotrequest]: connection [S], whose record has just
    been rewritten to [c1], is dropped if [idle]. *)
Lemma drop_if_idle S c c1 (idle : bool) w w1 l :
  WInv w l ->
  conns w !! S = Some c ->
  next c1 = next c -> prev c1 = prev c ->
  conns w1 = <[S := c1]> (conns w) ->
  dstate_eq w w1 -> fwds w1 = fwds w ->
  (idle = true <-> read_cookie c1 = false /\ nrequests c1 = 0) ->
  wp (if idle then
        rc <- dropconn S ;;
        if nonzero rc then ret (-1) else ret 0
      else ret 0)
     (settled S (read_cookie c1) (nrequests c1) w l) w1.
Proof.
  intros HW Hc Hnx Hpv Hc1 Hds Hfw Hidle.
  assert (HW1 : WInv w1 l) by (eapply WInv_fields; eauto).
  assert (Hv1 : view (conns w1)
                = <[S := (read_cookie c1, nrequests c1)]> (view (conns w))).
  { rewrite Hc1. apply view_insert. }
  pose proof Hds as (Hsl & Hsa & Hn' & Hmax' & Hf).
  destruct idle.
  - destruct (proj1 Hidle eq_refl) as [Hr0 Hn0].
    wp_step. eapply wp_mono.
    + eapply (dropconn_spec S c1); eauto.
      rewrite Hc1. apply lookup_insert_eq.
    + simpl. intros rc w' (HW' & Hv' & Hfw' & Hf' & Hmax'' & Hopen).
      assert (Hpost : forall rc', (rc' = 0 -> rc = 0) ->
                settled S (read_cookie c1) (nrequests c1) w l rc' w').
      { intros rc' Hrc. split; [congruence|]. split; [congruence|].
        split; [congruence|]. split.
        - intros H0 Ho. apply Hopen; [auto|].
          eapply open_door_dstate; eauto.
        - left. split; [exact Hr0|]. split; [exact Hn0|].
          split; [exact HW'|]. rewrite Hv', Hv1. apply delete_insert_view. }
      unfold nonzero. destruct (rc =? 0) eqn:E; simpl; wp_step; apply Hpost.
      * intros _. apply Z.eqb_eq. exact E.
      * discriminate.
  - wp_step. split; [exact Hfw|]. split; [exact Hf|]. split; [exact Hmax'|].
    split; [intros _; apply open_door_dstate; exact Hds|].
    right. split; [|split; [exact HW1|exact Hv1]].
    destruct (read_cookie c1) eqn:Hr; [left; reflexivity|right].
    intros Hn0. destruct Hidle as [_ Hidle].
    discriminate Hidle. auto.
Qed.

Lemma readreq_cancel_spec S c w l :
  WInv w l ->
  conns w !! S = Some c ->
  wp (readreq_cancel S) (settled S false (nrequests c) w l) w.
Proof.
  intros HW Hc. unfold readreq_cancel. wp_step. wp_step. wp_step. wp_step.
  simpl in H. rewrite Hc in H. injection H as <-.
  wp_step. wp_step. simpl in H. rewrite lookup_insert_eq in H.
  injection H as <-.
  eapply wp_mono.
  - eapply (drop_if_idle S c (set_read_cookie false c) _ w);
      [exact HW|exact Hc|reflexivity|reflexivity|reflexivity|repeat split
      |reflexivity|].
    simpl. rewrite Z.eqb_eq. tauto.
  - simpl. auto.
Qed.

Lemma reqdone_spec S c w l :
  WInv w l ->
  conns w !! S = Some c ->
  wp (reqdone S)
     (settled S (read_cookie c) (size_wrap (nrequests c - 1)) w l) w.
Proof.
  intros HW Hc. unfold reqdone. wp_step. wp_step.
  rewrite Hc in H. injection H as <-. wp_step. wp_step. wp_step. wp_step.
  simpl in H. rewrite lookup_insert_eq in H. injection H as <-.
  eapply wp_mono.
  - eapply (drop_if_idle S c
              (set_nrequests (size_wrap (nrequests c - 1)) c) _ w);
      [exact HW|exact Hc|reflexivity|reflexivity|reflexivity|repeat split
      |reflexivity|].
    simpl. rewrite andb_true_iff, negb_true_iff, Z.eqb_eq. tauto.
  - simpl. auto.
Qed.

(** ** Counting forwardees *)

Lemma owed_insert_fresh a F f (fw : gmap addr forwardee_t) :
  fw !! F = None ->
  owed_in a (<[F := f]> fw)
  = owed_in a fw + (if decide (conn f = a) then 1 else 0).
Proof.
  intros HF. unfold owed_in. rewrite map_filter_insert. simpl.
  destruct (decide (conn f = a)) as [E|E].
  - rewrite map_size_insert_None; [lia|].
    apply map_lookup_filter_None. auto.
  - rewrite delete_id by exact HF. lia.
Qed.

Lemma owed_delete a F f (fw : gmap addr forwardee_t) :
  fw !! F = Some f ->
  owed_in a (delete F fw)
  = owed_in a fw - (if decide (conn f = a) then 1 else 0).
Proof.
  intros HF. unfold owed_in. rewrite map_filter_delete.
  destruct (decide (conn f = a)) as [E|E].
  - assert (Hin : filter (fun kv => conn (snd kv) = a) fw !! F = Some f).
    { apply map_lookup_filter_Some. auto. }
    rewrite map_size_delete, Hin.
    assert (size (filter (fun kv => conn (snd kv) = a) fw) <> 0%nat).
    { apply map_size_non_empty_iff. intros Hempty. rewrite Hempty in Hin.
      rewrite lookup_empty in Hin. discriminate. }
    simpl. lia.
  - rewrite delete_id; [lia|].
    apply map_lookup_filter_None. right. intros f' Hf'. simpl. congruence.
Qed.

Lemma owed_insert_same a F f f' (fw : gmap addr forwardee_t) :
  fw !! F = Some f -> conn f' = conn f ->
  owed_in a (<[F := f']> fw) = owed_in a fw.
Proof.
  intros HF Hconn. rewrite <- insert_delete_eq.
  rewrite owed_insert_fresh by apply lookup_delete_eq.
  rewrite (owed_delete a F f) by exact HF. rewrite Hconn.
  destruct (decide (conn f = a)); lia.
Qed.

Lemma owed_le_size a (fw : gmap addr forwardee_t) :
  0 <= owed_in a fw <= Z.of_nat (size fw).
Proof.
  unfold owed_in. split; [lia|]. apply inj_le, map_subseteq_size.
  apply map_filter_subseteq.
Qed.

Lemma owed_zero a F f (fw : gmap addr forwardee_t) :
  owed_in a fw = 0 -> fw !! F = Some f -> conn f <> a.
Proof.
  unfold owed_in. intros H0 HF Hconn.
  assert (Hempty : filter (fun kv => conn (snd kv) = a) fw = ∅).
  { apply map_size_empty_iff. lia. }
  eapply (map_filter_empty_not_lookup _ _ F f Hempty); [exact Hconn|exact HF].
Qed.

Lemma owed_none a (fw : gmap addr forwardee_t) :
  (forall F f, fw !! F = Some f -> conn f <> a) -> owed_in a fw = 0.
Proof.
  intros Hno. unfold owed_in.
  replace (filter (fun kv => conn (snd kv) = a) fw) with (∅ : gmap addr forwardee_t);
    [rewrite map_size_empty; reflexivity|].
  symmetry. apply map_eq. intros F. rewrite lookup_empty.
  apply map_lookup_filter_None.
  destruct (fw !! F) as [f|] eqn:E; [right|left; reflexivity].
  intros f' [= <-]. simpl. eapply Hno. exact E.
Qed.

(** ** Accounting across teardown *)

Lemma is_Some_view h a : is_Some (view h !! a) <-> is_Some (h !! a).
Proof. rewrite view_lookup. apply fmap_is_Some. Qed.

Lemma acct_delete S v fw : acct v fw -> acct (delete S v) fw.
Proof.
  intros H a rd nr Ha. apply lookup_delete_Some in Ha as [_ Ha]. eauto.
Qed.

Lemma settled_Acct S rd nr w l rc w' :
  settled S rd nr w l rc w' ->
  acct (delete S (view (conns w))) (fwds w) ->
  (forall F f, fwds w !! F = Some f -> is_Some (conns w !! conn f)) ->
  Z.of_nat (size (fwds w)) <= SIZE_MAX ->
  nr = owed_in S (fwds w) ->
  Acct w'.
Proof.
  intros (Hfw & _ & _ & _ & Hcase) Hacct Hlive Hsize Hnr.
  unfold Acct. rewrite Hfw.
  destruct Hcase as [(Hrd & Hnr0 & _ & Hv)|(Hnz & _ & Hv)]; rewrite Hv.
  - split; [exact Hacct|]. split; [|exact Hsize].
    intros F f HF. apply is_Some_view. rewrite Hv.
    apply lookup_delete_is_Some. split.
    + apply not_eq_sym. eapply owed_zero; [|exact HF]. congruence.
    + apply is_Some_view. eauto.
  - split; [|split; [|exact Hsize]].
    + intros a rd' nr' Ha. destruct (decide (a = S)) as [->|Hne].
      * rewrite lookup_insert_eq in Ha. injection Ha as <- <-. auto.
      * rewrite lookup_insert_ne in Ha by congruence.
        apply (Hacct a). rewrite lookup_delete_ne by congruence. exact Ha.
    + intros F f HF. apply is_Some_view. rewrite Hv.
      destruct (decide (conn f = S)) as [->|Hne].
      * rewrite lookup_insert_eq. eauto.
      * rewrite lookup_insert_ne by congruence. apply is_Some_view. eauto.
Qed.

Lemma settled_WInv S rd nr w l rc w' :
  settled S rd nr w l rc w' -> exists l', WInv w' l'.
Proof.
  intros (_ & _ & _ & _ & [(_ & _ & H & _)|(_ & H & _)]); eauto.
Qed.

Lemma not_any_armed w : none_armed w -> ~ any_armed w.
Proof.
  unfold none_armed, any_armed. rewrite Forall_forall, Exists_exists.
  intros Hnone (L & HL & Harmed).
  rewrite (Hnone L HL) in Harmed. discriminate.
Qed.

(** Changing listeners keeps the structural invariant as long as nothing
    gets armed above the limit. *)
Lemma WInv_listeners w w' l :
  WInv w l -> rest_eq w w' ->
  (any_armed w' -> nsock_active w < cap w) ->
  WInv w' l.
Proof.
  intros ((Hl & Hdom) & Hn & (Hmax & Hle & Harm))
         (Hsa & Hn' & Hmax' & Hf & Hc & Hfw) Harm'.
  split; [split|split].
  - rewrite Hsa, Hc. exact Hl.
  - intros a. rewrite Hc. apply Hdom.
  - congruence.
  - unfold adm, cap in *. rewrite Hn', Hmax'. auto.
Qed.

Lemma WInv_off_heap w w' l :
  WInv w l -> dstate_eq w w' -> conns w' = conns w -> WInv w' l.
Proof.
  intros ((Hl & Hdom) & Hn & (Hmax & Hle & Harm))
         (Hsl & Hsa & Hn' & Hmax' & Hf) Hc.
  split; [split|split].
  - rewrite Hsa, Hc. exact Hl.
  - intros a. rewrite Hc. apply Hdom.
  - congruence.
  - unfold adm, cap, any_armed in *. rewrite Hn', Hmax', Hsl. auto.
Qed.

Lemma wp_dangling {B} S (k : sock_active_t -> M B) (Q : B -> world -> Prop) w :
  conns w !! S = None -> wp (c <- deref S ;; k c) Q w.
Proof.
  intros H o. unfold bind, deref. rewrite H. exact I.
Qed.

(** ** The callbacks *)

(** A forwardee [F] has just been freed; [reqdone] runs on its
    connection. *)
Lemma reqdone_finish F f w w1 l :
  WInv w l ->
  fwds w !! F = Some f ->
  conns w1 = conns w -> dstate_eq w w1 -> fwds w1 = delete F (fwds w) ->
  wp (reqdone (conn f))
     (fun rc w' =>
        (exists l', WInv w' l') /\
        failed w' = failed w /\
        fwds w' = delete F (fwds w) /\
        (Acct w -> Acct w') /\
        (rc = 0 -> open_door w -> open_door w')) w1.
Proof.
  intros HW HF Hc1 Hds1 Hfw1.
  assert (HW1 : WInv w1 l) by (eapply WInv_off_heap; eauto).
  destruct (conns w1 !! conn f) as [c|] eqn:Hc.
  2:{ unfold reqdone. apply wp_dangling. exact Hc. }
  eapply wp_mono; [eapply reqdone_spec; eauto|]. simpl.
  intros rc w' Hset. pose proof Hset as (Hfw' & Hf' & _ & Hopen & _).
  split; [eapply settled_WInv; eauto|].
  pose proof Hds1 as (_ & _ & _ & _ & Hf1).
  split; [congruence|]. split; [congruence|]. split.
  - intros (Hacct & Hlive & Hsize).
    assert (Hnr : nrequests c = owed_in (conn f) (fwds w)).
    { apply (Hacct (conn f) (read_cookie c)).
      rewrite view_lookup, <- Hc1, Hc. reflexivity. }
    assert (Hdel : owed_in (conn f) (delete F (fwds w))
                   = owed_in (conn f) (fwds w) - 1).
    { rewrite (owed_delete _ F f) by exact HF.
      rewrite decide_True by reflexivity. reflexivity. }
    pose proof (owed_le_size (conn f) (delete F (fwds w))) as [Hge _].
    pose proof (owed_le_size (conn f) (fwds w)) as [_ Hle].
    eapply settled_Acct; [exact Hset| | | |].
    + rewrite Hc1, Hfw1. intros a rd nr Ha.
      apply lookup_delete_Some in Ha as [Hne Ha].
      destruct (Hacct a rd nr Ha) as [-> Hidle]. split; [|exact Hidle].
      rewrite (owed_delete _ F f) by exact HF.
      rewrite decide_False by congruence. lia.
    + rewrite Hc1, Hfw1. intros F' f' HF'.
      apply lookup_delete_Some in HF' as [_ HF']. eauto.
    + rewrite Hfw1. etransitivity; [|exact Hsize].
      apply inj_le, map_subseteq_size, delete_subseteq.
    + rewrite Hfw1, Hdel, Hnr. apply size_wrap_small. lia.
  - intros Hrc Ho. apply Hopen; [exact Hrc|].
    eapply open_door_dstate; [exact Hds1|exact Ho].
Qed.

Lemma wp_rc rc (Q : Z -> world -> Prop) w :
  (forall rc', (rc' = 0 -> rc = 0) -> Q rc' w) ->
  wp (if nonzero rc then ret (-1) else ret 0) Q w.
Proof.
  intros HQ. unfold nonzero. destruct (rc =? 0) eqn:E; simpl; wp_step; apply HQ.
  - intros _. apply Z.eqb_eq. exact E.
  - discriminate.
Qed.

Lemma callback_writresponse_ok F b w l :
  WInv w l ->
  wp (callback_writresponse F b)
     (fun rc w' => cb_post (writresponse F b) w rc w' /\ failed w' = failed w) w.
Proof.
  intros HW. unfold callback_writresponse. wp_step. wp_step.
  rename H into HF. wp_step. wp_step. wp_step.
  eapply wp_mono.
  - eapply (reqdone_finish F f w); [exact HW|exact HF|reflexivity
                                    |repeat split|reflexivity].
  - simpl. intros rc w' (HW' & Hf' & Hfw' & HA & Hopen).
    apply wp_rc. intros rc' Hrc. split; [|exact Hf'].
    split; [exact HW'|]. split; [|intros _; exact Hfw'].
    intros [HAcct Ho] H0. split; auto.
Qed.

Lemma callback_gotresponse_some_ok F b w l :
  WInv w l ->
  wp (callback_gotresponse F (Some b)) (cb_post (gotresponse F (Some b)) w) w.
Proof.
  intros HW. unfold callback_gotresponse. wp_step. wp_step.
  rename H into HF. wp_step. wp_step. wp_step. wp_step.
  rename H into Hc. simpl in Hc. wp_step. wp_step. wp_step. wp_step.
  assert (HW' : forall w', dstate_eq w w' -> conns w' = conns w ->
                           exists l', WInv w' l').
  { intros w' H1 H2. exists l. eapply WInv_off_heap; eauto. }
  destruct b0; simpl.
  - wp_step. split; [apply HW'; repeat split|].
    split; [|intros _; simpl; rewrite HF; reflexivity].
    intros [(Hacct & Hlive & Hsize) Ho] _. split; [split; [|split]|].
    + simpl. intros a rd nr Ha. destruct (Hacct a rd nr Ha) as [-> Hidle].
      split; [|exact Hidle]. symmetry.
      apply (owed_insert_same _ _ f); [exact HF|reflexivity].
    + simpl. intros F' f' HF'. destruct (decide (F' = F)) as [->|Hne].
      * rewrite lookup_insert_eq in HF'. injection HF' as <-. simpl. eauto.
      * rewrite lookup_insert_ne in HF' by congruence. eauto.
    + simpl. rewrite map_size_insert_Some by eauto. exact Hsize.
    + eapply open_door_dstate; [|exact Ho]. repeat split.
  - wp_step. wp_step. wp_step. split; [apply HW'; repeat split|].
    split; [intros _ [=]|intros [=]].
Qed.

Lemma callback_gotrequest_eof_ok S F w l :
  WInv w l ->
  wp (callback_gotrequest S None F) (cb_post (gotrequest S None F) w) w.
Proof.
  intros HW. unfold callback_gotrequest. wp_step. wp_step.
  rename c into c0, H into Hc0. wp_step. wp_step.
  simpl in H. rewrite lookup_insert_eq in H. injection H as <-.
  eapply wp_mono.
  - eapply (drop_if_idle S c0 (set_read_cookie false c0) _ w);
      [exact HW|exact Hc0|reflexivity|reflexivity|reflexivity|repeat split
      |reflexivity|].
    simpl. rewrite Z.eqb_eq. tauto.
  - simpl. intros rc w' Hset. split; [eapply settled_WInv; eauto|].
    split; [|intros _; apply Hset].
    intros [(Hacct & Hlive & Hsize) Ho] Hrc. split.
    + eapply settled_Acct; [exact Hset|apply acct_delete, Hacct|exact Hlive
                            |exact Hsize|].
      apply (Hacct S (read_cookie c0)). rewrite view_lookup, Hc0. reflexivity.
    + destruct Hset as (_ & _ & _ & Hopen & _). auto.
Qed.

Lemma callback_gotrequest_some_ok S p F w l :
  WInv w l ->
  fwds w !! F = None ->
  wp (callback_gotrequest S (Some p) F)
     (cb_post (gotrequest S (Some p) F) w) w.
Proof.
  intros HW HF. unfold callback_gotrequest. wp_step. wp_step.
  rename c into c0, H into Hc0.
  set (c1 := set_read_cookie false c0).
  set (w1 := set_conns (<[S:=c1]> (conns w)) w).
  assert (HW1 : WInv w1 l).
  { eapply (WInv_fields w w1 l S c0 c1); eauto; try reflexivity.
    repeat split. }
  unfold mpool_forwardee_malloc. wp_steps.
  rename b into ok.
  destruct (ok && (Z.of_nat (size (fwds w1)) <? SIZE_MAX)) eqn:Hok; simpl.
  2:{ wp_step. split; [eauto|]. split; [intros _ [=]|intros [=]]. }
  apply andb_true_iff in Hok as [_ Hroom]. apply Z.ltb_lt in Hroom.
  simpl in Hroom.
  wp_step. wp_step. wp_step. wp_step.
  simpl in H. unfold c1 in H. rewrite lookup_insert_eq in H. injection H as <-.
  fold c1.
  set (c2 := set_nrequests (size_wrap (nrequests c1 + 1)) c1).
  wp_steps. rename b into sent.
  set (w3 := add_call (wire_requestqueue_add F)
               (set_conns (<[S:=c2]> (conns (set_fwds (<[F:=Forwardee S p InQueue]> (fwds w1)) w1)))
                  (set_fwds (<[F:=Forwardee S p InQueue]> (fwds w1)) w1))).
  assert (HW3 : WInv w3 l).
  { eapply (WInv_fields w1 w3 l S c1 c2); eauto; try reflexivity.
    - apply lookup_insert_eq.
    - repeat split. }
  destruct sent; simpl.
  2:{ wp_step. wp_step. wp_step. split.
      - exists l. eapply WInv_off_heap; [exact HW3|repeat split|reflexivity].
      - split; [intros _ [=]|intros [=]]. }
  wp_step. eapply wp_mono.
  - eapply (readreq_spec S c2); [apply lookup_insert_eq|reflexivity].
  - simpl. intros rc w' (b & Hc' & Hds' & Hfw' & Hb).
    apply wp_rc. intros rc' Hrc. split.
    + exists l.
      eapply (WInv_fields w3 w' l S c2 (set_read_cookie b c2));
        [exact HW3|apply lookup_insert_eq|reflexivity|reflexivity
        |exact Hc'|exact Hds'].
    + split; [|intros _; exact Hfw'].
      intros [(Hacct & Hlive & Hsize) Ho] H0.
      rewrite (Hb (Hrc H0)) in Hc'. clear Hb.
      assert (Hv' : view (conns w')
                    = <[S := (true, size_wrap (nrequests c0 + 1))]>
                        (view (conns w))).
      { rewrite Hc'. simpl. rewrite !view_insert, !insert_insert_eq.
        reflexivity. }
      assert (Hnr : nrequests c0 = owed_in S (fwds w)).
      { apply (Hacct S (read_cookie c0)). rewrite view_lookup, Hc0.
        reflexivity. }
      pose proof (owed_le_size S (fwds w)) as [Hge Hle].
      split; [split; [|split]|].
      * rewrite Hv', Hfw'. simpl. intros a rd nr Ha.
        rewrite owed_insert_fresh by exact HF. simpl.
        destruct (decide (a = S)) as [->|Hne].
        -- rewrite lookup_insert_eq in Ha. injection Ha as <- <-.
           rewrite decide_True by reflexivity. split; [|auto].
           rewrite size_wrap_small by lia. lia.
        -- rewrite lookup_insert_ne in Ha by congruence.
           destruct (Hacct a rd nr Ha) as [-> Hidle].
           rewrite decide_False by congruence. split; [lia|exact Hidle].
      * rewrite Hfw'. simpl. intros F' f' HF'. apply is_Some_view. rewrite Hv'.
        destruct (decide (conn f' = S)) as [->|Hne].
        -- rewrite lookup_insert_eq. eauto.
        -- rewrite lookup_insert_ne by congruence. apply is_Some_view.
           destruct (decide (F' = F)) as [->|HneF].
           ++ rewrite lookup_insert_eq in HF'. injection HF' as <-.
              simpl in Hne. congruence.
           ++ rewrite lookup_insert_ne in HF' by congruence. eauto.
      * rewrite Hfw'. simpl. rewrite map_size_insert_None by exact HF. lia.
      * eapply open_door_dstate; [|exact Ho].
        destruct Hds' as (? & ? & ? & ? & ?). repeat split; assumption.
Qed.

Lemma conn_list_size w l : conn_list w l -> size (conns w) = length l.
Proof.
  intros [(_ & _ & Hnd) Hdom].
  rewrite <- (size_dom (D := gset addr)).
  replace (dom (conns w)) with (list_to_set (C := gset addr) l).
  - apply size_list_to_set. exact Hnd.
  - apply set_eq. intros a. rewrite elem_of_list_to_set, elem_of_dom.
    apply Hdom.
Qed.

Lemma stop_reading_spec fuel : forall w l l0 r,
  WInv w l -> l = l0 ++ r -> (length r <= fuel)%nat ->
  wp (stop_reading fuel (head_or None r))
     (fun rc w' =>
        (exists l', WInv w' l') /\
        failed w' = failed w /\
        fwds w' = fwds w /\
        (Acct w -> Acct w')) w.
Proof.
  induction fuel as [|fuel IH]; intros w l l0 r HW -> Hlen.
  - destruct r; [|simpl in Hlen; lia]. simpl. wp_step. eauto 6.
  - destruct r as [|a r']; [simpl; wp_step; eauto 6|].
    simpl in Hlen. simpl. wp_step. wp_step. rename H into Hc.
    pose proof HW as ((Hl & _) & _). pose proof Hl as (_ & Hseg & Hnd).
    assert (Hnext : next c = head_or None r').
    { pose proof (dllseg_mid _ _ _ _ _ _ Hseg) as Hmid.
      rewrite links_lookup, Hc in Hmid. simpl in Hmid. congruence. }
    rewrite Hnext.
    assert (Hkeep : wp (stop_reading fuel (head_or None r'))
              (fun rc w' => (exists l', WInv w' l') /\
                            failed w' = failed w /\ fwds w' = fwds w /\
                            (Acct w -> Acct w')) w).
    { apply (IH w (l0 ++ a :: r') (l0 ++ [a]) r'); [exact HW| |lia].
      rewrite <- app_assoc. reflexivity. }
    destruct (read_cookie c) eqn:Hrd; [|exact Hkeep].
    wp_step. eapply wp_mono; [eapply readreq_cancel_spec; eauto|]. simpl.
    intros rc w' Hset.
    assert (HA : Acct w -> Acct w').
    { intros (Hacct & Hlive & Hsize).
      eapply settled_Acct; [exact Hset|apply acct_delete, Hacct|exact Hlive
                            |exact Hsize|].
      apply (Hacct a (read_cookie c)). rewrite view_lookup, Hc. reflexivity. }
    pose proof Hset as (Hfw' & Hf' & _ & _ & Hcase).
    destruct (nonzero rc).
    + wp_step. split; [eapply settled_WInv; eauto|]. auto.
    + eapply wp_mono.
      * destruct Hcase as [(_ & _ & HW' & _)|(_ & HW' & _)].
        -- rewrite remove_addr_mid in HW' by exact Hnd.
           apply (IH w' (l0 ++ r') l0 r'); [exact HW'|reflexivity|lia].
        -- apply (IH w' (l0 ++ a :: r') (l0 ++ [a]) r'); [exact HW'| |lia].
           rewrite <- app_assoc. reflexivity.
      * simpl. intros rc2 w2 (HW2 & Hf2 & Hfw2 & HA2).
        split; [exact HW2|]. split; [congruence|]. split; [congruence|auto].
Qed.

Lemma callback_gotresponse_none_ok F w l :
  WInv w l ->
  wp (callback_gotresponse F None) (cb_post (gotresponse F None) w) w.
Proof.
  intros HW. unfold callback_gotresponse. wp_step. wp_step.
  rename H into HF. wp_step. wp_step. wp_step.
  eapply wp_mono.
  - eapply (reqdone_finish F f w); [exact HW|exact HF|reflexivity
                                    |repeat split|reflexivity].
  - simpl. intros rc w1 ((l1 & HW1) & Hf1 & Hfw1 & HA1 & _).
    destruct (nonzero rc).
    { wp_step. split; [eauto|]. split; [intros _ [=]|intros [=]]. }
    wp_step. wp_step. rename H into Hc1. wp_step.
    eapply wp_mono; [apply accept_stop_spec|]. simpl.
    intros _ w2 (Hrest & Hnone & _).
    assert (HW2 : WInv w2 l1).
    { eapply WInv_listeners; [exact HW1|exact Hrest|].
      intros Hany. exfalso. exact (not_any_armed _ Hnone Hany). }
    pose proof Hrest as (_ & _ & _ & _ & Hc2 & Hfw2).
    wp_step. wp_step. wp_step. wp_step. wp_step. wp_step.
    set (w3 := set_failed true w2).
    assert (HW3 : WInv w3 l1) by exact HW2.
    assert (HS : conn f ∈ l1).
    { destruct HW2 as ((_ & Hdom) & _). apply Hdom. rewrite Hc2. eauto. }
    apply list_elem_of_split in HS as (l0 & r' & ->).
    change (Some (conn f)) with (head_or None (conn f :: r')).
    eapply wp_mono.
    + eapply (stop_reading_spec _ w3 _ l0); [exact HW3|reflexivity|].
      destruct HW3 as (Hcl & _). rewrite (conn_list_size _ _ Hcl).
      rewrite length_app. lia.
    + simpl. intros rc' w' (HW' & Hf' & Hfw' & HA'). split; [exact HW'|].
      split; [|intros _; simpl in Hfw'; rewrite Hfw', Hfw2; exact Hfw1].
      intros [HAcct _] _. split.
      * apply HA'. unfold Acct in *. simpl. rewrite Hc2, Hfw2.
        apply HA1. exact HAcct.
      * intros Hnf. simpl in Hf'. congruence.
Qed.

Lemma any_armed_lookup w i L :
  sock_listen w !! i = Some L -> accept_cookie L = true -> any_armed w.
Proof.
  intros HL Harmed. apply Exists_exists. exists L. split; [|exact Harmed].
  eapply list_elem_of_lookup_2. exact HL.
Qed.

Lemma cap_le_SIZE_MAX w :
  0 <= nsock_active_max w <= SIZE_MAX -> cap w <= SIZE_MAX.
Proof. unfold cap, SIZE_MAX. lia. Qed.

Lemma callback_gotconn_ok i s S w l L :
  WInv w l ->
  sock_listen w !! i = Some L ->
  accept_cookie L = true ->
  conns w !! S = None ->
  wp (callback_gotconn i s S) (cb_post (gotconn i s S) w) w.
Proof.
  intros HW HL Harmed Hfresh.
  pose proof HW as ((Hl & Hdom) & Hn & (Hmax & Hle & Harm)).
  assert (Hroom : nsock_active w < cap w).
  { apply Harm. eapply any_armed_lookup; eauto. }
  assert (HSl : S ∉ l).
  { intros HS. apply Hdom in HS as [c Hc]. congruence. }
  unfold callback_gotconn. wp_step. wp_step.
  rename L0 into L', H into HL'. rewrite HL in HL'. injection HL' as <-.
  wp_step. wp_step.
  set (w1 := set_sock_listen (<[i:=set_accept_cookie false L]> (sock_listen w)) w).
  assert (HW1 : WInv w1 l).
  { eapply WInv_listeners; [exact HW|repeat split|auto]. }
  destruct (s =? -1).
  { wp_step. split; [eauto|]. split; [intros _ [=]|intros [=]]. }
  wp_step. eapply wp_mono; [apply accept_stop_spec|]. simpl.
  intros _ w2 (Hrest2 & Hnone2 & _).
  assert (HW2 : WInv w2 l).
  { eapply WInv_listeners; [exact HW1|exact Hrest2|].
    intros Hany. exfalso. exact (not_any_armed _ Hnone2 Hany). }
  pose proof Hrest2 as (Hsa2 & Hn2 & Hmax2 & Hf2 & Hc2 & Hfw2).
  simpl in Hsa2, Hn2, Hmax2, Hf2, Hc2, Hfw2.
  assert (Hfresh2 : conns w2 !! S = None) by (rewrite Hc2; exact Hfresh).
  assert (Hfail : forall w', dstate_eq w2 w' -> conns w' = conns w2 ->
                             cb_post (gotconn i s S) w (-1) w').
  { intros w' Hds Hc. split; [|split; [intros _ [=]|intros [=]]].
    exists l. eapply WInv_off_heap; eauto. }
  wp_step. wp_step. destruct b; simpl.
  2:{ wp_steps. apply Hfail; [repeat split|reflexivity]. }
  set (c0 := SockActive None None s false 0).
  wp_step. wp_step. wp_step. wp_step. destruct b; simpl.
  2:{ unfold gotconn_unwind. wp_steps. apply Hfail; [repeat split|].
      simpl. apply delete_insert_id. exact Hfresh2. }
  wp_step. wp_step. destruct b; simpl.
  2:{ unfold gotconn_unwind. wp_steps. apply Hfail; [repeat split|].
      simpl. apply delete_insert_id. exact Hfresh2. }
  wp_step. wp_step. destruct b; simpl.
  2:{ unfold gotconn_unwind. wp_steps. apply Hfail; [repeat split|].
      simpl. apply delete_insert_id. exact Hfresh2. }
  wp_step. eapply wp_mono.
  { eapply (readreq_spec S c0); [apply lookup_insert_eq|reflexivity]. }
  simpl. intros rc w4 (b & Hc4 & Hds4 & Hfw4 & Hb).
  rewrite insert_insert_eq in Hc4.
  pose proof Hds4 as (Hsl4 & Hsa4 & Hn4 & Hmax4 & Hf4).
  simpl in Hsl4, Hsa4, Hn4, Hmax4, Hf4, Hfw4.
  destruct (nonzero rc) eqn:Hrc.
  { unfold gotconn_unwind. wp_steps. apply Hfail.
    - simpl. repeat split; assumption.
    - simpl. rewrite Hc4. apply delete_insert_id. exact Hfresh2. }
  assert (Hrc0 : rc = 0).
  { unfold nonzero in Hrc. apply negb_false_iff, Z.eqb_eq in Hrc. exact Hrc. }
  rewrite (Hb Hrc0) in Hc4. clear Hb.
  wp_step. eapply wp_mono.
  { eapply (attach_spec S (set_read_cookie true c0) w4 l).
    - rewrite Hsa4, Hsa2, Hc4. eapply linked_frame; [|exact Hl].
      intros a Ha. rewrite !links_lookup, lookup_insert_ne, Hc2; [reflexivity|].
      intros ->. exact (HSl Ha).
    - exact HSl.
    - rewrite Hc4. apply lookup_insert_eq.
    - reflexivity. }
  simpl. intros _ w5 (Hl5 & Hv5 & Hdom5 & (Hsl5 & Hn5 & Hmax5 & Hf5 & Hfw5)).
  wp_step. wp_step. wp_step. wp_step.
  assert (Hn5' : nsock_active w5 = nsock_active w) by congruence.
  assert (Hmax5' : nsock_active_max w5 = nsock_active_max w) by congruence.
  pose proof (cap_le_SIZE_MAX w Hmax) as Hcap.
  assert (Hwrap : size_wrap (nsock_active w5 + 1) = nsock_active w + 1).
  { rewrite Hn5'. apply size_wrap_small. lia. }
  rewrite Hwrap.
  set (w6 := set_nsock_active (nsock_active w + 1) w5).
  assert (Hfinal : forall rc' w',
    rest_eq w6 w' ->
    (any_armed w' -> nsock_active w + 1 < nsock_active_max w) ->
    (nsock_active w + 1 < nsock_active_max w -> rc' = 0 -> all_armed w') ->
    cb_post (gotconn i s S) w rc' w').
  { intros rc' w' (Hsa' & Hn' & Hmax' & Hf' & Hc' & Hfw') Hany Hall.
    simpl in Hsa', Hn', Hmax', Hf', Hc', Hfw'.
    assert (Hv' : view (conns w') = <[S := (true, 0)]> (view (conns w))).
    { rewrite Hc', Hv5, Hc4, view_insert, Hc2. reflexivity. }
    split.
    - exists (S :: l). split; [split|split].
      + rewrite Hsa', Hc'. exact Hl5.
      + intros a. rewrite Hc', Hdom5, Hc4, elem_of_cons, Hdom.
        destruct (decide (a = S)) as [->|Hne].
        * rewrite lookup_insert_eq. split; eauto.
        * rewrite lookup_insert_ne, Hc2 by congruence.
          split; [intros [?|?]|]; [congruence|auto|auto].
      + rewrite Hn'. simpl length. lia.
      + unfold adm, cap. rewrite Hn', Hmax', Hmax5'. unfold cap in Hroom.
        split; [exact Hmax|]. split; [lia|]. intros Ha.
        specialize (Hany Ha). lia.
    - split; [|intros _; simpl; congruence].
      intros [(Hacct & Hlive & Hsize) Ho] Hrc'. split; [split; [|split]|].
      + rewrite Hv', Hfw', Hfw5, Hfw4, Hfw2. intros a rd nr Ha.
        destruct (decide (a = S)) as [->|Hne].
        * rewrite lookup_insert_eq in Ha. injection Ha as <- <-.
          split; [|auto]. symmetry. apply owed_none.
          intros F f HF Hconn. apply Hlive in HF. rewrite Hconn in HF.
          rewrite Hfresh in HF. destruct HF as [? [=]].
        * rewrite lookup_insert_ne in Ha by congruence. eauto.
      + rewrite Hfw', Hfw5, Hfw4, Hfw2. intros F f HF.
        apply is_Some_view. rewrite Hv'.
        destruct (decide (conn f = S)) as [->|Hne].
        * rewrite lookup_insert_eq. eauto.
        * rewrite lookup_insert_ne by congruence. apply is_Some_view. eauto.
      + rewrite Hfw', Hfw5, Hfw4, Hfw2. exact Hsize.
      + intros Hnf Hlt. rewrite Hn', Hmax', Hmax5' in Hlt. auto. }
  destruct (nsock_active w + 1 <? nsock_active_max w5) eqn:Hmore.
  - apply Z.ltb_lt in Hmore. rewrite Hmax5' in Hmore.
    wp_step. eapply wp_mono; [apply accept_start_spec|]. simpl.
    intros rc7 w7 (Hrest7 & Hall7 & _ & _).
    apply wp_rc. intros rc' Hrc'. apply Hfinal; auto.
  - apply Z.ltb_ge in Hmore. rewrite Hmax5' in Hmore.
    wp_step. apply Hfinal; [apply rest_eq_refl| |lia].
    intros Hany. exfalso. apply (not_any_armed w2 Hnone2).
    unfold any_armed in *. simpl in Hany.
    rewrite Hsl5, Hsl4 in Hany. exact Hany.
Qed.

(** ** Invariants of the reactor loop *)

Lemma wp_run {A} (m : M A) Q w o a w' o' :
  wp m Q w -> m w o = Ok a w' o' -> Q a w'.
Proof.
  intros H E. specialize (H o). rewrite E in H. exact H.
Qed.

Lemma dispatch_init_ok socks maxconn o w :
  0 <= maxconn <= SIZE_MAX ->
  dispatch_init socks maxconn o = Some w ->
  WInv w [] /\ SInv w.
Proof.
  intros Hmax. unfold dispatch_init.
  set (w0 := World [] None 0 maxconn false ∅ ∅ []).
  match goal with |- context [?m w0 o] => set (boot := m) end.
  assert (Hwp : wp boot (fun b w' => b = true -> WInv w' [] /\ SInv w') w0).
  { unfold boot. wp_step. wp_step. destruct b; simpl; [|wp_step; discriminate].
    wp_step. wp_step. destruct b; simpl; [|wp_step; discriminate].
    wp_step. wp_step. wp_step.
    eapply wp_mono; [apply accept_start_spec|]. simpl.
    intros rc w' ((Hsa & Hn & Hmax' & Hf & Hc & Hfw) & Hall & _ & _).
    simpl in Hsa, Hn, Hmax', Hf, Hc, Hfw.
    wp_step. unfold nonzero. rewrite negb_involutive, Z.eqb_eq. intros Hrc.
    split; [split; [split|split]|split; [split; [|split]|]].
    - rewrite Hsa. split; [reflexivity|]. split; [exact I|]. constructor.
    - intros a. rewrite Hc, lookup_empty. split.
      + intros Ha. inversion Ha.
      + intros [? [=]].
    - rewrite Hn. reflexivity.
    - unfold adm, cap. rewrite Hn, Hmax'. split; [exact Hmax|]. lia.
    - intros a rd nr Ha. rewrite Hc, view_lookup, lookup_empty in Ha.
      discriminate.
    - intros F f HF. rewrite Hfw, lookup_empty in HF. discriminate.
    - rewrite Hfw, map_size_empty. unfold SIZE_MAX. lia.
    - intros _ _. auto. }
  destruct (boot w0 o) as [b w' o'| | |] eqn:E; try discriminate.
  destruct b; [|discriminate]. intros [= <-].
  eapply (wp_run boot _ w0 o true w' o' Hwp E). reflexivity.
Qed.

Lemma callback_wp w l e :
  WInv w l -> enabled w e = true ->
  wp (run_callback (cb e)) (cb_post (cb e) w) w.
Proof.
  intros HW Hen. unfold enabled in Hen.
  destruct (cb e) as [i s Sa|Sa P F|F buf|F b]; simpl.
  - destruct (sock_listen w !! i) as [L|] eqn:HL; [|discriminate].
    apply andb_true_iff in Hen as [Harmed Hfree].
    destruct (conns w !! Sa) eqn:Hc; [discriminate|].
    eapply callback_gotconn_ok; eauto.
  - destruct (conns w !! Sa) as [c|] eqn:Hc; [|discriminate].
    apply andb_true_iff in Hen as [Harmed Hfree].
    destruct (fwds w !! F) eqn:HF; [discriminate|].
    destruct P.
    + eapply callback_gotrequest_some_ok; eauto.
    + eapply callback_gotrequest_eof_ok; eauto.
  - destruct buf.
    + eapply callback_gotresponse_some_ok; eauto.
    + eapply callback_gotresponse_none_ok; eauto.
  - eapply wp_mono; [eapply callback_writresponse_ok; eauto|].
    simpl. tauto.
Qed.

Lemma step_ok w l e rc w' o :
  WInv w l -> enabled w e = true -> step w e = Ok rc w' o ->
  cb_post (cb e) w rc w'.
Proof.
  intros HW Hen Hstep. eapply wp_run; [|exact Hstep].
  eapply callback_wp; eauto.
Qed.

Lemma reachable_WInv w : reachable w -> exists l, WInv w l.
Proof.
  induction 1 as [socks maxconn o w Hmax Hinit|w e rc w' o Hr [l IH] Hen Hstep].
  - exists []. eapply dispatch_init_ok; eauto.
  - eapply step_ok; eauto.
Qed.

Lemma running_reachable w : running w -> reachable w.
Proof.
  induction 1; [eapply reachable_init|eapply reachable_step]; eauto.
Qed.

Lemma running_SInv w : running w -> SInv w.
Proof.
  induction 1 as [socks maxconn o w Hmax Hinit|w e w' o Hr IH Hen Hstep].
  - eapply dispatch_init_ok; eauto.
  - destruct (reachable_WInv w (running_reachable w Hr)) as [l HW].
    eapply step_ok; eauto.
Qed.

Lemma chain_dllseg h l : forall fuel p,
  dllseg (links h) p l None -> (length l <= fuel)%nat ->
  chain fuel (head_or None l) h = l.
Proof.
  induction l as [|a l IH]; intros fuel p Hseg Hlen.
  - destruct fuel; reflexivity.
  - destruct fuel as [|fuel]; [simpl in Hlen; lia|].
    simpl in Hseg. destruct Hseg as [Ha Hseg]. simpl.
    rewrite links_lookup in Ha.
    destruct (h !! a) as [c|]; [|discriminate]. simpl in Ha.
    injection Ha as Hnext _. rewrite Hnext.
    f_equal. eapply IH; [exact Hseg|]. simpl in Hlen. lia.
Qed.

Lemma connections_conn_list w l : conn_list w l -> connections w = l.
Proof.
  intros Hcl. pose proof (conn_list_size w l Hcl) as Hsize.
  destruct Hcl as [(Hhd & Hseg & _) _]. unfold connections.
  rewrite Hhd. eapply chain_dllseg; [exact Hseg|lia].
Qed.

(** ** Every callback returns *)

Lemma twp_ret {A} (a : A) Q w : Q a w -> twp (ret a) Q w.
Proof. intros H o. exact H. Qed.

Lemma twp_bind {A B} (m : M A) (f : A -> M B) Q w :
  twp m (fun a w' => twp (f a) Q w') w -> twp (bind m f) Q w.
Proof.
  intros H o. specialize (H o). unfold bind.
  destruct (m w o) as [a w' o'| | |]; auto. apply H.
Qed.

Lemma twp_mono {A} (m : M A) (Q Q' : A -> world -> Prop) w :
  twp m Q w -> (forall a w', Q a w' -> Q' a w') -> twp m Q' w.
Proof.
  intros H HQ o. specialize (H o). destruct (m w o); auto.
Qed.

(** A computation that returns satisfies what its partial specification
    says. *)
Lemma twp_wp {A} (m : M A) (Q : A -> world -> Prop) w :
  returns m w -> wp m Q w -> twp m Q w.
Proof.
  intros Hr Hp o. specialize (Hr o). specialize (Hp o).
  destruct (m w o); auto.
Qed.

Lemma twp_get Q w : Q w w -> twp get Q w.
Proof. intros H o. exact H. Qed.

Lemma twp_modify f Q w : Q tt (f w) -> twp (modify f) Q w.
Proof. intros H o. exact H. Qed.

Lemma twp_ask Q w : (forall b, Q b w) -> twp ask_env Q w.
Proof. intros H o. unfold ask_env. destruct o; apply H. Qed.

Lemma twp_assert b Q w : b = true -> Q tt w -> twp (assert b) Q w.
Proof. intros -> H o. exact H. Qed.

Lemma twp_deref S c Q w :
  conns w !! S = Some c -> Q c w -> twp (deref S) Q w.
Proof. intros Hc H o. unfold deref. rewrite Hc. exact H. Qed.

Lemma twp_deref_fwd F f Q w :
  fwds w !! F = Some f -> Q f w -> twp (deref_fwd F) Q w.
Proof. intros Hf H o. unfold deref_fwd. rewrite Hf. exact H. Qed.

Lemma twp_listener i L Q w :
  sock_listen w !! i = Some L -> Q L w -> twp (listener i) Q w.
Proof. intros HL H o. unfold listener. rewrite HL. exact H. Qed.

Lemma twp_update S c f Q w :
  conns w !! S = Some c ->
  Q tt (set_conns (<[S := f c]> (conns w)) w) ->
  twp (update S f) Q w.
Proof.
  intros Hc H. unfold update. apply twp_bind. eapply twp_deref; [exact Hc|].
  apply twp_modify. exact H.
Qed.

Ltac twp_step :=
  lazymatch goal with
  | |- twp (bind _ _) _ _ => apply twp_bind
  | |- twp (ret _) _ _ => apply twp_ret
  | |- twp get _ _ => apply twp_get
  | |- twp (modify _) _ _ => apply twp_modify
  | |- twp (do_call _) _ _ => apply twp_modify
  | |- twp (store _ _) _ _ => apply twp_modify
  | |- twp (store_fwd _ _) _ _ => apply twp_modify
  | |- twp (free_conn _) _ _ => apply twp_modify
  | |- twp (mpool_forwardee_free _) _ _ => apply twp_modify
  | |- twp (set_listener _ _) _ _ => apply twp_modify
  | |- twp ask_env _ _ => apply twp_ask; intros ?
  | |- returns _ _ => unfold returns
  end.

Ltac twp_steps := repeat twp_step.

Lemma twp_close s (Q : bool -> world -> Prop) w :
  (forall n closed,
     Q closed (add_calls (replicate (Datatypes.S n) (close_socket s)) w)) ->
  twp (close_until_done s) Q w.
Proof.
  intros H o. destruct (close_until_done_exact s w o) as (n & b & o' & ->).
  apply H.
Qed.

(** Running a callee: it returns, and its specification describes the
    state it returns in. *)
Ltac twp_call Hret Hspec :=
  eapply twp_mono; [apply twp_wp; [Hret|Hspec]|simpl].

Lemma accept_stop_loop_returns k : forall i w,
  (i + k <= length (sock_listen w))%nat ->
  returns (accept_stop_loop k i) w.
Proof.
  induction k as [|k IH]; intros i w Hlen; simpl.
  - twp_steps. exact I.
  - destruct (lookup_lt_is_Some_2 (sock_listen w) i ltac:(lia)) as [L HL].
    twp_steps. eapply twp_listener; [exact HL|].
    twp_step. destruct (accept_cookie L).
    + twp_steps. apply IH. simpl. rewrite length_insert. lia.
    + twp_step. apply IH. lia.
Qed.

Lemma accept_stop_returns w : returns accept_stop w.
Proof.
  unfold accept_stop. twp_steps. apply accept_stop_loop_returns. lia.
Qed.

Lemma accept_start_busy_returns k : forall i w,
  (i + k <= length (sock_listen w))%nat ->
  returns (accept_start_busy k i) w.
Proof.
  induction k as [|k IH]; intros i w Hlen; simpl.
  - twp_steps. exact I.
  - destruct (lookup_lt_is_Some_2 (sock_listen w) i ltac:(lia)) as [L HL].
    twp_steps. eapply twp_listener; [exact HL|].
    destruct (accept_cookie L).
    + twp_step. exact I.
    + apply IH. lia.
Qed.

Lemma accept_start_arm_returns k : forall i w,
  (i + k <= length (sock_listen w))%nat ->
  returns (accept_start_arm k i) w.
Proof.
  induction k as [|k IH]; intros i w Hlen; simpl.
  - twp_steps. exact I.
  - destruct (lookup_lt_is_Some_2 (sock_listen w) i ltac:(lia)) as [L HL].
    twp_steps. eapply twp_listener; [exact HL|].
    twp_steps. destruct b.
    + apply IH. simpl. rewrite length_insert. lia.
    + twp_step. exact I.
Qed.

Lemma accept_start_returns w : returns accept_start w.
Proof.
  unfold accept_start. twp_steps.
  twp_call ltac:(apply accept_start_busy_returns; lia)
           ltac:(apply accept_start_busy_spec).
  intros busy w' ->. destruct busy; [twp_step; exact I|].
  twp_step.
  twp_call ltac:(apply accept_start_arm_returns; lia)
           ltac:(apply accept_start_arm_spec; intros j L Hj; lia).
  intros ok w1 _. destruct ok; [twp_step; exact I|].
  twp_step. eapply twp_mono; [apply accept_stop_returns|].
  intros _ w2 _. twp_step. exact I.
Qed.

Lemma readreq_returns S c w :
  conns w !! S = Some c -> read_cookie c = false -> returns (readreq S) w.
Proof.
  intros Hc Hr. unfold readreq. twp_steps.
  eapply twp_deref; [exact Hc|]. twp_step.
  apply twp_assert; [rewrite Hr; reflexivity|]. twp_steps.
  eapply twp_update; [exact Hc|]. destruct b; twp_step; exact I.
Qed.

Lemma linked_live hd h l a :
  linked hd (links h) l -> a ∈ l -> is_Some (h !! a).
Proof.
  intros (_ & Hseg & _) Ha.
  pose proof (dllseg_lookup _ _ _ _ _ Hseg Ha) as Hlk.
  rewrite links_lookup in Hlk. apply fmap_is_Some in Hlk. exact Hlk.
Qed.

Lemma detach_returns S c w l1 l2 :
  linked (sock_active w) (links (conns w)) (l1 ++ S :: l2) ->
  conns w !! S = Some c ->
  returns (detach S) w.
Proof.
  intros Hl Hc. pose proof Hl as (_ & Hseg & Hnd).
  pose proof (dllseg_mid _ _ _ _ _ _ Hseg) as HS.
  rewrite links_lookup, Hc in HS. simpl in HS. injection HS as Hnx Hpv.
  assert (Hnext : forall n, next c = Some n -> is_Some (conns w !! n)).
  { intros n Hn. rewrite Hnx in Hn. destruct l2 as [|y t]; [discriminate|].
    simpl in Hn. injection Hn as <-. eapply linked_live; [exact Hl|].
    apply elem_of_app. right. apply list_elem_of_further, list_elem_of_here. }
  unfold detach. twp_steps. eapply twp_deref; [exact Hc|]. twp_step.
  destruct (prev c) as [p|] eqn:Hp.
  - assert (Hpl1 : p ∈ l1).
    { symmetry in Hpv. apply last_or_Some in Hpv as [l1' ->].
      apply elem_of_app. right. apply list_elem_of_here. }
    assert (HpS : p <> S).
    { intros ->. apply NoDup_app in Hnd as (_ & Hdisj & _).
      apply (Hdisj S Hpl1), list_elem_of_here. }
    destruct (linked_live _ _ _ p Hl) as [cp Hcp].
    { apply elem_of_app. left. exact Hpl1. }
    eapply twp_update; [exact Hcp|]. twp_step.
    eapply twp_deref; [simpl; rewrite lookup_insert_ne by exact HpS; exact Hc|].
    destruct (next c) as [n|] eqn:Hn; [|twp_step; exact I].
    destruct (Hnext n eq_refl) as [cn Hcn].
    assert (Hlive : is_Some (<[p:=set_next (Some n) cp]> (conns w) !! n)).
    { apply (insert_is_Some_same _ _ cp); eauto. }
    destruct Hlive as [cn' Hcn'].
    eapply twp_update; [exact Hcn'|exact I].
  - twp_step. twp_step. eapply twp_deref; [exact Hc|].
    destruct (next c) as [n|] eqn:Hn; [|twp_step; exact I].
    destruct (Hnext n eq_refl) as [cn Hcn].
    eapply twp_update; [exact Hcn|exact I].
Qed.

Lemma dropconn_returns S c w l :
  WInv w l ->
  conns w !! S = Some c ->
  read_cookie c = false ->
  nrequests c = 0 ->
  returns (dropconn S) w.
Proof.
  intros HW Hc Hr Hnr. pose proof HW as ((Hl & Hdom) & _).
  assert (HS : S ∈ l) by (apply Hdom; eauto).
  apply list_elem_of_split in HS as (l1 & l2 & ->).
  unfold dropconn. twp_steps. eapply twp_deref; [exact Hc|].
  twp_step. apply twp_assert; [rewrite Hr; reflexivity|].
  twp_step. apply twp_assert; [rewrite Hnr; reflexivity|].
  twp_step. eapply twp_mono; [eapply detach_returns; eauto|]. simpl.
  intros _ w1 _. twp_steps.
  assert (Htail : forall rc w2,
    twp (if nonzero rc
         then do_call (close_socket (conn_s c));;; free_conn S;;; ret (-1)
         else
          ok <- ask_env;;
          (if negb ok
           then do_call (close_socket (conn_s c));;; free_conn S;;; ret (-1)
           else
            closed <- close_until_done (conn_s c);;
            (if negb closed
             then free_conn S;;; ret (-1)
             else free_conn S;;; ret 0)))
        (fun _ _ => True) w2).
  { intros rc w2. destruct (nonzero rc); twp_steps; [exact I|].
    destruct b; simpl; twp_steps; [|exact I].
    apply twp_close. intros n closed.
    destruct closed; simpl; twp_steps; exact I. }
  destruct (nsock_active w1 =? nsock_active_max w1).
  - eapply twp_mono; [apply accept_start_returns|]. simpl.
    intros rc w2 _. apply Htail.
  - twp_step. apply Htail.
Qed.

Lemma drop_if_idle_returns S c c1 (idle : bool) w w1 l :
  WInv w l ->
  conns w !! S = Some c ->
  next c1 = next c -> prev c1 = prev c ->
  conns w1 = <[S := c1]> (conns w) ->
  dstate_eq w w1 -> fwds w1 = fwds w ->
  (idle = true <-> read_cookie c1 = false /\ nrequests c1 = 0) ->
  returns (if idle then
             rc <- dropconn S ;;
             if nonzero rc then ret (-1) else ret 0
           else ret 0) w1.
Proof.
  intros HW Hc Hnx Hpv Hc1 Hds Hfw Hidle.
  assert (HW1 : WInv w1 l) by (eapply WInv_fields; eauto).
  destruct idle; [|twp_steps; exact I].
  destruct (proj1 Hidle eq_refl) as [Hr0 Hn0].
  twp_steps. eapply twp_mono.
  - eapply (dropconn_returns S c1); eauto.
    rewrite Hc1. apply lookup_insert_eq.
  - simpl. intros rc w' _. destruct (nonzero rc); twp_step; exact I.
Qed.

Lemma readreq_cancel_returns S c w l :
  WInv w l -> conns w !! S = Some c -> returns (readreq_cancel S) w.
Proof.
  intros HW Hc. unfold readreq_cancel. twp_steps.
  eapply twp_update; [exact Hc|]. twp_step.
  eapply twp_deref; [apply lookup_insert_eq|].
  eapply (drop_if_idle_returns S c (set_read_cookie false c) _ w);
    [exact HW|exact Hc|reflexivity|reflexivity|reflexivity|repeat split
    |reflexivity|].
  simpl. rewrite Z.eqb_eq. tauto.
Qed.

Lemma reqdone_returns S c w l :
  WInv w l -> conns w !! S = Some c -> returns (reqdone S) w.
Proof.
  intros HW Hc. unfold reqdone. twp_steps.
  eapply twp_deref; [exact Hc|]. twp_steps.
  eapply twp_deref; [apply lookup_insert_eq|].
  eapply (drop_if_idle_returns S c
            (set_nrequests (size_wrap (nrequests c - 1)) c) _ w);
    [exact HW|exact Hc|reflexivity|reflexivity|reflexivity|repeat split
    |reflexivity|].
  simpl. rewrite andb_true_iff, negb_true_iff, Z.eqb_eq. tauto.
Qed.

Lemma stop_reading_returns fuel : forall w l l0 r,
  WInv w l -> l = l0 ++ r -> (length r <= fuel)%nat ->
  returns (stop_reading fuel (head_or None r)) w.
Proof.
  induction fuel as [|fuel IH]; intros w l l0 r HW -> Hlen.
  - destruct r; [|simpl in Hlen; lia]. simpl. twp_steps. exact I.
  - destruct r as [|a r']; [simpl; twp_steps; exact I|].
    simpl in Hlen. simpl.
    pose proof HW as ((Hl & Hdom) & _). pose proof Hl as (_ & Hseg & Hnd).
    destruct (proj1 (Hdom a)) as [c Hc].
    { apply elem_of_app. right. apply list_elem_of_here. }
    twp_steps. eapply twp_deref; [exact Hc|].
    assert (Hnext : next c = head_or None r').
    { pose proof (dllseg_mid _ _ _ _ _ _ Hseg) as Hmid.
      rewrite links_lookup, Hc in Hmid. simpl in Hmid. congruence. }
    rewrite Hnext.
    assert (Hkeep : returns (stop_reading fuel (head_or None r')) w).
    { apply (IH w (l0 ++ a :: r') (l0 ++ [a]) r'); [exact HW| |lia].
      rewrite <- app_assoc. reflexivity. }
    destruct (read_cookie c) eqn:Hrd; [|exact Hkeep].
    twp_step.
    twp_call ltac:(eapply readreq_cancel_returns; eauto)
             ltac:(eapply readreq_cancel_spec; eauto).
    intros rc w' (_ & _ & _ & _ & Hcase).
    destruct (nonzero rc); [twp_step; exact I|].
    destruct Hcase as [(_ & _ & HW' & _)|(_ & HW' & _)].
    + rewrite remove_addr_mid in HW' by exact Hnd.
      apply (IH w' (l0 ++ r') l0 r'); [exact HW'|reflexivity|lia].
    + apply (IH w' (l0 ++ a :: r') (l0 ++ [a]) r'); [exact HW'| |lia].
      rewrite <- app_assoc. reflexivity.
Qed.

Lemma attach_returns S c w :
  conns w !! S = Some c ->
  (forall n, sock_active w = Some n -> is_Some (conns w !! n)) ->
  returns (attach S) w.
Proof.
  intros Hc Hhead. unfold attach. twp_steps.
  eapply twp_update; [exact Hc|]. twp_step.
  destruct (sock_active w) as [n|] eqn:Hn.
  - destruct (Hhead n eq_refl) as [cn Hcn].
    assert (Hlive : is_Some (<[S:=set_next (Some n) c]> (conns w) !! n)).
    { apply (insert_is_Some_same _ _ c); eauto. }
    destruct Hlive as [cn' Hcn'].
    eapply twp_update; [exact Hcn'|]. twp_step. exact I.
  - twp_steps. exact I.
Qed.

Lemma callback_gotconn_returns i s S w l L :
  WInv w l ->
  sock_listen w !! i = Some L ->
  conns w !! S = None ->
  returns (callback_gotconn i s S) w.
Proof.
  intros HW HL Hfresh. pose proof HW as ((Hl & Hdom) & _).
  unfold callback_gotconn. twp_steps. eapply twp_listener; [exact HL|].
  twp_steps. destruct (s =? -1); [twp_step; exact I|].
  twp_step.
  twp_call ltac:(apply accept_stop_returns) ltac:(apply accept_stop_spec).
  intros _ w2 ((Hsa2 & _ & _ & _ & Hc2 & _) & _). simpl in Hsa2, Hc2.
  twp_steps. destruct b; simpl; [|twp_steps; exact I].
  twp_steps. destruct b; simpl; [|unfold gotconn_unwind; twp_steps; exact I].
  twp_steps. destruct b; simpl; [|unfold gotconn_unwind; twp_steps; exact I].
  twp_steps. destruct b; simpl; [|unfold gotconn_unwind; twp_steps; exact I].
  twp_step.
  twp_call ltac:(eapply (readreq_returns S (SockActive None None s false 0));
                   [apply lookup_insert_eq|reflexivity])
           ltac:(eapply (readreq_spec S (SockActive None None s false 0));
                   [apply lookup_insert_eq|reflexivity]).
  intros rc w4 (b & Hc4 & (_ & Hsa4 & _) & _). simpl in Hsa4.
  destruct (nonzero rc); [unfold gotconn_unwind; twp_steps; exact I|].
  twp_step. eapply twp_mono.
  - eapply (attach_returns S).
    + rewrite Hc4. apply lookup_insert_eq.
    + intros n Hn. rewrite Hsa4, Hsa2 in Hn. rewrite Hc4.
      assert (Hnl : n ∈ l).
      { destruct Hl as (Hhd & _). rewrite Hhd in Hn.
        destruct l; [discriminate|]. simpl in Hn. injection Hn as ->.
        apply list_elem_of_here. }
      destruct (proj1 (Hdom n) Hnl) as [cn Hcn].
      destruct (decide (S = n)) as [->|Hne]; [congruence|].
      rewrite !lookup_insert_ne by exact Hne. rewrite Hc2. eauto.
  - simpl. intros _ w5 _. twp_steps.
    destruct (size_wrap (nsock_active w5 + 1) <? nsock_active_max w5).
    + twp_step. eapply twp_mono; [apply accept_start_returns|].
      simpl. intros rc' w6 _. destruct (nonzero rc'); twp_step; exact I.
    + twp_step. exact I.
Qed.

Lemma callback_gotrequest_returns S P F w l c :
  WInv w l ->
  conns w !! S = Some c ->
  returns (callback_gotrequest S P F) w.
Proof.
  intros HW Hc. unfold callback_gotrequest. twp_steps.
  eapply twp_update; [exact Hc|]. destruct P as [p|].
  - unfold mpool_forwardee_malloc. twp_steps.
    destruct (b && _); simpl; [|twp_step; exact I].
    twp_steps. eapply twp_deref; [apply lookup_insert_eq|].
    twp_steps. destruct b0; simpl; [|twp_steps; exact I].
    twp_step. eapply twp_mono.
    + eapply readreq_returns; [apply lookup_insert_eq|reflexivity].
    + simpl. intros rc w' _. destruct (nonzero rc); twp_step; exact I.
  - twp_step. eapply twp_deref; [apply lookup_insert_eq|].
    eapply (drop_if_idle_returns S c (set_read_cookie false c) _ w);
      [exact HW|exact Hc|reflexivity|reflexivity|reflexivity|repeat split
      |reflexivity|].
    simpl. rewrite Z.eqb_eq. tauto.
Qed.

Lemma callback_writresponse_returns F b w l f :
  WInv w l ->
  fwds w !! F = Some f ->
  is_Some (conns w !! conn f) ->
  returns (callback_writresponse F b) w.
Proof.
  intros HW HF [c Hc]. unfold callback_writresponse. twp_steps.
  eapply twp_deref_fwd; [exact HF|]. twp_steps. eapply twp_mono.
  - eapply (reqdone_returns _ c _ l); [|exact Hc].
    eapply WInv_off_heap; [exact HW|repeat split|reflexivity].
  - simpl. intros rc w' _. destruct (nonzero rc); twp_step; exact I.
Qed.

Lemma callback_gotresponse_some_returns F b w f :
  fwds w !! F = Some f ->
  is_Some (conns w !! conn f) ->
  returns (callback_gotresponse F (Some b)) w.
Proof.
  intros HF [c Hc]. unfold callback_gotresponse. twp_steps.
  eapply twp_deref_fwd; [exact HF|]. twp_steps.
  eapply twp_deref; [exact Hc|]. twp_steps.
  destruct b0; simpl; twp_steps; exact I.
Qed.

(** The failure response returns unless it completes the last request of a
    connection whose read has already ended. *)
Lemma callback_gotresponse_none_returns F w l f c :
  WInv w l ->
  fwds w !! F = Some f ->
  conns w !! conn f = Some c ->
  0 <= nrequests c <= SIZE_MAX ->
  read_cookie c = true \/ nrequests c <> 1 ->
  returns (callback_gotresponse F None) w.
Proof.
  intros HW HF Hc Hrange Hbusy. unfold callback_gotresponse. twp_steps.
  eapply twp_deref_fwd; [exact HF|]. twp_steps.
  set (w0 := set_fwds (delete F (fwds w)) w).
  assert (HW0 : WInv w0 l).
  { eapply WInv_off_heap; [exact HW|repeat split|reflexivity]. }
  twp_call ltac:(eapply (reqdone_returns _ c w0 l); [exact HW0|exact Hc])
           ltac:(eapply (reqdone_spec _ c w0 l); [exact HW0|exact Hc]).
  intros rc w1 (_ & _ & _ & _ & Hcase).
  destruct (nonzero rc); [twp_step; exact I|].
  destruct Hcase as [(Hrd & Hnr & _)|(_ & HW1 & Hv1)].
  { exfalso. destruct Hbusy as [Hb|Hb]; [congruence|]. apply Hb.
    unfold size_wrap in Hnr. unfold SIZE_MAX in Hrange.
    destruct (decide (nrequests c = 0)) as [H0|H0].
    - rewrite H0 in Hnr. vm_compute in Hnr. discriminate.
    - rewrite Z.mod_small in Hnr by lia. lia. }
  assert (Hlive1 : is_Some (conns w1 !! conn f)).
  { apply is_Some_view. rewrite Hv1, lookup_insert_eq. eauto. }
  destruct Hlive1 as [c1 Hc1].
  twp_step. eapply twp_deref; [exact Hc1|]. twp_step.
  twp_call ltac:(apply accept_stop_returns) ltac:(apply accept_stop_spec).
  intros _ w2 (Hrest & Hnone & _).
  assert (HW2 : WInv w2 l).
  { eapply WInv_listeners; [exact HW1|exact Hrest|].
    intros Hany. exfalso. exact (not_any_armed _ Hnone Hany). }
  pose proof Hrest as (_ & _ & _ & _ & Hc2 & _).
  twp_step. eapply twp_deref; [rewrite Hc2; exact Hc1|]. twp_steps.
  set (w3 := set_failed true w2).
  assert (HW3 : WInv w3 l) by exact HW2.
  assert (HS : conn f ∈ l).
  { destruct HW2 as ((_ & Hdom) & _). apply Hdom. rewrite Hc2. eauto. }
  apply list_elem_of_split in HS as (l0 & r' & ->).
  change (Some (conn f)) with (head_or None (conn f :: r')).
  eapply (stop_reading_returns _ w3 _ l0); [exact HW3|reflexivity|].
  destruct HW3 as (Hcl & _). rewrite (conn_list_size _ _ Hcl).
  rewrite length_app. lia.
Qed.

(** X16.  From a state of a running dispatcher every enabled callback
    returns: no assertion fails, no freed record is read and the walk along
    [next] ends within its bound.  The one exception is a failure response
    that completes the last request of a connection whose read has already
    ended. *)
Theorem callbacks_return (w : world) (e : event) :
  running w ->
  enabled w e = true ->
  (forall F f c,
     cb e = gotresponse F None ->
     fwds w !! F = Some f -> conns w !! conn f = Some c ->
     read_cookie c = true \/ nrequests c <> 1) ->
  exists rc w' o, step w e = Ok rc w' o.
Proof.
  intros Hr Hen Hsafe.
  destruct (reachable_WInv w (running_reachable w Hr)) as [l HW].
  pose proof (running_SInv w Hr) as [(Hacct & Hlive & Hsize) _].
  assert (Hret : returns (run_callback (cb e)) w).
  { unfold enabled in Hen.
    destruct (cb e) as [i s Sa|Sa P F|F buf|F b]; simpl.
    - destruct (sock_listen w !! i) as [L|] eqn:HL; [|discriminate].
      apply andb_true_iff in Hen as [_ Hfree].
      destruct (conns w !! Sa) eqn:Hc; [discriminate|].
      eapply callback_gotconn_returns; eauto.
    - destruct (conns w !! Sa) as [c|] eqn:Hc; [|discriminate].
      eapply callback_gotrequest_returns; eauto.
    - destruct (fwds w !! F) as [f|] eqn:HF; [|discriminate].
      destruct buf.
      + eapply callback_gotresponse_some_returns; eauto.
      + destruct (Hlive F f HF) as [c Hc].
        assert (Hnr : nrequests c = owed_in (conn f) (fwds w)).
        { apply (Hacct (conn f) (read_cookie c)).
          rewrite view_lookup, Hc. reflexivity. }
        pose proof (owed_le_size (conn f) (fwds w)) as [Hge Hle].
        eapply callback_gotresponse_none_returns; eauto. lia.
    - destruct (fwds w !! F) as [f|] eqn:HF; [|discriminate].
      eapply callback_writresponse_returns; eauto. }
  unfold step. specialize (Hret (answers e)).
  destruct (run_callback (cb e) w (answers e)) as [rc w' o| | |];
    [eauto|contradiction..].
Qed.

(** ** Concrete runs *)

Lemma run_running es : forall w w', running w -> run w es = Some w' -> running w'.
Proof.
  induction es as [|e es IH]; intros w w' Hr; simpl.
  - intros [= <-]. exact Hr.
  - destruct (enabled w e) eqn:Hen; [|discriminate].
    destruct (step w e) as [rc w1 o| | |] eqn:Hstep; try discriminate.
    destruct rc; try discriminate.
    apply IH. eapply running_step; eauto.
Qed.

Lemma after_init_running socks maxconn es w :
  0 <= maxconn <= SIZE_MAX ->
  after_init socks maxconn es = Some w -> running w.
Proof.
  intros Hmax. unfold after_init.
  destruct (dispatch_init socks maxconn []) as [w0|] eqn:E; [|discriminate].
  apply run_running. eapply running_init; eauto.
Qed.

(** Closed facts about concrete runs are settled by evaluation. *)
Ltac conj_compute :=
  repeat match goal with |- _ /\ _ => split end; vm_compute; reflexivity.

Lemma drained_eq : after_init [3] 1 one_failed_request = Some drained.
Proof. vm_compute. reflexivity. Qed.

Lemma serving_eq : after_init [3] 4 two_clients_one_request = Some serving.
Proof. vm_compute. reflexivity. Qed.

Lemma one_client_eq :
  after_init [3] 4 [quiet (gotconn 0 7 100%nat)] = Some one_client.
Proof. vm_compute. reflexivity. Qed.

Lemma drained_running : running drained.
Proof.
  eapply (after_init_running [3] 1); [|exact drained_eq]. unfold SIZE_MAX. lia.
Qed.

Lemma serving_running : running serving.
Proof.
  eapply (after_init_running [3] 4); [|exact serving_eq]. unfold SIZE_MAX. lia.
Qed.

Lemma draining_running : running draining.
Proof.
  eapply (after_init_running [3] 2 full_house_failure).
  - unfold SIZE_MAX. lia.
  - vm_compute. reflexivity.
Qed.

Lemma one_client_running : running one_client.
Proof.
  eapply (after_init_running [3] 4); [|exact one_client_eq].
  unfold SIZE_MAX. lia.
Qed.

(** With [maxconn = 0], [dispatch_init] arms the accepts although
    [nsock_active < nsock_active_max] is false. *)
Lemma accept_armed_at_zero_cap :
  after_init [3] 0 [] = Some zero_cap_start /\
  failed zero_cap_start = false /\
  nsock_active zero_cap_start = 0 /\ nsock_active_max zero_cap_start = 0 /\
  map accept_cookie (sock_listen zero_cap_start) = [true].
Proof. conj_compute. Qed.

(** A connection that the cancel loop of [callback_gotresponse] did not
    reach goes on forwarding requests after [failed] is set. *)
Lemma unstopped_connection_forwards :
  failed half_stopped = true /\
  bookkeeping 101%nat half_stopped = Some (true, 0) /\
  run half_stopped [quiet (gotrequest 101%nat (Some []) 202%nat)]
  = Some forwarded_late /\
  failed forwarded_late = true /\
  bookkeeping 101%nat forwarded_late = Some (true, 1) /\
  fwds forwarded_late !! 202%nat = Some (Forwardee 101%nat [] InQueue).
Proof. conj_compute. Qed.

(** The failure path of [callback_gotresponse] reads freed memory when the
    failed request was the last thing keeping its connection: [reqdone]
    drops the connection and the callback goes on to read [S->dstate] and
    [S->next]. *)
Lemma failure_response_reads_freed_connection :
  running half_closed /\
  bookkeeping 100%nat half_closed = Some (false, 1) /\
  enabled half_closed older_request_fails = true /\
  step half_closed older_request_fails = Undefined.
Proof.
  split.
  - eapply (after_init_running [3] 4 request_then_eof).
    + unfold SIZE_MAX. lia.
    + vm_compute. reflexivity.
  - conj_compute.
Qed.

(** ** Consequences of the invariants *)

(** X17.  Admission bound for a positive limit: never more than [maxconn]
    connections, whatever the callbacks return. *)
Lemma admission_bound w :
  reachable w -> 1 <= nsock_active_max w ->
  0 <= nsock_active w <= nsock_active_max w.
Proof.
  intros Hr Hpos. destruct (reachable_WInv w Hr) as (l & _ & Hn & (_ & Hle & _)).
  unfold cap in Hle. lia.
Qed.

(** X18.  Before the target fails, and for a positive limit, accepts are
    armed on every listener exactly when there is room. *)
Lemma accepts_armed_before_failure w L :
  running w -> 1 <= nsock_active_max w -> failed w = false ->
  L ∈ sock_listen w ->
  (accept_cookie L = true <-> nsock_active w < nsock_active_max w).
Proof.
  intros Hr Hpos Hnf HL.
  destruct (reachable_WInv w (running_reachable w Hr))
    as (l & _ & _ & (_ & _ & Harm)).
  destruct (running_SInv w Hr) as [_ Hopen]. split.
  - intros Harmed. unfold cap in Harm.
    assert (Hany : any_armed w) by (apply Exists_exists; eauto).
    specialize (Harm Hany). lia.
  - intros Hlt. specialize (Hopen Hnf Hlt). unfold all_armed in Hopen.
    rewrite Forall_forall in Hopen. auto.
Qed.

Lemma dispatch_alive_false w :
  0 <= nsock_active w -> dispatch_alive w = false ->
  failed w = true /\ nsock_active w = 0.
Proof.
  unfold dispatch_alive. intros Hn H.
  apply orb_false_iff in H as [Hf Hz].
  apply negb_false_iff in Hf. apply Z.ltb_ge in Hz. split; [exact Hf|lia].
Qed.


(** * The dispatcher, function by function *)

(** ** Liberal preconditions *)

(** The rules of [wlp] follow those of [wp]; an assertion may be assumed to
    hold in what follows it. *)
Lemma wlp_ret {A} (a : A) Q w : Q a w -> wlp (ret a) Q w.
Proof. intros H o. exact H. Qed.

Lemma wlp_bind {A B} (m : M A) (f : A -> M B) Q w :
  wlp m (fun a w' => wlp (f a) Q w') w -> wlp (bind m f) Q w.
Proof.
  intros H o. specialize (H o). unfold bind.
  destruct (m w o) as [a w' o'| | |]; auto. apply H.
Qed.

Lemma wlp_mono {A} (m : M A) (Q Q' : A -> world -> Prop) w :
  wlp m Q w -> (forall a w', Q a w' -> Q' a w') -> wlp m Q' w.
Proof.
  intros H HQ o. specialize (H o). destruct (m w o); auto.
Qed.

Lemma wlp_and {A} (m : M A) (Q Q' : A -> world -> Prop) w :
  wlp m Q w -> wlp m Q' w -> wlp m (fun a w' => Q a w' /\ Q' a w') w.
Proof.
  intros H H' o. specialize (H o). specialize (H' o).
  destruct (m w o); auto.
Qed.

Lemma wp_wlp {A} (m : M A) (Q : A -> world -> Prop) w : wp m Q w -> wlp m Q w.
Proof.
  intros H o. specialize (H o). destruct (m w o); auto.
Qed.

Lemma wlp_run {A} (m : M A) Q w o a w' o' :
  wlp m Q w -> m w o = Ok a w' o' -> Q a w'.
Proof.
  intros H E. specialize (H o). rewrite E in H. exact H.
Qed.

Lemma wlp_get Q w : Q w w -> wlp get Q w.
Proof. intros H o. exact H. Qed.

Lemma wlp_modify f Q w : Q tt (f w) -> wlp (modify f) Q w.
Proof. intros H o. exact H. Qed.

Lemma wlp_ask Q w : (forall b, Q b w) -> wlp ask_env Q w.
Proof. intros H o. unfold ask_env. destruct o; apply H. Qed.

Lemma wlp_assert b Q w : (b = true -> Q tt w) -> wlp (assert b) Q w.
Proof. intros H o. unfold assert. destruct b; auto. Qed.

Lemma wlp_deref S Q w :
  (forall c, conns w !! S = Some c -> Q c w) -> wlp (deref S) Q w.
Proof.
  intros H o. unfold deref. destruct (conns w !! S) eqn:E; auto.
Qed.

Lemma wlp_deref_fwd F Q w :
  (forall f, fwds w !! F = Some f -> Q f w) -> wlp (deref_fwd F) Q w.
Proof.
  intros H o. unfold deref_fwd. destruct (fwds w !! F) eqn:E; auto.
Qed.

Lemma wlp_listener i Q w :
  (forall L, sock_listen w !! i = Some L -> Q L w) -> wlp (listener i) Q w.
Proof.
  intros H o. unfold listener. destruct (sock_listen w !! i) eqn:E; auto.
Qed.

Lemma wlp_update S f Q w :
  (forall c, conns w !! S = Some c ->
             Q tt (set_conns (<[S := f c]> (conns w)) w)) ->
  wlp (update S f) Q w.
Proof.
  intros H. unfold update. apply wlp_bind, wlp_deref. intros c Hc.
  apply wlp_modify. auto.
Qed.

Lemma wlp_intro {A} (m : M A) (Q : A -> world -> Prop) w :
  (forall o a w' o', m w o = Ok a w' o' -> Q a w') -> wlp m Q w.
Proof.
  intros H o. destruct (m w o) as [a w' o'| | |] eqn:E; eauto.
Qed.

Lemma wp_wlp_and {A} (m : M A) (Q Q' : A -> world -> Prop) w :
  wp m Q w -> wlp m Q' w -> wp m (fun a w' => Q a w' /\ Q' a w') w.
Proof.
  intros H H' o. specialize (H o). specialize (H' o).
  destruct (m w o); auto.
Qed.

Lemma wlp_dangling {B} S (k : sock_active_t -> M B) (Q : B -> world -> Prop) w :
  conns w !! S = None -> wlp (c <- deref S ;; k c) Q w.
Proof.
  intros Hc o. unfold bind, deref. rewrite Hc. exact I.
Qed.

Ltac wlp_step :=
  lazymatch goal with
  | |- wlp (bind _ _) _ _ => apply wlp_bind
  | |- wlp (ret _) _ _ => apply wlp_ret
  | |- wlp get _ _ => apply wlp_get
  | |- wlp (modify _) _ _ => apply wlp_modify
  | |- wlp (do_call _) _ _ => apply wlp_modify
  | |- wlp (store _ _) _ _ => apply wlp_modify
  | |- wlp (store_fwd _ _) _ _ => apply wlp_modify
  | |- wlp (free_conn _) _ _ => apply wlp_modify
  | |- wlp (mpool_forwardee_free _) _ _ => apply wlp_modify
  | |- wlp (set_listener _ _) _ _ => apply wlp_modify
  | |- wlp ask_env _ _ => apply wlp_ask; intros ?
  | |- wlp (assert _) _ _ => apply wlp_assert; intros ?
  | |- wlp (deref _) _ _ => apply wlp_deref; intros ? ?
  | |- wlp (deref_fwd _) _ _ => apply wlp_deref_fwd; intros ? ?
  | |- wlp (listener _) _ _ => apply wlp_listener; intros ? ?
  | |- wlp (update _ _) _ _ => apply wlp_update; intros ? ?
  end.

Ltac wlp_steps := repeat wlp_step.

Lemma wlp_close s (Q : bool -> world -> Prop) w :
  (forall n closed,
     Q closed (add_calls (replicate (Datatypes.S n) (close_socket s)) w)) ->
  wlp (close_until_done s) Q w.
Proof. intros H. apply wp_wlp, wp_close, H. Qed.

(** ** The listener loops, exactly *)

Lemma insert_middle (pre : list sock_listen_t) L L' rest :
  <[length pre := L']> (pre ++ L :: rest) = pre ++ L' :: rest.
Proof.
  rewrite insert_app_r_alt by lia. rewrite Nat.sub_diag. reflexivity.
Qed.

(** The loop of [accept_stop] from index [length pre] on: the listeners
    already passed are [pre], those still to visit are [rest]. *)
Lemma accept_stop_loop_exact rest : forall pre w o,
  sock_listen w = pre ++ rest ->
  accept_stop_loop (length rest) (length pre) w o
  = Ok tt (set_sock_listen (pre ++ (set_accept_cookie false <$> rest))
             (add_calls (network_accept_cancel
                           <$> armed_from (length pre) rest) w)) o.
Proof.
  induction rest as [|L rest IH]; intros pre w o Hsl.
  - rewrite app_nil_r in Hsl. simpl. unfold ret. f_equal.
    destruct w. unfold set_sock_listen, add_calls. simpl in *.
    rewrite !app_nil_r. congruence.
  - simpl. unfold bind at 1. unfold listener.
    rewrite Hsl, list_lookup_middle by reflexivity.
    unfold bind at 1.
    destruct (accept_cookie L) eqn:E.
    + unfold bind at 1, do_call, modify. unfold set_listener, modify. simpl.
      rewrite Hsl, insert_middle.
      specialize (IH (pre ++ [set_accept_cookie false L])).
      rewrite length_app in IH. simpl in IH.
      rewrite Nat.add_1_r in IH. rewrite IH.
      2:{ simpl. rewrite <- app_assoc. reflexivity. }
      f_equal. unfold set_sock_listen, add_calls. simpl.
      rewrite <- !app_assoc. simpl. reflexivity.
    + unfold ret at 1.
      specialize (IH (pre ++ [L])).
      rewrite length_app in IH. simpl in IH.
      rewrite Nat.add_1_r in IH. rewrite IH.
      2:{ rewrite Hsl, <- app_assoc. reflexivity. }
      f_equal. unfold set_sock_listen, add_calls. simpl.
      rewrite <- !app_assoc. simpl. f_equal.
      f_equal. f_equal. destruct L as [s b]. simpl in E. subst b. reflexivity.
Qed.

Lemma accept_stop_exact w o :
  accept_stop w o
  = Ok tt (set_sock_listen (set_accept_cookie false <$> sock_listen w)
             (add_calls (network_accept_cancel
                           <$> armed_from 0 (sock_listen w)) w)) o.
Proof.
  unfold accept_stop, bind, get.
  apply (accept_stop_loop_exact (sock_listen w) [] w o). reflexivity.
Qed.

(** The first loop of [accept_start] looks for an accept in progress and
    changes nothing. *)
Lemma accept_start_busy_exact rest : forall pre w o,
  sock_listen w = pre ++ rest ->
  accept_start_busy (length rest) (length pre) w o
  = Ok (existsb accept_cookie rest) w o.
Proof.
  induction rest as [|L rest IH]; intros pre w o Hsl; [reflexivity|].
  simpl. unfold bind, listener.
  rewrite Hsl, list_lookup_middle by reflexivity.
  destruct (accept_cookie L); [reflexivity|]. simpl.
  specialize (IH (pre ++ [L]) w o).
  rewrite length_app, Nat.add_1_r in IH. unfold bind, listener in IH.
  apply IH. rewrite Hsl, <- app_assoc. reflexivity.
Qed.

Lemma all_succeed_nil n : all_succeed n [] = true.
Proof. destruct n; reflexivity. Qed.

Lemma all_succeed_nil' o : all_succeed 0 o = true.
Proof. reflexivity. Qed.

Lemma all_succeed_cons n b o :
  all_succeed (Datatypes.S n) (b :: o) = b && all_succeed n o.
Proof. reflexivity. Qed.

(** The second loop of [accept_start]: it runs to the end, arming every
    listener, exactly when every [network_accept] succeeds. *)
Lemma accept_start_arm_exact rest : forall pre w o,
  sock_listen w = pre ++ rest ->
  if all_succeed (length rest) o
  then accept_start_arm (length rest) (length pre) w o
       = Ok true
           (set_sock_listen (pre ++ (set_accept_cookie true <$> rest))
              (add_calls (network_accept
                            <$> seq (length pre) (length rest)) w))
           (drop (length rest) o)
  else exists w' o',
       accept_start_arm (length rest) (length pre) w o = Ok false w' o'.
Proof.
  induction rest as [|L rest IH]; intros pre w o Hsl.
  - rewrite app_nil_r in Hsl. simpl. unfold all_succeed. simpl.
    rewrite drop_0. unfold ret. f_equal.
    destruct w. unfold set_sock_listen, add_calls. simpl in *.
    rewrite !app_nil_r. congruence.
  - cbn [length].
    assert (Hstep : forall ok o1,
      ask_env (add_call (network_accept (length pre)) w) o
      = Ok ok (add_call (network_accept (length pre)) w) o1 ->
      accept_start_arm (Datatypes.S (length rest)) (length pre) w o
      = if ok
        then accept_start_arm (length rest) (Datatypes.S (length pre))
               (set_sock_listen (pre ++ set_accept_cookie true L :: rest)
                  (add_call (network_accept (length pre)) w)) o1
        else Ok false
               (set_sock_listen (pre ++ set_accept_cookie false L :: rest)
                  (add_call (network_accept (length pre)) w)) o1).
    { intros ok o1 Hask. simpl. unfold bind at 1. unfold listener.
      rewrite Hsl, list_lookup_middle by reflexivity.
      unfold bind at 1, do_call, modify. unfold bind at 1. rewrite Hask.
      unfold bind at 1, set_listener, modify. simpl.
      rewrite Hsl, insert_middle. destruct ok; reflexivity. }
    specialize (IH (pre ++ [set_accept_cookie true L])).
    rewrite length_app, Nat.add_1_r in IH.
    destruct o as [|b o1].
    + rewrite all_succeed_nil. rewrite (Hstep true []) by reflexivity.
      specialize (IH (set_sock_listen (pre ++ set_accept_cookie true L :: rest)
                        (add_call (network_accept (length pre)) w)) []).
      rewrite all_succeed_nil in IH. rewrite IH.
      2:{ simpl. rewrite <- app_assoc. reflexivity. }
      rewrite !drop_nil. f_equal.
      unfold set_sock_listen, add_calls, add_call. simpl.
      rewrite <- !app_assoc. reflexivity.
    + rewrite all_succeed_cons. rewrite (Hstep b o1) by reflexivity.
      destruct b; simpl.
      * specialize (IH (set_sock_listen
                          (pre ++ set_accept_cookie true L :: rest)
                          (add_call (network_accept (length pre)) w)) o1).
        destruct (all_succeed (length rest) o1).
        -- rewrite IH. 2:{ simpl. rewrite <- app_assoc. reflexivity. }
           f_equal. unfold set_sock_listen, add_calls, add_call. simpl.
           rewrite <- !app_assoc. reflexivity.
        -- apply IH. simpl. rewrite <- app_assoc. reflexivity.
      * eauto.
Qed.

(** The second loop of [accept_start] when some [network_accept] fails:
    the listeners before the failing one have been armed, the failing one
    and those behind it have not. *)
Lemma accept_start_arm_fails rest : forall pre w o,
  sock_listen w = pre ++ rest ->
  all_succeed (length rest) o = false ->
  exists k L,
    rest !! k = Some L /\
    all_succeed k o = true /\ o !! k = Some false /\
    accept_start_arm (length rest) (length pre) w o
    = Ok false
        (set_sock_listen
           (pre ++ (set_accept_cookie true <$> take k rest)
                ++ set_accept_cookie false L :: drop (Datatypes.S k) rest)
           (add_calls (network_accept
                         <$> seq (length pre) (Datatypes.S k)) w))
        (drop (Datatypes.S k) o).
Proof.
  induction rest as [|L rest IH]; intros pre w o Hsl Hall.
  - simpl in Hall. rewrite all_succeed_nil' in Hall. discriminate.
  - cbn [length] in *.
    destruct o as [|b o1]; [rewrite all_succeed_nil in Hall; discriminate|].
    rewrite all_succeed_cons in Hall.
    assert (Hstep :
      accept_start_arm (Datatypes.S (length rest)) (length pre) w (b :: o1)
      = if b
        then accept_start_arm (length rest) (Datatypes.S (length pre))
               (set_sock_listen (pre ++ set_accept_cookie true L :: rest)
                  (add_call (network_accept (length pre)) w)) o1
        else Ok false
               (set_sock_listen (pre ++ set_accept_cookie false L :: rest)
                  (add_call (network_accept (length pre)) w)) o1).
    { simpl. unfold bind at 1. unfold listener.
      rewrite Hsl, list_lookup_middle by reflexivity.
      unfold bind at 1, do_call, modify. unfold bind at 1.
      unfold ask_env at 1.
      unfold bind at 1, set_listener, modify. simpl.
      rewrite Hsl, insert_middle. destruct b; reflexivity. }
    rewrite Hstep. destruct b; simpl in Hall.
    + specialize (IH (pre ++ [set_accept_cookie true L])
                    (set_sock_listen (pre ++ set_accept_cookie true L :: rest)
                       (add_call (network_accept (length pre)) w)) o1).
      rewrite length_app, Nat.add_1_r in IH.
      destruct IH as (k & L' & HL' & Hk & Hfalse & E);
        [simpl; rewrite <- app_assoc; reflexivity|exact Hall|].
      exists (Datatypes.S k), L'. split; [exact HL'|].
      split; [rewrite all_succeed_cons; exact Hk|]. split; [exact Hfalse|].
      rewrite E. f_equal.
      unfold set_sock_listen, add_calls, add_call. simpl.
      rewrite <- !app_assoc. reflexivity.
    + exists 0%nat, L. split; [reflexivity|]. split; [reflexivity|].
      split; [reflexivity|]. simpl. rewrite drop_0. f_equal.
Qed.

Lemma armed_from_armed i (A B : list sock_listen_t) :
  armed_from i ((set_accept_cookie true <$> A) ++ B)
  = seq i (length A) ++ armed_from (i + length A) B.
Proof.
  revert i. induction A as [|L A IH]; intros i; simpl.
  - rewrite Nat.add_0_r. reflexivity.
  - rewrite IH. do 3 f_equal. lia.
Qed.

Lemma armed_from_disarmed i (Ls : list sock_listen_t) :
  Forall (fun L => accept_cookie L = false) Ls -> armed_from i Ls = [].
Proof.
  intros H. revert i. induction H as [|L Ls HL _ IH]; intros i; simpl;
    [reflexivity|]. rewrite HL. apply IH.
Qed.

Lemma is_accept_call_cancels (l : list nat) :
  Forall is_accept_call (network_accept_cancel <$> l).
Proof. induction l; constructor; simpl; auto. Qed.

Lemma is_accept_call_accepts (l : list nat) :
  Forall is_accept_call (network_accept <$> l).
Proof. induction l; constructor; simpl; auto. Qed.

Lemma listeners_only_refl w : listeners_only w w.
Proof.
  split; [apply rest_eq_refl|]. split; [reflexivity|].
  exists []. rewrite app_nil_r. auto.
Qed.

Lemma listeners_only_trans w1 w2 w3 :
  listeners_only w1 w2 -> listeners_only w2 w3 -> listeners_only w1 w3.
Proof.
  intros (Hr & Hs & cs & Hc & Hf) (Hr' & Hs' & cs' & Hc' & Hf').
  split; [eapply rest_eq_trans; eauto|]. split; [congruence|].
  exists (cs ++ cs'). split.
  - rewrite Hc', Hc, app_assoc. reflexivity.
  - apply Forall_app. auto.
Qed.

Lemma listen_s_set_accept_cookie b (Ls : list sock_listen_t) :
  listen_s <$> (set_accept_cookie b <$> Ls) = listen_s <$> Ls.
Proof. rewrite <- list_fmap_compose. reflexivity. Qed.

Lemma accept_stop_listeners_only w o w' o' :
  accept_stop w o = Ok tt w' o' -> listeners_only w w'.
Proof.
  rewrite accept_stop_exact. intros [= <- _].
  split; [repeat split|]. split; [apply listen_s_set_accept_cookie|].
  eexists. split; [reflexivity|apply is_accept_call_cancels].
Qed.

Lemma listen_s_insert (Ls : list sock_listen_t) i L b :
  Ls !! i = Some L ->
  listen_s <$> <[i := set_accept_cookie b L]> Ls = listen_s <$> Ls.
Proof.
  intros HL. rewrite list_fmap_insert. apply list_insert_id.
  rewrite list_lookup_fmap, HL. reflexivity.
Qed.

Lemma accept_start_arm_listeners_only k : forall i w,
  wlp (accept_start_arm k i) (fun _ w' => listeners_only w w') w.
Proof.
  induction k as [|k IH]; intros i w; simpl.
  - wlp_step. apply listeners_only_refl.
  - wlp_steps. rename H into HL, b into ok.
    assert (Hone : listeners_only w
              (set_sock_listen (<[i:=set_accept_cookie ok L]> (sock_listen w))
                 (add_call (network_accept i) w))).
    { split; [repeat split|]. split; [apply listen_s_insert, HL|].
      exists [network_accept i]. split; [reflexivity|].
      constructor; simpl; auto. }
    destruct ok.
    + eapply wlp_mono; [apply IH|]. simpl. intros _ w' H.
      eapply listeners_only_trans; eauto.
    + wlp_step. exact Hone.
Qed.

Lemma none_armed_existsb (Ls : list sock_listen_t) :
  existsb accept_cookie Ls = false <->
  Forall (fun L => accept_cookie L = false) Ls.
Proof.
  induction Ls as [|L Ls IH]; simpl.
  - split; auto.
  - rewrite orb_false_iff, IH, Forall_cons. tauto.
Qed.

Lemma any_armed_existsb (Ls : list sock_listen_t) :
  existsb accept_cookie Ls = true <->
  Exists (fun L => accept_cookie L = true) Ls.
Proof.
  induction Ls as [|L Ls IH]; simpl.
  - split; [discriminate|]. intros H. inversion H.
  - rewrite orb_true_iff, IH, Exists_cons. tauto.
Qed.

(** Cancelling every accept gives back a list of listeners that had no
    accept in progress. *)
Lemma disarm_disarmed (Ls Ls' : list sock_listen_t) :
  listen_s <$> Ls' = listen_s <$> Ls ->
  Forall (fun L => accept_cookie L = false) Ls ->
  set_accept_cookie false <$> Ls' = Ls.
Proof.
  revert Ls'. induction Ls as [|L Ls IH]; intros [|L' Ls'] Hs Hf;
    try discriminate; [reflexivity|].
  apply Forall_cons in Hf as [HL Hf]. simpl in Hs. injection Hs as Hs1 Hs2.
  simpl. f_equal; [|apply IH; assumption].
  destruct L as [s b]. simpl in *. subst. reflexivity.
Qed.

(** The three ways [accept_start] can go. *)
Lemma accept_start_cases w o rc w' o' :
  accept_start w o = Ok rc w' o' ->
  listeners_only w w' /\
  ((rc = 0 /\ none_armed w /\
    all_succeed (length (sock_listen w)) o = true /\
    o' = drop (length (sock_listen w)) o /\
    sock_listen w' = set_accept_cookie true <$> sock_listen w /\
    calls w' = calls w ++ (network_accept
                             <$> seq 0 (length (sock_listen w))))
   \/
   (rc = -1 /\ any_armed w /\ w' = w /\ o' = o)
   \/
   (rc = -1 /\ none_armed w /\
    all_succeed (length (sock_listen w)) o = false /\
    sock_listen w' = sock_listen w /\
    exists k,
      (k < length (sock_listen w))%nat /\
      all_succeed k o = true /\ o !! k = Some false /\
      o' = drop (Datatypes.S k) o /\
      calls w' = calls w ++ (network_accept <$> seq 0 (Datatypes.S k))
                         ++ (network_accept_cancel <$> seq 0 k))).
Proof.
  pose proof (accept_start_busy_exact (sock_listen w) [] w o eq_refl) as Hb.
  simpl in Hb.
  unfold accept_start, get. unfold bind at 1. cbn beta iota.
  unfold bind at 1. rewrite Hb. clear Hb.
  destruct (existsb accept_cookie (sock_listen w)) eqn:Hbusy.
  - intros [= <- <- <-]. split; [apply listeners_only_refl|].
    right. left. split; [reflexivity|]. split; [|auto].
    apply any_armed_existsb. exact Hbusy.
  - apply none_armed_existsb in Hbusy.
    pose proof (accept_start_arm_exact (sock_listen w) [] w o eq_refl) as Harm.
    pose proof (accept_start_arm_listeners_only
                  (length (sock_listen w)) 0%nat w) as Hlo.
    simpl in Harm. unfold bind at 1.
    destruct (all_succeed (length (sock_listen w)) o) eqn:Hall.
    + rewrite Harm. intros [= <- <- <-].
      split.
      * split; [repeat split|]. split; [apply listen_s_set_accept_cookie|].
        eexists. split; [reflexivity|apply is_accept_call_accepts].
      * left. auto 10.
    + destruct Harm as (w1 & o1 & Harm). rewrite Harm.
      pose proof (wlp_run _ _ _ _ _ _ _ Hlo Harm) as Hlo1. simpl in Hlo1.
      unfold bind at 1. rewrite accept_stop_exact. intros [= <- <- <-].
      assert (Hlo2 : listeners_only w1
                (set_sock_listen (set_accept_cookie false <$> sock_listen w1)
                   (add_calls (network_accept_cancel
                                 <$> armed_from 0 (sock_listen w1)) w1))).
      { apply (accept_stop_listeners_only w1 [] _ []).
        apply accept_stop_exact. }
      split; [eapply listeners_only_trans; eauto|].
      right. right. split; [reflexivity|]. split; [exact Hbusy|].
      split; [reflexivity|]. split.
      { simpl. apply disarm_disarmed; [|exact Hbusy]. apply Hlo1. }
      destruct (accept_start_arm_fails (sock_listen w) [] w o eq_refl Hall)
        as (k & L & HL & Hk & Hfalse & Efail).
      simpl in Efail. rewrite Efail in Harm. injection Harm as <- <-.
      exists k. split; [eapply lookup_lt_Some; exact HL|].
      split; [exact Hk|]. split; [exact Hfalse|]. split; [reflexivity|].
      simpl. rewrite <- app_assoc. do 3 f_equal.
      rewrite armed_from_armed. simpl.
      assert (Hd : Forall (fun L => accept_cookie L = false)
                     (drop (Datatypes.S k) (sock_listen w))).
      { apply Forall_drop. exact Hbusy. }
      rewrite (armed_from_disarmed _ _ Hd), app_nil_r.
      rewrite length_take. apply lookup_lt_Some in HL.
      rewrite Nat.min_l by lia. reflexivity.
Qed.

(** [accept_start] when no accept is in progress. *)
Lemma accept_start_from_disarmed w o :
  none_armed w ->
  if all_succeed (length (sock_listen w)) o
  then accept_start w o
       = Ok 0 (set_sock_listen (set_accept_cookie true <$> sock_listen w)
                 (add_calls (network_accept
                               <$> seq 0 (length (sock_listen w))) w))
              (drop (length (sock_listen w)) o)
  else exists w' o', accept_start w o = Ok (-1) w' o' /\
                     sock_listen w' = sock_listen w /\ rest_eq w w'.
Proof.
  intros Hnone.
  pose proof (accept_start_returns w o) as Hret.
  destruct (accept_start w o) as [rc w' o'| | |] eqn:E; try contradiction.
  destruct (accept_start_cases w o rc w' o' E)
    as [(Hrest & _) [(-> & _ & Hall & -> & Hsl & Hcalls)
                    |[(_ & Hany & _)|(-> & _ & Hall & Hsl & _)]]].
  - rewrite Hall. f_equal.
    destruct Hrest as (? & ? & ? & ? & ? & ?).
    destruct w, w'. unfold set_sock_listen, add_calls. simpl in *. congruence.
  - exfalso. exact (not_any_armed w Hnone Hany).
  - rewrite Hall. eauto.
Qed.

(** ** What the callbacks leave alone *)

Lemma inner_refl w : inner w w.
Proof. repeat split. Qed.

Lemma inner_trans w1 w2 w3 : inner w1 w2 -> inner w2 w3 -> inner w1 w3.
Proof.
  intros (?&?&?&?) (?&?&?&?). repeat split; congruence.
Qed.

Lemma listeners_only_inner w w' : listeners_only w w' -> inner w w'.
Proof.
  intros ((_ & _ & ? & ? & _ & ?) & ? & _). repeat split; assumption.
Qed.

Lemma off_list_inner w w' : off_list_eq w w' -> inner w w'.
Proof.
  intros (Hsl & _ & ? & ? & ?). unfold inner. rewrite Hsl.
  repeat split; assumption.
Qed.

Lemma dstate_inner w w' : dstate_eq w w' -> fwds w' = fwds w -> inner w w'.
Proof.
  intros (Hsl & _ & _ & ? & ?) ?. unfold inner. rewrite Hsl.
  repeat split; assumption.
Qed.

Lemma accept_stop_wlp w :
  wlp accept_stop (fun _ w' => listeners_only w w' /\ none_armed w') w.
Proof.
  apply wlp_intro. intros o [] w' o' E. split.
  - eapply accept_stop_listeners_only. exact E.
  - rewrite accept_stop_exact in E. injection E as <- _.
    unfold none_armed. simpl. apply Forall_fmap, Forall_forall.
    intros L _. reflexivity.
Qed.

Lemma accept_start_wlp w :
  wlp accept_start
      (fun rc w' => listeners_only w w' /\
                    ((rc = 0 /\ all_armed w') \/
                     (rc = -1 /\ sock_listen w' = sock_listen w))) w.
Proof.
  apply wlp_intro. intros o rc w' o' E.
  destruct (accept_start_cases w o rc w' o' E)
    as [Hlo [(-> & _ & _ & _ & Hsl & _)
            |[(-> & _ & -> & _)|(-> & _ & _ & Hsl & _)]]];
    (split; [exact Hlo|]); auto.
  left. split; [reflexivity|]. unfold all_armed. rewrite Hsl.
  apply Forall_fmap, Forall_forall. intros L _. reflexivity.
Qed.

(** The list surgery makes no outside call. *)
Lemma detach_relinked S w : wlp (detach S) (fun _ w' => relinked w w') w.
Proof.
  unfold detach. wlp_step. wlp_step. wlp_step.
  destruct (prev c); wlp_steps;
    match goal with |- wlp (match next ?x with _ => _ end) _ _ =>
      destruct (next x) end;
    wlp_steps; repeat split.
Qed.

Lemma attach_relinked S w : wlp (attach S) (fun _ w' => relinked w w') w.
Proof.
  unfold attach. wlp_steps. destruct (sock_active w); wlp_steps;
    repeat split.
Qed.

Lemma readreq_wlp S w :
  wlp (readreq S)
      (fun rc w' => dstate_eq w w' /\ fwds w' = fwds w /\
                    calls w' = calls w ++ [wire_readpacket S] /\
                    (forall a, a <> S -> conns w' !! a = conns w !! a) /\
                    (rc = 0 \/ rc = -1)) w.
Proof.
  unfold readreq. wlp_steps. destruct b; wlp_step; repeat split; auto;
    intros a Ha; simpl; apply lookup_insert_ne; congruence.
Qed.

(** Everything after [accept_start] in [dropconn], with its log. *)
Lemma dropconn_release_wlp S s rc w (Q : Z -> world -> Prop) :
  (forall rc' w' n, conns w' = delete S (conns w) ->
                  dstate_eq w w' -> fwds w' = fwds w ->
                  calls w' = calls w ++ replicate (Datatypes.S n) (close_socket s) ->
                  (rc' = 0 \/ rc' = -1) ->
                  (rc' = 0 -> rc = 0) -> Q rc' w') ->
  wlp (if nonzero rc then do_call (close_socket s) ;;; free_conn S ;;; ret (-1)
       else
         ok <- ask_env ;;
         if negb ok then do_call (close_socket s) ;;; free_conn S ;;; ret (-1)
         else
           closed <- close_until_done s ;;
           if negb closed then free_conn S ;;; ret (-1)
           else free_conn S ;;; ret 0) Q w.
Proof.
  intros HQ. unfold nonzero. destruct (rc =? 0) eqn:E; simpl.
  - apply Z.eqb_eq in E. wlp_steps. destruct b; simpl.
    + wlp_step. apply wlp_close. intros n closed.
      destruct closed; simpl; wlp_steps;
        (apply (HQ _ _ n);
         [reflexivity|repeat split|reflexivity|reflexivity|auto|auto]).
    + wlp_steps.
      apply (HQ _ _ 0%nat);
        [reflexivity|repeat split|reflexivity|reflexivity|auto|auto].
  - wlp_steps.
    apply (HQ _ _ 0%nat);
      [reflexivity|repeat split|reflexivity|reflexivity|auto|].
    discriminate.
Qed.

(** [dropconn], from any state in which [S] is live. *)
Lemma dropconn_wlp S c w :
  conns w !! S = Some c ->
  wlp (dropconn S) (dropped S (conn_s c) w) w.
Proof.
  intros Hc. unfold dropconn. wlp_step. wlp_step.
  rename c0 into c', H into Hc'. rewrite Hc in Hc'. injection Hc' as <-.
  wlp_step. wlp_step. wlp_step. wlp_step. wlp_step.
  eapply wlp_mono; [apply detach_relinked|]. simpl.
  intros _ w1 (Hoff & Hcalls1). pose proof (off_list_inner _ _ Hoff) as Hin1.
  destruct Hoff as (_ & Hn1 & _).
  wlp_step. wlp_step. wlp_step. wlp_step. wlp_step.
  set (w2 := set_nsock_active (size_wrap (nsock_active w1 - 1)) w1).
  assert (Hfinal : forall w3 rc' w' n,
    listeners_only w2 w3 ->
    conns w' = delete S (conns w3) -> dstate_eq w3 w' -> fwds w' = fwds w3 ->
    calls w' = calls w3 ++ replicate (Datatypes.S n) (close_socket (conn_s c)) ->
    (rc' = 0 \/ rc' = -1) ->
    dropped S (conn_s c) w rc' w').
  { intros w3 rc' w' n Hlo Hc4 Hds Hfw Hcalls Hrc.
    pose proof (listeners_only_inner _ _ Hlo) as Hin3.
    destruct Hlo as ((_ & Hn3 & _) & _ & cs & Hcs & Hacc).
    pose proof (dstate_inner _ _ Hds Hfw) as Hin4.
    destruct Hds as (_ & _ & Hn4 & _).
    split; [rewrite Hc4; apply lookup_delete_eq|].
    split.
    { eapply inner_trans; [exact Hin1|].
      eapply inner_trans; [|exact Hin4].
      eapply inner_trans; [|exact Hin3]. repeat split. }
    split; [rewrite Hn4, Hn3; simpl; rewrite Hn1; reflexivity|].
    split; [exact Hrc|].
    exists cs, n. split; [|exact Hacc].
    rewrite Hcalls, Hcs. simpl. rewrite Hcalls1, <- app_assoc. reflexivity. }
  destruct (nsock_active w1 =? nsock_active_max w1).
  - eapply wlp_mono; [apply accept_start_wlp|]. simpl.
    intros rc w3 (Hlo & _).
    apply dropconn_release_wlp. intros rc' w' n H1 H2 H3 H4 H5 H6.
    eapply (Hfinal w3); eauto.
  - wlp_step.
    apply dropconn_release_wlp. intros rc' w' n H1 H2 H3 H4 H5 H6.
    eapply (Hfinal w2); eauto. apply listeners_only_refl.
Qed.

Lemma dropconn_inner S w : wlp (dropconn S) (fun _ w' => inner w w') w.
Proof.
  destruct (conns w !! S) as [c|] eqn:Hc.
  - eapply wlp_mono; [apply (dropconn_wlp S c w Hc)|].
    simpl. intros rc w' (_ & Hin & _). exact Hin.
  - unfold dropconn. apply wlp_dangling. exact Hc.
Qed.

(** Closes a goal [inner w w'] from the facts collected about the
    intermediate states. *)
Ltac inner_tac :=
  repeat match goal with
         | H : inner _ _ |- _ => destruct H as (?&?&?&?)
         | H : relinked _ _ |- _ => destruct H as [H _]
         | H : off_list_eq _ _ |- _ => apply off_list_inner in H
         | H : listeners_only _ _ |- _ => apply listeners_only_inner in H
         end;
  unfold inner; simpl in *; repeat split; congruence.

Lemma drop_tail_inner S w0 w :
  inner w0 w ->
  wlp (rc <- dropconn S ;; if nonzero rc then ret (-1) else ret 0)
      (fun _ w' => inner w0 w') w.
Proof.
  intros Hin. wlp_step. eapply wlp_mono; [apply dropconn_inner|].
  simpl. intros rc w' Hin'. destruct (nonzero rc); wlp_step; inner_tac.
Qed.

Lemma readreq_cancel_inner S w :
  wlp (readreq_cancel S) (fun _ w' => inner w w') w.
Proof.
  unfold readreq_cancel. wlp_steps.
  match goal with |- wlp (if ?b then _ else _) _ _ => destruct b end.
  - apply drop_tail_inner. inner_tac.
  - wlp_step. inner_tac.
Qed.

Lemma reqdone_inner S w : wlp (reqdone S) (fun _ w' => inner w w') w.
Proof.
  unfold reqdone. wlp_steps.
  match goal with |- wlp (if ?b then _ else _) _ _ => destruct b end.
  - apply drop_tail_inner. inner_tac.
  - wlp_step. inner_tac.
Qed.

Lemma stop_reading_inner fuel : forall S w,
  wlp (stop_reading fuel S) (fun _ w' => inner w w') w.
Proof.
  induction fuel as [|fuel IH]; intros [a|] w; simpl;
    try (wlp_step; apply inner_refl).
  - intros o. exact I.
  - wlp_step. wlp_step. destruct (read_cookie c); [|apply IH].
    wlp_step. eapply wlp_mono; [apply readreq_cancel_inner|]. simpl.
    intros rc w' Hin. destruct (nonzero rc); [wlp_step; exact Hin|].
    eapply wlp_mono; [apply IH|]. simpl. intros _ w2 Hin2.
    eapply inner_trans; eauto.
Qed.

Lemma readreq_inner S w0 w :
  inner w0 w -> wlp (readreq S) (fun _ w' => inner w0 w') w.
Proof.
  intros Hin. eapply wlp_mono; [apply readreq_wlp|]. simpl.
  intros rc w' (Hds & Hfw & _). eapply inner_trans; [exact Hin|].
  apply dstate_inner; assumption.
Qed.

Lemma accept_start_inner w0 w :
  inner w0 w -> wlp accept_start (fun _ w' => inner w0 w') w.
Proof.
  intros Hin. eapply wlp_mono; [apply accept_start_wlp|]. simpl.
  intros rc w' (Hlo & _). eapply inner_trans; [exact Hin|].
  apply listeners_only_inner. exact Hlo.
Qed.

(** The four callbacks, from any state. *)
Lemma callback_gotconn_inner i s S w :
  wlp (callback_gotconn i s S) (fun _ w' => inner w w') w.
Proof.
  unfold callback_gotconn. wlp_step. wlp_step. rename H into HL.
  wlp_step. wlp_step.
  set (w1 := set_sock_listen (<[i:=set_accept_cookie false L]> (sock_listen w)) w).
  assert (Hin1 : inner w w1).
  { unfold inner, w1. simpl. rewrite (listen_s_insert _ _ _ _ HL).
    repeat split. }
  destruct (s =? -1); [wlp_step; exact Hin1|].
  wlp_step. eapply wlp_mono; [apply accept_stop_wlp|]. simpl.
  intros _ w2 (Hlo2 & _).
  assert (Hin2 : inner w w2).
  { eapply inner_trans; [exact Hin1|]. apply listeners_only_inner, Hlo2. }
  clear Hlo2 Hin1. clearbody w1.
  unfold gotconn_unwind.
  wlp_step. wlp_step. destruct b; simpl; [|wlp_steps; inner_tac].
  wlp_step. wlp_step. wlp_step. wlp_step.
  destruct b; simpl; [|wlp_steps; inner_tac].
  wlp_step. wlp_step. destruct b; simpl; [|wlp_steps; inner_tac].
  wlp_step. wlp_step. destruct b; simpl; [|wlp_steps; inner_tac].
  wlp_step. eapply wlp_mono.
  { apply (readreq_inner S w). inner_tac. }
  simpl. intros rc w4 Hin4.
  destruct (nonzero rc); [wlp_steps; inner_tac|].
  wlp_step. eapply wlp_mono; [apply attach_relinked|]. simpl.
  intros _ w5 Hrel. wlp_step. wlp_step. wlp_step. wlp_step.
  match goal with |- wlp (if ?b then _ else _) _ _ => destruct b end.
  - wlp_step. eapply wlp_mono.
    { apply (accept_start_inner w). inner_tac. }
    simpl. intros rc7 w7 Hin7. destruct (nonzero rc7); wlp_step; exact Hin7.
  - wlp_step. inner_tac.
Qed.

Lemma inner_outer F w w' : inner w w' -> outer F w w'.
Proof.
  intros (?&?&?&Hfw). split; [assumption|]. split; [assumption|].
  intros F' _. rewrite Hfw. reflexivity.
Qed.

Lemma outer_inner F w1 w2 w3 : outer F w1 w2 -> inner w2 w3 -> outer F w1 w3.
Proof.
  intros (?&?&Hfw) (?&?&?&Hfw'). split; [congruence|]. split; [congruence|].
  intros F' HF'. rewrite Hfw'. auto.
Qed.

Lemma callback_gotrequest_outer S P F w :
  wlp (callback_gotrequest S P F)
      (fun _ w' => outer F w w' /\ failed w' = failed w) w.
Proof.
  unfold callback_gotrequest. wlp_step. wlp_step.
  destruct P as [p|].
  - unfold mpool_forwardee_malloc. wlp_steps.
    match goal with |- wlp (if ?b then _ else _) _ _ => destruct b end.
    { wlp_step. split; [apply inner_outer; inner_tac|reflexivity]. }
    wlp_steps. destruct b0; simpl.
    + wlp_step. eapply wlp_mono; [apply readreq_wlp|]. simpl.
      intros rc w' (Hds & Hfw & _).
      pose proof (dstate_inner _ _ Hds Hfw) as Hin.
      assert (Hout : outer F w w' /\ failed w' = failed w).
      { destruct Hin as (?&?&?&Hfw'). simpl in *.
        split; [split; [assumption|split; [assumption|]]|assumption].
        intros F' HF'. rewrite Hfw'. apply lookup_insert_ne. congruence. }
      destruct (nonzero rc); wlp_step; exact Hout.
    + wlp_steps. split; [|reflexivity].
      split; [reflexivity|]. split; [reflexivity|].
      intros F' HF'. simpl. rewrite lookup_delete_ne by congruence.
      apply lookup_insert_ne. congruence.
  - wlp_steps.
    match goal with |- wlp (if ?b then _ else _) _ _ => destruct b end.
    + eapply wlp_mono.
      { apply (drop_tail_inner S w). inner_tac. }
      simpl. intros rc w' Hin. split; [apply inner_outer, Hin|apply Hin].
    + wlp_step. split; [apply inner_outer; inner_tac|reflexivity].
Qed.

Lemma callback_writresponse_outer F b w :
  wlp (callback_writresponse F b)
      (fun _ w' => outer F w w' /\ failed w' = failed w) w.
Proof.
  unfold callback_writresponse. wlp_steps.
  eapply wlp_mono; [apply reqdone_inner|]. simpl.
  intros rc w' Hin.
  assert (Hout : outer F w w' /\ failed w' = failed w).
  { destruct Hin as (?&?&?&Hfw'). simpl in *.
    split; [split; [assumption|split; [assumption|]]|assumption].
    intros F' HF'. rewrite Hfw'. apply lookup_delete_ne. congruence. }
  destruct (nonzero rc); wlp_step; exact Hout.
Qed.

Lemma callback_gotresponse_outer F buf w :
  wlp (callback_gotresponse F buf)
      (fun rc w' =>
         outer F w w' /\
         (failed w = true -> failed w' = true) /\
         (failed w' <> failed w -> buf = None) /\
         (buf = None -> rc = 0 -> failed w' = true)) w.
Proof.
  unfold callback_gotresponse. wlp_step. wlp_step.
  destruct buf as [b|].
  - wlp_steps. destruct b0; simpl; wlp_steps;
      (split; [|split; [auto|split; [intros Hne; exfalso; apply Hne;
                                      reflexivity|discriminate]]]);
      (split; [reflexivity|]; split; [reflexivity|]);
      intros F' HF'; simpl.
    + apply lookup_insert_ne. congruence.
    + rewrite lookup_delete_ne by congruence.
      apply lookup_insert_ne. congruence.
  - wlp_steps.
    eapply wlp_mono; [apply reqdone_inner|]. simpl.
    intros rc w1 Hin1.
    assert (Hout1 : outer F w w1 /\ failed w1 = failed w).
    { destruct Hin1 as (?&?&?&Hfw'). simpl in *.
      split; [split; [assumption|split; [assumption|]]|assumption].
      intros F' HF'. rewrite Hfw'. apply lookup_delete_ne. congruence. }
    destruct Hout1 as [Hout1 Hf1].
    destruct (nonzero rc) eqn:Hrc.
    { wlp_step. split; [exact Hout1|]. split; [congruence|].
      split; [auto|]. intros _ [=]. }
    wlp_step. wlp_step. wlp_step.
    eapply wlp_mono; [apply accept_stop_wlp|]. simpl.
    intros _ w2 (Hlo2 & _). apply listeners_only_inner in Hlo2.
    wlp_steps.
    eapply wlp_mono; [apply stop_reading_inner|]. simpl.
    intros rc' w' Hin'.
    destruct Hin' as (Hm' & Hs' & Hf' & Hfw'). simpl in *.
    destruct Hout1 as (Hm1 & Hs1 & Hfw1).
    destruct Hlo2 as (Hm2 & Hs2 & Hf2 & Hfw2).
    split; [split; [congruence|split; [congruence|]]|].
    + intros F' HF'. rewrite Hfw', Hfw2. apply Hfw1. exact HF'.
    + split; [intros _; exact Hf'|]. split; auto.
Qed.

(** ** Admission *)

Lemma none_armed_eq w w' :
  sock_listen w' = sock_listen w -> none_armed w -> none_armed w'.
Proof. unfold none_armed. intros ->. auto. Qed.

(** [callback_gotconn] either turns the client away or links it at the
    head of the list. *)
Lemma callback_gotconn_admission i s S w l L :
  WInv w l ->
  sock_listen w !! i = Some L ->
  accept_cookie L = true ->
  conns w !! S = None ->
  wp (callback_gotconn i s S)
     (fun rc w' => (rc = -1 /\ turned_away i s w l w') \/ admitted S w l rc w')
     w.
Proof.
  intros HW HL Harmed Hfresh.
  pose proof HW as ((Hl & Hdom) & Hn & (Hmax & Hle & Harm)).
  assert (Hroom : nsock_active w < cap w).
  { apply Harm. eapply any_armed_lookup; eauto. }
  assert (HSl : S ∉ l).
  { intros HS. apply Hdom in HS as [c Hc]. congruence. }
  unfold callback_gotconn. wp_step. wp_step.
  rename L0 into L', H into HL'. rewrite HL in HL'. injection HL' as <-.
  wp_step. wp_step.
  set (w1 := set_sock_listen (<[i:=set_accept_cookie false L]> (sock_listen w)) w).
  assert (HW1 : WInv w1 l).
  { eapply WInv_listeners; [exact HW|repeat split|auto]. }
  destruct (s =? -1) eqn:Hs.
  { apply Z.eqb_eq in Hs. wp_step. left. split; [reflexivity|].
    split; [exact HW1|]. split; [reflexivity|]. left. eauto. }
  apply Z.eqb_neq in Hs.
  wp_step. eapply wp_mono; [apply accept_stop_spec|]. simpl.
  intros _ w2 (Hrest2 & Hnone2 & _).
  assert (HW2 : WInv w2 l).
  { eapply WInv_listeners; [exact HW1|exact Hrest2|].
    intros Hany. exfalso. exact (not_any_armed _ Hnone2 Hany). }
  pose proof Hrest2 as (Hsa2 & Hn2 & Hmax2 & Hf2 & Hc2 & Hfw2).
  simpl in Hsa2, Hn2, Hmax2, Hf2, Hc2, Hfw2.
  assert (Hfresh2 : conns w2 !! S = None) by (rewrite Hc2; exact Hfresh).
  assert (Hfail : forall w', dstate_eq w2 w' -> conns w' = conns w2 ->
                             (-1 = -1 /\ turned_away i s w l w') \/
                             admitted S w l (-1) w').
  { intros w' Hds Hc. left. split; [reflexivity|].
    split; [eapply WInv_off_heap; eauto|]. split; [congruence|].
    right. split; [exact Hs|].
    destruct Hds as (Hsl & _). eapply none_armed_eq; eauto. }
  wp_step. wp_step. destruct b; simpl.
  2:{ wp_steps. apply Hfail; [repeat split|reflexivity]. }
  set (c0 := SockActive None None s false 0).
  wp_step. wp_step. wp_step. wp_step. destruct b; simpl.
  2:{ unfold gotconn_unwind. wp_steps. apply Hfail; [repeat split|].
      simpl. apply delete_insert_id. exact Hfresh2. }
  wp_step. wp_step. destruct b; simpl.
  2:{ unfold gotconn_unwind. wp_steps. apply Hfail; [repeat split|].
      simpl. apply delete_insert_id. exact Hfresh2. }
  wp_step. wp_step. destruct b; simpl.
  2:{ unfold gotconn_unwind. wp_steps. apply Hfail; [repeat split|].
      simpl. apply delete_insert_id. exact Hfresh2. }
  wp_step. eapply wp_mono.
  { eapply (readreq_spec S c0); [apply lookup_insert_eq|reflexivity]. }
  simpl. intros rc w4 (b & Hc4 & Hds4 & Hfw4 & Hb).
  rewrite insert_insert_eq in Hc4.
  pose proof Hds4 as (Hsl4 & Hsa4 & Hn4 & Hmax4 & Hf4).
  simpl in Hsl4, Hsa4, Hn4, Hmax4, Hf4, Hfw4.
  destruct (nonzero rc) eqn:Hrc.
  { unfold gotconn_unwind. wp_steps. apply Hfail.
    - simpl. repeat split; assumption.
    - simpl. rewrite Hc4. apply delete_insert_id. exact Hfresh2. }
  assert (Hrc0 : rc = 0).
  { unfold nonzero in Hrc. apply negb_false_iff, Z.eqb_eq in Hrc. exact Hrc. }
  rewrite (Hb Hrc0) in Hc4. clear Hb.
  wp_step. eapply wp_mono.
  { eapply (attach_spec S (set_read_cookie true c0) w4 l).
    - rewrite Hsa4, Hsa2, Hc4. eapply linked_frame; [|exact Hl].
      intros a Ha. rewrite !links_lookup, lookup_insert_ne, Hc2; [reflexivity|].
      intros ->. exact (HSl Ha).
    - exact HSl.
    - rewrite Hc4. apply lookup_insert_eq.
    - reflexivity. }
  simpl. intros _ w5 (Hl5 & Hv5 & Hdom5 & (Hsl5 & Hn5 & Hmax5 & Hf5 & Hfw5)).
  wp_step. wp_step. wp_step. wp_step.
  assert (Hn5' : nsock_active w5 = nsock_active w) by congruence.
  assert (Hmax5' : nsock_active_max w5 = nsock_active_max w) by congruence.
  pose proof (cap_le_SIZE_MAX w Hmax) as Hcap.
  assert (Hwrap : size_wrap (nsock_active w5 + 1) = nsock_active w + 1).
  { rewrite Hn5'. apply size_wrap_small. lia. }
  rewrite Hwrap.
  set (w6 := set_nsock_active (nsock_active w + 1) w5).
  assert (Hnone6 : none_armed w6).
  { unfold none_armed. simpl. rewrite Hsl5, Hsl4. exact Hnone2. }
  assert (Hfinal : forall w',
    rest_eq w6 w' ->
    (any_armed w' -> nsock_active w + 1 < nsock_active_max w) ->
    WInv w' (S :: l) /\
    view (conns w') = <[S := (true, 0)]> (view (conns w))).
  { intros w' (Hsa' & Hn' & Hmax' & Hf' & Hc' & Hfw') Hany.
    simpl in Hsa', Hn', Hmax', Hf', Hc', Hfw'.
    assert (Hv' : view (conns w') = <[S := (true, 0)]> (view (conns w))).
    { rewrite Hc', Hv5, Hc4, view_insert, Hc2. reflexivity. }
    split; [|exact Hv'].
    split; [split|split].
    - rewrite Hsa', Hc'. exact Hl5.
    - intros a. rewrite Hc', Hdom5, Hc4, elem_of_cons, Hdom.
      destruct (decide (a = S)) as [->|Hne].
      + rewrite lookup_insert_eq. split; eauto.
      + rewrite lookup_insert_ne, Hc2 by congruence.
        split; [intros [?|?]|]; [congruence|auto|auto].
    - rewrite Hn'. simpl length. lia.
    - unfold adm, cap. rewrite Hn', Hmax', Hmax5'. unfold cap in Hroom.
      split; [exact Hmax|]. split; [lia|]. intros Ha.
      specialize (Hany Ha). lia. }
  rewrite Hmax5'.
  destruct (nsock_active w + 1 <? nsock_active_max w) eqn:Hmore.
  - apply Z.ltb_lt in Hmore.
    wp_step. eapply wp_mono.
    { apply wp_wlp_and; [apply accept_start_spec|apply accept_start_wlp]. }
    simpl. intros rc7 w7 ((Hrest7 & _) & (_ & Hcase)).
    destruct (Hfinal w7 Hrest7 ltac:(auto)) as [HW7 Hv7].
    unfold nonzero.
    destruct Hcase as [(-> & Hall)|(-> & Hsl7)]; simpl; wp_step; right;
      (split; [exact HW7|split; [exact Hv7|]]).
    + left. split; [reflexivity|].
      apply Z.ltb_lt in Hmore. rewrite Hmore. exact Hall.
    + right. split; [reflexivity|]. split; [exact Hmore|].
      eapply none_armed_eq; eauto.
  - apply Z.ltb_ge in Hmore.
    wp_step. right.
    assert (Hno : ~ any_armed w6).
    { apply not_any_armed. exact Hnone6. }
    destruct (Hfinal w6 (rest_eq_refl _) ltac:(intros Ha; contradiction))
      as [HW6 Hv6].
    split; [exact HW6|split; [exact Hv6|]].
    left. split; [reflexivity|].
    apply Z.ltb_ge in Hmore. rewrite Hmore. exact Hnone6.
Qed.

Lemma readreq_live S w :
  wlp (readreq S) (fun _ w' => is_Some (conns w' !! S)) w.
Proof.
  unfold readreq. wlp_steps. destruct b; wlp_step; simpl;
    rewrite lookup_insert_eq; eauto.
Qed.

Lemma attach_live S w :
  wlp (attach S) (fun _ w' => is_Some (conns w' !! S)) w.
Proof.
  unfold attach. wlp_steps. destruct (sock_active w) as [n|]; wlp_steps; simpl.
  - destruct (decide (n = S)) as [->|Hne].
    + rewrite lookup_insert_eq. eauto.
    + rewrite lookup_insert_ne, lookup_insert_eq by exact Hne. eauto.
  - rewrite lookup_insert_eq. eauto.
Qed.

(** Whenever [callback_gotconn] returns without the record [S] being live,
    the last thing it did to the outside world was to close the accepted
    socket. *)
Lemma callback_gotconn_closes i s S w :
  wlp (callback_gotconn i s S)
      (fun _ w' => s <> -1 -> conns w' !! S = None ->
                   exists cs, calls w' = calls w ++ cs ++ [close_socket s]) w.
Proof.
  unfold callback_gotconn. wlp_step. wlp_step. wlp_step. wlp_step.
  destruct (s =? -1) eqn:Hs.
  { apply Z.eqb_eq in Hs. wlp_step. intros Hne. contradiction. }
  wlp_step. eapply wlp_mono; [apply accept_stop_wlp|]. simpl.
  intros _ w2 ((_ & _ & cs2 & Hcs2 & _) & _). simpl in Hcs2.
  unfold gotconn_unwind.
  wlp_step. wlp_step. destruct b; simpl.
  2:{ wlp_steps. intros _ _. exists cs2. simpl. rewrite Hcs2.
      rewrite <- app_assoc. reflexivity. }
  wlp_step. wlp_step. wlp_step. wlp_step. destruct b; simpl.
  2:{ wlp_steps. intros _ _. exists cs2. simpl. rewrite Hcs2.
      rewrite <- app_assoc. reflexivity. }
  wlp_step. wlp_step. destruct b; simpl.
  2:{ wlp_steps. intros _ _. exists cs2. simpl. rewrite Hcs2.
      rewrite <- app_assoc. reflexivity. }
  wlp_step. wlp_step. destruct b; simpl.
  2:{ wlp_steps. intros _ _. exists cs2. simpl. rewrite Hcs2.
      rewrite <- app_assoc. reflexivity. }
  wlp_step. eapply wlp_mono.
  { apply wlp_and; [apply readreq_wlp|apply readreq_live]. }
  simpl. intros rc w4 ((_ & _ & Hcalls4 & _) & Hlive4). simpl in Hcalls4.
  destruct (nonzero rc).
  { wlp_steps. intros _ _. exists (cs2 ++ [wire_readpacket S]). simpl.
    rewrite Hcalls4, Hcs2, <- !app_assoc. reflexivity. }
  wlp_step. eapply wlp_mono; [apply attach_live|]. simpl.
  intros _ w5 Hlive5. wlp_step. wlp_step. wlp_step. wlp_step.
  match goal with |- wlp (if ?b then _ else _) _ _ => destruct b end.
  - wlp_step. eapply wlp_mono; [apply accept_start_wlp|]. simpl.
    intros rc7 w7 (((_ & _ & _ & _ & Hc7 & _) & _) & _). simpl in Hc7.
    assert (Hlive7 : is_Some (conns w7 !! S)) by (rewrite Hc7; exact Hlive5).
    destruct (nonzero rc7); wlp_step; intros _ Hnone;
      rewrite Hnone in Hlive7; destruct Hlive7 as [? [=]].
  - wlp_step. simpl. intros _ Hnone.
    rewrite Hnone in Hlive5. destruct Hlive5 as [? [=]].
Qed.

(** ** End of stream and the last response *)

(** End of stream: the connection is left not reading, and dropped if it
    owes nothing. *)
Lemma callback_gotrequest_eof_settled S F w l c :
  WInv w l ->
  conns w !! S = Some c ->
  wp (callback_gotrequest S None F) (settled S false (nrequests c) w l) w.
Proof.
  intros HW Hc. unfold callback_gotrequest. wp_step. wp_step.
  rename c0 into c0', H into Hc0. rewrite Hc in Hc0. injection Hc0 as <-.
  wp_step. wp_step.
  simpl in H. rewrite lookup_insert_eq in H. injection H as <-.
  eapply wp_mono.
  - eapply (drop_if_idle S c (set_read_cookie false c) _ w);
      [exact HW|exact Hc|reflexivity|reflexivity|reflexivity|repeat split
      |reflexivity|].
    simpl. rewrite Z.eqb_eq. tauto.
  - simpl. auto.
Qed.

Lemma callback_gotrequest_eof_closes S F w c :
  conns w !! S = Some c ->
  nrequests c = 0 ->
  wlp (callback_gotrequest S None F)
      (fun rc w' =>
         (rc = 0 \/ rc = -1) /\
         exists cs n,
           calls w' = calls w ++ cs
                      ++ replicate (Datatypes.S n) (close_socket (conn_s c)) /\
           Forall is_accept_call cs) w.
Proof.
  intros Hc Hn. unfold callback_gotrequest. wlp_step. wlp_step.
  rename c0 into c0', H into Hc0. rewrite Hc in Hc0. injection Hc0 as <-.
  wlp_step. wlp_step.
  simpl in H. rewrite lookup_insert_eq in H. injection H as <-.
  simpl. rewrite Hn. simpl. wlp_step.
  eapply wlp_mono.
  - apply (dropconn_wlp S (set_read_cookie false c)). simpl.
    apply lookup_insert_eq.
  - simpl. intros rc w' (_ & _ & _ & Hrc & Hcalls).
    unfold nonzero. destruct Hrc as [-> | ->]; simpl; wlp_step; auto.
Qed.

(** Write completion: the forwardee is freed, then [reqdone] runs. *)
Lemma callback_writresponse_settled F b w l f c :
  WInv w l ->
  fwds w !! F = Some f ->
  conns w !! conn f = Some c ->
  wp (callback_writresponse F b)
     (fun rc w' =>
        settled (conn f) (read_cookie c) (size_wrap (nrequests c - 1))
                (set_fwds (delete F (fwds w)) w) l rc w') w.
Proof.
  intros HW HF Hc. unfold callback_writresponse. wp_step. wp_step.
  rename f0 into f', H into HF'. rewrite HF in HF'. injection HF' as <-.
  wp_step. wp_step. wp_step.
  eapply wp_mono.
  - eapply (reqdone_spec (conn f) c _ l); [|exact Hc].
    eapply WInv_off_heap; [exact HW|repeat split|reflexivity].
  - simpl. intros rc w' (H1 & H2 & H3 & H4 & H5).
    apply wp_rc. intros rc' Hrc. repeat split; auto.
Qed.

(** [reqdone] returns 0 when it does not have to drop the connection. *)
Lemma reqdone_rc S c w :
  conns w !! S = Some c ->
  ~ (size_wrap (nrequests c - 1) = 0 /\ read_cookie c = false) ->
  wlp (reqdone S) (fun rc _ => rc = 0) w.
Proof.
  intros Hc Hbusy. unfold reqdone. wlp_step. wlp_step.
  rewrite Hc in H. injection H as <-. wlp_step. wlp_step. wlp_step. wlp_step.
  simpl in H. rewrite lookup_insert_eq in H. injection H as <-. simpl.
  destruct ((size_wrap (nrequests c - 1) =? 0) && negb (read_cookie c)) eqn:E.
  - exfalso. apply Hbusy.
    apply andb_true_iff in E as [E1 E2]. apply Z.eqb_eq in E1.
    apply negb_true_iff in E2. auto.
  - wlp_step. reflexivity.
Qed.

Lemma callback_writresponse_rc F b w f c :
  fwds w !! F = Some f ->
  conns w !! conn f = Some c ->
  ~ (size_wrap (nrequests c - 1) = 0 /\ read_cookie c = false) ->
  wlp (callback_writresponse F b) (fun rc _ => rc = 0) w.
Proof.
  intros HF Hc Hbusy. unfold callback_writresponse. wlp_step. wlp_step.
  rename f0 into f', H into HF'. rewrite HF in HF'. injection HF' as <-.
  wlp_step. wlp_step. wlp_step.
  eapply wlp_mono; [apply (reqdone_rc (conn f) c); [exact Hc|exact Hbusy]|].
  simpl. intros rc w' ->. simpl. wlp_step. reflexivity.
Qed.

(** In a state that satisfies the accounting invariant, the connection of
    a live forwardee is live and owes at least that response. *)
Lemma owed_at_least_one w F f :
  Acct w -> fwds w !! F = Some f ->
  exists c, conns w !! conn f = Some c /\
            1 <= nrequests c <= Z.of_nat (size (fwds w)).
Proof.
  intros (Hacct & Hlive & _) HF. destruct (Hlive F f HF) as [c Hc].
  exists c. split; [exact Hc|].
  assert (Hnr : nrequests c = owed_in (conn f) (fwds w)).
  { apply (Hacct (conn f) (read_cookie c)). rewrite view_lookup, Hc.
    reflexivity. }
  pose proof (owed_le_size (conn f) (fwds w)) as [Hge Hle].
  split; [|lia].
  destruct (decide (owed_in (conn f) (fwds w) = 0)) as [H0|H0]; [|lia].
  exfalso. exact (owed_zero _ F f _ H0 HF eq_refl).
Qed.

Lemma WInv_connections w l : WInv w l -> connections w = l.
Proof. intros (Hcl & _). apply connections_conn_list, Hcl. Qed.

Lemma enabled_gotconn w e i s S :
  cb e = gotconn i s S -> enabled w e = true ->
  exists L, sock_listen w !! i = Some L /\ accept_cookie L = true /\
            conns w !! S = None.
Proof.
  unfold enabled. intros ->.
  destruct (sock_listen w !! i) as [L|]; [|discriminate].
  intros H. apply andb_true_iff in H as [Harmed Hfree].
  destruct (conns w !! S); [discriminate|]. eauto.
Qed.

Lemma view_others (h h' : gmap addr sock_active_t) S x a :
  view h' = <[S := x]> (view h) -> a <> S -> view h' !! a = view h !! a.
Proof. intros -> Hne. apply lookup_insert_ne. congruence. Qed.

Lemma view_others_delete (h h' : gmap addr sock_active_t) S a :
  view h' = delete S (view h) -> a <> S -> view h' !! a = view h !! a.
Proof. intros -> Hne. apply lookup_delete_ne. congruence. Qed.

Lemma gotrequest_eof_half_close S F w o c :
  conns w !! S = Some c ->
  nrequests c <> 0 ->
  callback_gotrequest S None F w o
  = Ok 0 (set_conns (<[S := set_read_cookie false c]> (conns w)) w) o.
Proof.
  intros Hc Hn. apply Z.eqb_neq in Hn.
  unfold callback_gotrequest, update, store, deref, modify, bind, ret.
  rewrite Hc. simpl. rewrite lookup_insert_eq. simpl. rewrite Hn. reflexivity.
Qed.

(** ** A request served *)

(** The three callbacks of one request, when every outside call
    succeeds. *)
Lemma gotrequest_forwards S p F w c :
  conns w !! S = Some c ->
  read_cookie c = true ->
  Z.of_nat (size (fwds w)) < SIZE_MAX ->
  callback_gotrequest S (Some p) F w []
  = Ok 0 (World (sock_listen w) (sock_active w) (nsock_active w)
            (nsock_active_max w) (failed w)
            (<[S := set_nrequests (size_wrap (nrequests c + 1)) c]> (conns w))
            (<[F := Forwardee S p InQueue]> (fwds w))
            (calls w ++ [wire_requestqueue_add F; wire_readpacket S])) [].
Proof.
  intros Hc Hrd Hroom. apply Z.ltb_lt in Hroom.
  unfold callback_gotrequest, mpool_forwardee_malloc, readreq, update, store,
    store_fwd, do_call, deref, assert, modify, bind, ask_env, get, ret.
  rewrite Hc. simpl. rewrite Hroom. simpl. rewrite lookup_insert_eq. simpl.
  rewrite lookup_insert_eq. simpl. rewrite lookup_insert_eq. simpl.
  f_equal. unfold set_conns, add_call, set_fwds. simpl. f_equal.
  - rewrite !insert_insert_eq. f_equal.
    destruct c. simpl in *. subst. reflexivity.
  - rewrite <- app_assoc. reflexivity.
Qed.

Lemma gotresponse_hands_to_writer F b w f :
  fwds w !! F = Some f ->
  is_Some (conns w !! conn f) ->
  callback_gotresponse F (Some b) w []
  = Ok 0 (World (sock_listen w) (sock_active w) (nsock_active w)
            (nsock_active_max w) (failed w) (conns w)
            (<[F := Forwardee (conn f) b InWriter]> (fwds w))
            (calls w ++ [wire_writepacket (conn f) F])) [].
Proof.
  intros HF [c Hc].
  unfold callback_gotresponse, store_fwd, do_call, deref_fwd, deref, modify,
    mpool_forwardee_free, bind, ask_env, ret.
  rewrite HF. simpl. rewrite Hc. reflexivity.
Qed.

Lemma writresponse_finishes F x w f c :
  fwds w !! F = Some f ->
  conns w !! conn f = Some c ->
  read_cookie c = true ->
  callback_writresponse F x w []
  = Ok 0 (World (sock_listen w) (sock_active w) (nsock_active w)
            (nsock_active_max w) (failed w)
            (<[conn f := set_nrequests (size_wrap (nrequests c - 1)) c]>
               (conns w))
            (delete F (fwds w)) (calls w)) [].
Proof.
  intros HF Hc Hrd.
  unfold callback_writresponse, reqdone, mpool_forwardee_free, store,
    deref_fwd, deref, modify, bind, ret.
  rewrite HF. simpl. rewrite Hc. simpl. rewrite lookup_insert_eq. simpl.
  rewrite Hrd, andb_false_r. reflexivity.
Qed.

Lemma size_wrap_round n :
  0 <= n <= SIZE_MAX -> size_wrap (size_wrap (n + 1) - 1) = n.
Proof.
  unfold size_wrap, SIZE_MAX. intros H.
  rewrite Zminus_mod_idemp_l. replace (n + 1 - 1) with n by lia.
  apply Z.mod_small. lia.
Qed.

Lemma run_cons w e es w' o :
  enabled w e = true -> step w e = Ok 0 w' o -> run w (e :: es) = run w' es.
Proof. intros Hen Hstep. simpl. rewrite Hen, Hstep. reflexivity. Qed.

(** ** Draining *)

(** Filters that agree on the elements of a list. *)
Lemma filter_agree (P Q : addr -> Prop) `{!forall x, Decision (P x)}
    `{!forall x, Decision (Q x)} (l : list addr) :
  (forall x, x ∈ l -> P x <-> Q x) -> filter P l = filter Q l.
Proof.
  induction l as [|a l IH]; intros Hpq; [reflexivity|].
  assert (IH' : filter P l = filter Q l).
  { apply IH. intros x Hx. apply Hpq. apply list_elem_of_further, Hx. }
  destruct (decide (P a)) as [Ha|Ha].
  - rewrite !filter_cons_True, IH'; [reflexivity| |exact Ha].
    apply Hpq; [apply list_elem_of_here|exact Ha].
  - rewrite !filter_cons_False, IH'; [reflexivity| |exact Ha].
    intros HQ. apply Ha, Hpq; [apply list_elem_of_here|exact HQ].
Qed.

(** One iteration of the loop, on the bookkeeping: [a] has been dealt
    with, the rest [r] of the list is still to visit. *)
Lemma stopped_step (v v1 vw : gmap addr (bool * Z)) (a : addr) (r : list addr) :
  a ∉ r ->
  (forall x, x <> a -> v1 !! x = v !! x) ->
  v1 !! a = stopped (v !! a) ->
  (forall x, vw !! x = if decide (x ∈ r) then stopped (v1 !! x) else v1 !! x) ->
  forall x, vw !! x = if decide (x ∈ a :: r) then stopped (v !! x) else v !! x.
Proof.
  intros Ha Hv1 Hva Hvw x. rewrite Hvw.
  destruct (decide (x = a)) as [->|Hne].
  - rewrite decide_False by exact Ha.
    rewrite decide_True by apply list_elem_of_here. exact Hva.
  - rewrite (Hv1 x Hne).
    destruct (decide (x ∈ r)) as [Hx|Hx].
    + rewrite decide_True by (apply list_elem_of_further, Hx). reflexivity.
    + rewrite decide_False; [reflexivity|].
      intros Hx'. apply elem_of_cons in Hx' as [?|?]; contradiction.
Qed.

Lemma owes_agree (v v1 : gmap addr (bool * Z)) x :
  v1 !! x = v !! x -> owes v1 x = owes v x.
Proof. unfold owes. intros ->. reflexivity. Qed.

Lemma owes_lookup (v : gmap addr (bool * Z)) a rd nr :
  v !! a = Some (rd, nr) -> owes v a = true <-> nr <> 0.
Proof.
  unfold owes. intros ->. rewrite negb_true_iff. apply Z.eqb_neq.
Qed.

(** The loop of [callback_gotresponse], when it runs to the end: every
    connection it visits is either torn down or left not reading; the
    others are not touched. *)
Lemma stop_reading_stops fuel : forall w l l0 r,
  WInv w l -> l = l0 ++ r -> (length r <= fuel)%nat ->
  (forall a rd nr, a ∈ r -> view (conns w) !! a = Some (rd, nr) ->
                   rd = true \/ nr <> 0) ->
  wp (stop_reading fuel (head_or None r))
     (fun rc w' =>
        rc = 0 ->
        WInv w' (l0 ++ filter (fun x => owes (view (conns w)) x = true) r) /\
        forall x, view (conns w') !! x
                  = if decide (x ∈ r) then stopped (view (conns w) !! x)
                    else view (conns w) !! x) w.
Proof.
  induction fuel as [|fuel IH]; intros w l l0 r HW -> Hlen Hbusy.
  - destruct r; [|simpl in Hlen; lia]. simpl. wp_step. intros _.
    rewrite app_nil_r in *. split; [exact HW|]. intros x.
    try rewrite decide_False by apply not_elem_of_nil. reflexivity.
  - destruct r as [|a r'].
    { simpl. wp_step. intros _.
      rewrite app_nil_r in *. split; [exact HW|]. intros x.
      try rewrite decide_False by apply not_elem_of_nil. reflexivity. }
    simpl in Hlen. simpl. wp_step. wp_step. rename H into Hc.
    pose proof HW as ((Hl & _) & _). pose proof Hl as (_ & Hseg & Hnd).
    assert (Hnext : next c = head_or None r').
    { pose proof (dllseg_mid _ _ _ _ _ _ Hseg) as Hmid.
      rewrite links_lookup, Hc in Hmid. simpl in Hmid. congruence. }
    rewrite Hnext.
    assert (Har : a ∉ r').
    { apply NoDup_app in Hnd as (_ & _ & Hnd).
      apply NoDup_cons in Hnd as [Har _]. exact Har. }
    assert (Hva : view (conns w) !! a = Some (read_cookie c, nrequests c)).
    { rewrite view_lookup, Hc. reflexivity. }
    (* what remains to be done once [a] has been dealt with *)
    assert (Hrest : forall w1 l1 l01,
      WInv w1 l1 -> l1 = l01 ++ r' ->
      l01 ++ filter (fun x => owes (view (conns w)) x = true) r'
      = l0 ++ filter (fun x => owes (view (conns w)) x = true) (a :: r') ->
      (forall x, x <> a -> view (conns w1) !! x = view (conns w) !! x) ->
      view (conns w1) !! a = stopped (view (conns w) !! a) ->
      wp (stop_reading fuel (head_or None r'))
         (fun rc w' =>
            rc = 0 ->
            WInv w' (l0 ++ filter (fun x => owes (view (conns w)) x = true) (a :: r')) /\
            forall x, view (conns w') !! x
                      = if decide (x ∈ a :: r')
                        then stopped (view (conns w) !! x)
                        else view (conns w) !! x) w1).
    { intros w1 l1 l01 HW1 Hl1 Hlist Hv1 Hv1a.
      eapply wp_mono.
      - apply (IH w1 l1 l01 r' HW1 Hl1); [lia|].
        intros x rd nr Hx. rewrite Hv1.
        + apply Hbusy. apply list_elem_of_further, Hx.
        + intros ->. contradiction.
      - simpl. intros rc w' Hpost Hrc.
        destruct (Hpost Hrc) as [HW' Hv']. split.
        + rewrite <- Hlist.
          rewrite (filter_agree (fun x => owes (view (conns w)) x = true)
                     (fun x => owes (view (conns w1)) x = true) r');
            [exact HW'|].
          intros x Hx. rewrite (owes_agree (view (conns w)) (view (conns w1)) x);
            [reflexivity|].
          apply Hv1. intros ->. contradiction.
        + eapply stopped_step; eauto. }
    destruct (read_cookie c) eqn:Hrd.
    + wp_step. eapply wp_mono; [eapply readreq_cancel_spec; eauto|]. simpl.
      intros rc w1 (_ & _ & _ & _ & Hcase).
      destruct (nonzero rc); [wp_step; intros [=]|].
      destruct Hcase as [(_ & Hnr & HW1 & Hv1)|([[=]|Hnr] & HW1 & Hv1)].
      * rewrite remove_addr_mid in HW1 by exact Hnd.
        apply (Hrest w1 (l0 ++ r') l0 HW1 eq_refl).
        -- rewrite filter_cons_False; [reflexivity|].
           rewrite (owes_lookup _ _ _ _ Hva). tauto.
        -- intros x Hx. rewrite Hv1. apply lookup_delete_ne. congruence.
        -- rewrite Hv1, lookup_delete_eq, Hva. simpl. rewrite Hnr. reflexivity.
      * apply (Hrest w1 (l0 ++ a :: r') (l0 ++ [a]) HW1).
        -- rewrite <- app_assoc. reflexivity.
        -- rewrite filter_cons_True by (apply (owes_lookup _ _ _ _ Hva), Hnr).
           rewrite <- app_assoc. reflexivity.
        -- intros x Hx. rewrite Hv1. apply lookup_insert_ne. congruence.
        -- rewrite Hv1, lookup_insert_eq, Hva. simpl.
           apply Z.eqb_neq in Hnr. rewrite Hnr. reflexivity.
    + assert (Hnr : nrequests c <> 0).
      { destruct (Hbusy a false (nrequests c) (list_elem_of_here _ _) Hva)
          as [[=]|H]. exact H. }
      apply (Hrest w (l0 ++ a :: r') (l0 ++ [a]) HW).
      * rewrite <- app_assoc. reflexivity.
      * rewrite filter_cons_True by (apply (owes_lookup _ _ _ _ Hva), Hnr).
        rewrite <- app_assoc. reflexivity.
      * reflexivity.
      * rewrite Hva. simpl. apply Z.eqb_neq in Hnr. rewrite Hnr. reflexivity.
Qed.

(** The failure branch of [callback_gotresponse] as a whole. *)
Lemma callback_gotresponse_none_stops F w l f c :
  WInv w l -> Acct w ->
  fwds w !! F = Some f ->
  conns w !! conn f = Some c ->
  wp (callback_gotresponse F None)
     (fun rc w' =>
        rc = 0 ->
        exists l0 r v1,
          l = l0 ++ conn f :: r /\
          v1 = <[conn f := (read_cookie c, nrequests c - 1)]> (view (conns w)) /\
          WInv w' (l0 ++ filter (fun x => owes v1 x = true) (conn f :: r)) /\
          forall x, view (conns w') !! x
                    = if decide (x ∈ conn f :: r) then stopped (v1 !! x)
                      else v1 !! x) w.
Proof.
  intros HW HA HF Hc.
  destruct (owed_at_least_one w F f HA HF) as (c' & Hc' & Hge & Hle).
  rewrite Hc in Hc'. injection Hc' as <-.
  pose proof HA as (Hacct & _ & Hsize).
  assert (Hwrap : size_wrap (nrequests c - 1) = nrequests c - 1)
    by (apply size_wrap_small; lia).
  unfold callback_gotresponse. wp_step. wp_step.
  rename f0 into f', H into HF'. rewrite HF in HF'. injection HF' as <-.
  wp_step. wp_step. wp_step.
  set (w0 := set_fwds (delete F (fwds w)) w).
  assert (HW0 : WInv w0 l).
  { eapply WInv_off_heap; [exact HW|repeat split|reflexivity]. }
  eapply wp_mono; [apply (reqdone_spec (conn f) c w0 l HW0 Hc)|]. simpl.
  rewrite Hwrap.
  intros rc w1 (_ & _ & _ & _ & Hcase).
  destruct (nonzero rc); [wp_step; intros [=]|].
  destruct Hcase as [(_ & _ & _ & Hv1)|(Hbusy1 & HW1 & Hv1)].
  { apply wp_dangling. apply eq_None_not_Some.
    rewrite <- is_Some_view, Hv1, lookup_delete_eq. intros [? [=]]. }
  wp_step. wp_step. wp_step.
  eapply wp_mono; [apply accept_stop_spec|]. simpl.
  intros _ w2 (Hrest & Hnone & _).
  assert (HW2 : WInv w2 l).
  { eapply WInv_listeners; [exact HW1|exact Hrest|].
    intros Hany. exfalso. exact (not_any_armed _ Hnone Hany). }
  pose proof Hrest as (_ & _ & _ & _ & Hc2 & _).
  wp_step. wp_step. wp_step. wp_step. wp_step. wp_step.
  set (w3 := set_failed true w2).
  assert (HW3 : WInv w3 l) by exact HW2.
  assert (Hv3 : view (conns w3)
                = <[conn f := (read_cookie c, nrequests c - 1)]>
                    (view (conns w))).
  { simpl. rewrite Hc2, Hv1. reflexivity. }
  assert (HS : conn f ∈ l).
  { destruct HW as ((_ & Hdom) & _). apply Hdom. eauto. }
  apply list_elem_of_split in HS as (l0 & r' & ->).
  change (Some (conn f)) with (head_or None (conn f :: r')).
  eapply wp_mono.
  - apply (stop_reading_stops _ w3 _ l0 (conn f :: r') HW3 eq_refl).
    + destruct HW3 as (Hcl & _). rewrite (conn_list_size _ _ Hcl).
      rewrite length_app. lia.
    + intros a rd nr _. rewrite Hv3.
      destruct (decide (a = conn f)) as [->|Hne].
      * rewrite lookup_insert_eq. intros [= <- <-]. exact Hbusy1.
      * rewrite lookup_insert_ne by congruence. intros Ha.
        apply (Hacct a rd nr Ha).
  - simpl. intros rc' w' Hpost Hrc. destruct (Hpost Hrc) as [HW' Hv'].
    exists l0, r', (view (conns w3)).
    split; [reflexivity|]. split; [exact Hv3|]. split; [exact HW'|exact Hv'].
Qed.

(** ** Accounting on every path *)

(** [callback_gotrequest] with a request, path by path. *)
Lemma gotrequest_some_run S p F w o c :
  conns w !! S = Some c ->
  callback_gotrequest S (Some p) F w o
  = if answer 0 o && (Z.of_nat (size (fwds w)) <? SIZE_MAX)
    then
      if answer 1 o
      then Ok (if answer 2 o then 0 else -1)
             (World (sock_listen w) (sock_active w) (nsock_active w)
                (nsock_active_max w) (failed w)
                (<[S := set_read_cookie (answer 2 o)
                          (set_nrequests (size_wrap (nrequests c + 1))
                             (set_read_cookie false c))]> (conns w))
                (<[F := Forwardee S p InQueue]> (fwds w))
                (calls w ++ [wire_requestqueue_add F; wire_readpacket S]))
             (drop 3 o)
      else Ok (-1)
             (World (sock_listen w) (sock_active w) (nsock_active w)
                (nsock_active_max w) (failed w)
                (<[S := set_nrequests (size_wrap (nrequests c + 1))
                          (set_read_cookie false c)]> (conns w))
                (delete F (<[F := Forwardee S p InQueue]> (fwds w)))
                (calls w ++ [wire_requestqueue_add F]))
             (drop 2 o)
    else Ok (-1) (set_conns (<[S := set_read_cookie false c]> (conns w)) w)
           (drop 1 o).
Proof.
  intros Hc. unfold answer.
  unfold callback_gotrequest, mpool_forwardee_malloc, readreq, update, store,
    store_fwd, mpool_forwardee_free, do_call, deref, assert, modify, bind,
    ask_env, get, ret.
  rewrite Hc.
  destruct (Z.of_nat (size (fwds w)) <? SIZE_MAX) eqn:Hroom;
    destruct o as [|[|] [|[|] [|[|] o]]]; simpl; rewrite ?Hroom; simpl;
    rewrite ?lookup_insert_eq; simpl; rewrite ?lookup_insert_eq; simpl;
    rewrite ?lookup_insert_eq; simpl; try reflexivity;
    f_equal; unfold set_conns, add_call, set_fwds; simpl; f_equal;
    rewrite ?insert_insert_eq, <- ?app_assoc; reflexivity.
Qed.

(** [callback_gotresponse] with a response, path by path. *)
Lemma gotresponse_some_run F b w o f :
  fwds w !! F = Some f ->
  is_Some (conns w !! conn f) ->
  callback_gotresponse F (Some b) w o
  = if answer 0 o
    then Ok 0
           (World (sock_listen w) (sock_active w) (nsock_active w)
              (nsock_active_max w) (failed w) (conns w)
              (<[F := Forwardee (conn f) b InWriter]> (fwds w))
              (calls w ++ [wire_writepacket (conn f) F]))
           (drop 1 o)
    else Ok (-1)
           (World (sock_listen w) (sock_active w) (nsock_active w)
              (nsock_active_max w) (failed w) (conns w)
              (delete F (fwds w))
              (calls w ++ [wire_writepacket (conn f) F]))
           (drop 1 o).
Proof.
  intros HF [c Hc]. unfold answer.
  unfold callback_gotresponse, store_fwd, do_call, deref_fwd, deref, modify,
    mpool_forwardee_free, bind, ask_env, ret.
  rewrite HF. simpl. rewrite Hc.
  destruct o as [|[|] o]; simpl; try reflexivity.
  f_equal. unfold set_fwds, add_call. simpl. f_equal.
  apply delete_insert_eq.
Qed.

Lemma Acct_live w F f :
  Acct w -> fwds w !! F = Some f -> is_Some (conns w !! conn f).
Proof. intros (_ & Hlive & _). apply Hlive. Qed.

Lemma Acct_count w S c :
  Acct w -> conns w !! S = Some c ->
  nrequests c = owed S w /\ (read_cookie c = true \/ nrequests c <> 0).
Proof.
  intros (Hacct & _) Hc. apply (Hacct S (read_cookie c) (nrequests c)).
  rewrite view_lookup, Hc. reflexivity.
Qed.

(** A new connection owes nothing. *)
Lemma Acct_admit S w w' :
  Acct w -> conns w !! S = None ->
  view (conns w') = <[S := (true, 0)]> (view (conns w)) ->
  fwds w' = fwds w ->
  Acct w'.
Proof.
  intros (Hacct & Hlive & Hsize) Hfresh Hv Hfw. unfold Acct.
  rewrite Hv, Hfw. split; [|split; [|exact Hsize]].
  - intros a rd nr Ha. destruct (decide (a = S)) as [->|Hne].
    + rewrite lookup_insert_eq in Ha. injection Ha as <- <-.
      split; [|auto]. symmetry. apply owed_none.
      intros F f HF Hconn. apply Hlive in HF. rewrite Hconn in HF.
      rewrite Hfresh in HF. destruct HF as [? [=]].
    + rewrite lookup_insert_ne in Ha by congruence. eauto.
  - intros F f HF. apply is_Some_view. rewrite Hv.
    destruct (decide (conn f = S)) as [->|Hne].
    + rewrite lookup_insert_eq. eauto.
    + rewrite lookup_insert_ne by congruence. apply is_Some_view. eauto.
Qed.

Lemma Acct_same w w' :
  Acct w -> conns w' = conns w -> fwds w' = fwds w -> Acct w'.
Proof. unfold Acct. intros H -> ->. exact H. Qed.

(** The accounting invariant survives the callbacks that neither enqueue
    a request nor hand a response to the writer, whatever they return. *)
Lemma callback_gotconn_Acct i s S w l L :
  WInv w l ->
  sock_listen w !! i = Some L ->
  accept_cookie L = true ->
  conns w !! S = None ->
  Acct w ->
  wp (callback_gotconn i s S)
     (fun _ w' => Acct w' /\ fwds w' = fwds w) w.
Proof.
  intros HW HL Harmed Hfresh HA.
  eapply wp_mono.
  - apply wp_wlp_and;
      [eapply callback_gotconn_admission; eauto|apply callback_gotconn_inner].
  - simpl. intros rc w' [Hadm (_ & _ & _ & Hfw)]. split; [|exact Hfw].
    destruct Hadm as [(_ & _ & Hc & _)|(_ & Hv & _)].
    + eapply Acct_same; eauto.
    + eapply Acct_admit; eauto.
Qed.

Lemma callback_gotrequest_eof_Acct S F w l c :
  WInv w l ->
  conns w !! S = Some c ->
  Acct w ->
  wp (callback_gotrequest S None F)
     (fun _ w' => Acct w' /\ fwds w' = fwds w) w.
Proof.
  intros HW Hc (Hacct & Hlive & Hsize).
  eapply wp_mono; [eapply callback_gotrequest_eof_settled; eauto|].
  simpl. intros rc w' Hset. split; [|apply Hset].
  eapply settled_Acct; [exact Hset|apply acct_delete, Hacct|exact Hlive
                        |exact Hsize|].
  apply (Hacct S (read_cookie c)). rewrite view_lookup, Hc. reflexivity.
Qed.

Lemma callback_writresponse_Acct F b w l :
  WInv w l ->
  Acct w ->
  wp (callback_writresponse F b)
     (fun _ w' => Acct w' /\ fwds w' = delete F (fwds w)) w.
Proof.
  intros HW HA. unfold callback_writresponse. wp_step. wp_step.
  rename H into HF. wp_step. wp_step. wp_step.
  eapply wp_mono.
  - eapply (reqdone_finish F f w); [exact HW|exact HF|reflexivity
                                    |repeat split|reflexivity].
  - simpl. intros rc w' (_ & _ & Hfw' & HA' & _).
    apply wp_rc. intros rc' _. auto.
Qed.

Lemma callback_gotresponse_none_Acct F w l :
  WInv w l ->
  Acct w ->
  wp (callback_gotresponse F None)
     (fun _ w' => Acct w' /\ fwds w' = delete F (fwds w)) w.
Proof.
  intros HW HA. unfold callback_gotresponse. wp_step. wp_step.
  rename H into HF. wp_step. wp_step. wp_step.
  eapply wp_mono.
  - eapply (reqdone_finish F f w); [exact HW|exact HF|reflexivity
                                    |repeat split|reflexivity].
  - simpl. intros rc w1 ((l1 & HW1) & Hf1 & Hfw1 & HA1 & _).
    destruct (nonzero rc).
    { wp_step. auto. }
    wp_step. wp_step. rename H into Hc1. wp_step.
    eapply wp_mono; [apply accept_stop_spec|]. simpl.
    intros _ w2 (Hrest & Hnone & _).
    assert (HW2 : WInv w2 l1).
    { eapply WInv_listeners; [exact HW1|exact Hrest|].
      intros Hany. exfalso. exact (not_any_armed _ Hnone Hany). }
    pose proof Hrest as (_ & _ & _ & _ & Hc2 & Hfw2).
    wp_step. wp_step. wp_step. wp_step. wp_step. wp_step.
    set (w3 := set_failed true w2).
    assert (HW3 : WInv w3 l1) by exact HW2.
    assert (HS : conn f ∈ l1).
    { destruct HW2 as ((_ & Hdom) & _). apply Hdom. rewrite Hc2. eauto. }
    apply list_elem_of_split in HS as (l0 & r' & ->).
    change (Some (conn f)) with (head_or None (conn f :: r')).
    eapply wp_mono.
    + eapply (stop_reading_spec _ w3 _ l0); [exact HW3|reflexivity|].
      destruct HW3 as (Hcl & _). rewrite (conn_list_size _ _ Hcl).
      rewrite length_app. lia.
    + simpl. intros rc' w' (_ & _ & Hfw' & HA'). split.
      * apply HA'. unfold Acct in *. simpl. rewrite Hc2, Hfw2.
        apply HA1. exact HA.
      * simpl in Hfw'. rewrite Hfw', Hfw2. exact Hfw1.
Qed.

(** Accounting after a read completion that carried a request. *)
Lemma gotrequest_some_accounting S p F w o c0 rc w' o' :
  Acct w ->
  conns w !! S = Some c0 ->
  fwds w !! F = None ->
  callback_gotrequest S (Some p) F w o = Ok rc w' o' ->
  let e := Event (gotrequest S (Some p) F) o in
  fwds w' = fwds_left w e /\
  (forall F' f, fwds w' !! F' = Some f -> is_Some (conns w' !! conn f)) /\
  (forall a c, conns w' !! a = Some c ->
     nrequests c = owed a w' + (if miscounted w e a then 1 else 0) /\
     (read_cookie c = true \/ nrequests c <> 0 \/ unserved w e a = true)).
Proof.
  intros HA Hc0 HF Hrun. pose proof HA as (Hacct & Hlive & Hsize).
  destruct (Acct_count w S c0 HA Hc0) as [Hn0 _]. unfold owed in Hn0.
  pose proof (owed_le_size S (fwds w)) as [Hge Hle].
  rewrite (gotrequest_some_run S p F w o c0 Hc0) in Hrun.
  unfold fwds_left, miscounted, unserved, allocates. simpl.
  assert (Hother : forall a c (c1 : sock_active_t),
            a <> S -> <[S := c1]> (conns w) !! a = Some c ->
            nrequests c = owed_in a (fwds w) /\
            (read_cookie c = true \/ nrequests c <> 0)).
  { intros a c c1 Hne Hc. rewrite lookup_insert_ne in Hc by congruence.
    exact (Acct_count w a c HA Hc). }
  assert (Hkeep : forall F' f (c1 : sock_active_t),
            fwds w !! F' = Some f ->
            is_Some (<[S := c1]> (conns w) !! conn f)).
  { intros F' f c1 HF'. apply lookup_insert_is_Some'. right. eauto. }
  destruct (answer 0 o && (Z.of_nat (size (fwds w)) <? SIZE_MAX)) eqn:Halloc.
  - apply andb_true_iff in Halloc as [_ Hroom]. apply Z.ltb_lt in Hroom.
    assert (Hwrap : size_wrap (nrequests c0 + 1) = nrequests c0 + 1)
      by (apply size_wrap_small; lia).
    destruct (answer 1 o) eqn:Hsent; injection Hrun as <- <- <-; simpl.
    + split; [reflexivity|]. split.
      * intros F' f HF'. destruct (decide (F' = F)) as [->|Hne].
        -- rewrite lookup_insert_eq in HF'. injection HF' as <-. simpl.
           rewrite lookup_insert_eq. eauto.
        -- rewrite lookup_insert_ne in HF' by congruence. eauto.
      * intros a c Hc. unfold owed. simpl.
        rewrite owed_insert_fresh by exact HF. simpl.
        rewrite andb_false_r.
        destruct (decide (S = a)) as [<-|Hne].
        -- rewrite lookup_insert_eq in Hc. injection Hc as <-. simpl.
           rewrite Hwrap. split; [lia|]. right. left. lia.
        -- destruct (Hother a c _ (not_eq_sym Hne) Hc) as [Hn Hb].
           split; [lia|]. destruct Hb; auto.
    + rewrite delete_insert_id by exact HF.
      split; [reflexivity|]. split; [intros F' f; apply Hkeep|].
      intros a c Hc. unfold owed. simpl. rewrite andb_true_r.
      destruct (decide (S = a)) as [<-|Hne].
      * rewrite lookup_insert_eq in Hc. injection Hc as <-. simpl.
        rewrite bool_decide_eq_true_2 by reflexivity.
        rewrite Hwrap. cbn [andb]. split; [lia|]. right. left. lia.
      * rewrite bool_decide_eq_false_2 by exact Hne.
        destruct (Hother a c _ (not_eq_sym Hne) Hc) as [Hn Hb].
        cbn [andb]. split; [lia|]. destruct Hb; auto.
  - injection Hrun as <- <- <-. simpl.
    split; [reflexivity|]. split; [intros F' f; apply Hkeep|].
    intros a c Hc. unfold owed. simpl. rewrite andb_false_r. simpl.
    rewrite Z.add_0_r.
    destruct (decide (S = a)) as [<-|Hne].
    + rewrite lookup_insert_eq in Hc. injection Hc as <-. simpl.
      rewrite bool_decide_eq_true_2 by reflexivity.
      split; [exact Hn0|]. auto.
    + destruct (Hother a c _ (not_eq_sym Hne) Hc) as [Hn Hb].
      split; [exact Hn|]. destruct Hb; auto.
Qed.

(** Accounting after a response has arrived from the target. *)
Lemma gotresponse_some_accounting F b w o f rc w' o' :
  Acct w ->
  fwds w !! F = Some f ->
  callback_gotresponse F (Some b) w o = Ok rc w' o' ->
  let e := Event (gotresponse F (Some b)) o in
  fwds w' = fwds_left w e /\
  (forall F' f', fwds w' !! F' = Some f' -> is_Some (conns w' !! conn f')) /\
  (forall a c, conns w' !! a = Some c ->
     nrequests c = owed a w' + (if miscounted w e a then 1 else 0) /\
     (read_cookie c = true \/ nrequests c <> 0 \/ unserved w e a = true)).
Proof.
  intros HA HF Hrun. pose proof HA as (Hacct & Hlive & Hsize).
  rewrite (gotresponse_some_run F b w o f HF (Hlive F f HF)) in Hrun.
  unfold fwds_left, miscounted, unserved. simpl. rewrite HF.
  destruct (answer 0 o) eqn:Hsent; injection Hrun as <- <- <-; simpl.
  - split; [reflexivity|]. split.
    + intros F' f' HF'. destruct (decide (F' = F)) as [->|Hne].
      * rewrite lookup_insert_eq in HF'. injection HF' as <-. simpl. eauto.
      * rewrite lookup_insert_ne in HF' by congruence. eauto.
    + intros a c Hc. unfold owed. simpl. rewrite andb_false_r.
      rewrite (owed_insert_same a F f) by (exact HF || reflexivity).
      destruct (Acct_count w a c HA Hc) as [Hn Hb].
      unfold owed in Hn. split; [lia|]. destruct Hb; auto.
  - split; [reflexivity|]. split.
    + intros F' f' HF'. apply lookup_delete_Some in HF' as [_ HF']. eauto.
    + intros a c Hc. unfold owed. simpl. rewrite andb_true_r.
      rewrite (owed_delete a F f) by exact HF.
      destruct (Acct_count w a c HA Hc) as [Hn Hb]. unfold owed in Hn.
      split; [|destruct Hb; auto].
      destruct (decide (conn f = a)) as [E|E].
      * rewrite bool_decide_eq_true_2 by exact E. lia.
      * rewrite bool_decide_eq_false_2 by exact E. lia.
Qed.

(** Request accounting after any callback, whatever it returns: the pool
    of forwardees, the owner of every forwardee, and the counter and
    activity of every connection. *)
Lemma step_accounting w e rc w' o :
  running w -> enabled w e = true -> step w e = Ok rc w' o ->
  fwds w' = fwds_left w e /\
  (forall F f, fwds w' !! F = Some f -> is_Some (conns w' !! conn f)) /\
  (forall S c, conns w' !! S = Some c ->
     nrequests c = owed S w' + (if miscounted w e S then 1 else 0) /\
     (read_cookie c = true \/ nrequests c <> 0 \/ unserved w e S = true)).
Proof.
  intros Hr Hen Hstep.
  destruct (reachable_WInv w (running_reachable w Hr)) as [l HW].
  pose proof (running_SInv w Hr) as [HA _].
  assert (Hfrom : Acct w' -> fwds w' = fwds_left w e ->
                  (forall S, miscounted w e S = false) ->
                  (forall S, unserved w e S = false) ->
    fwds w' = fwds_left w e /\
    (forall F f, fwds w' !! F = Some f -> is_Some (conns w' !! conn f)) /\
    (forall S c, conns w' !! S = Some c ->
       nrequests c = owed S w' + (if miscounted w e S then 1 else 0) /\
       (read_cookie c = true \/ nrequests c <> 0 \/ unserved w e S = true))).
  { intros HA' Hfw Hmis Huns. split; [exact Hfw|].
    split; [intros F f; apply Acct_live; exact HA'|].
    intros S c Hc. rewrite Hmis, Z.add_0_r.
    destruct (Acct_count w' S c HA' Hc) as [Hn Hb]. split; [exact Hn|].
    destruct Hb; auto. }
  unfold step in Hstep. unfold enabled in Hen.
  unfold fwds_left, miscounted, unserved in *.
  destruct e as [[i s Sa|Sa [p|] F|F [b|]|F b] ans]; simpl in *.
  - destruct (sock_listen w !! i) as [L|] eqn:HL; [|discriminate].
    apply andb_true_iff in Hen as [Harmed Hfresh].
    destruct (conns w !! Sa) eqn:Hc; [discriminate|].
    destruct (wp_run _ _ _ _ _ _ _
                (callback_gotconn_Acct i s Sa w l L HW HL Harmed Hc HA) Hstep)
      as [HA' Hfw].
    apply Hfrom; auto.
  - destruct (conns w !! Sa) as [c0|] eqn:Hc0; [|discriminate].
    apply andb_true_iff in Hen as [_ Hfree].
    destruct (fwds w !! F) eqn:HF; [discriminate|].
    exact (gotrequest_some_accounting Sa p F w ans c0 rc w' o HA Hc0 HF Hstep).
  - destruct (conns w !! Sa) as [c0|] eqn:Hc0; [|discriminate].
    destruct (wp_run _ _ _ _ _ _ _
                (callback_gotrequest_eof_Acct Sa F w l c0 HW Hc0 HA) Hstep)
      as [HA' Hfw].
    apply Hfrom; auto.
  - destruct (fwds w !! F) as [f|] eqn:HF; [|discriminate].
    pose proof (gotresponse_some_accounting F b w ans f rc w' o HA HF Hstep)
      as H. unfold fwds_left, miscounted, unserved in H. simpl in H.
    rewrite HF in H. exact H.
  - destruct (wp_run _ _ _ _ _ _ _
                (callback_gotresponse_none_Acct F w l HW HA) Hstep)
      as [HA' Hfw].
    apply Hfrom; auto.
  - destruct (wp_run _ _ _ _ _ _ _
                (callback_writresponse_Acct F b w l HW HA) Hstep)
      as [HA' Hfw].
    apply Hfrom; auto.
Qed.

Lemma one_request_running : running one_request.
Proof.
  eapply (after_init_running [3] 4
            [quiet (gotconn 0 7 100%nat);
             quiet (gotrequest 100%nat (Some []) 200%nat)]).
  - unfold SIZE_MAX. lia.
  - vm_compute. reflexivity.
Qed.



(** The return value on the paths of a read completion and of a
    response. *)
Lemma miscounted_fails w e rc w' o S :
  running w -> enabled w e = true -> step w e = Ok rc w' o ->
  miscounted w e S = true \/ unserved w e S = true -> rc = -1.
Proof.
  intros Hr Hen Hstep Hpath.
  pose proof (running_SInv w Hr) as [HA _].
  unfold step in Hstep. unfold enabled in Hen.
  unfold miscounted, unserved, allocates in Hpath.
  destruct e as [[i s Sa|Sa [p|] F|F [b|]|F b] ans]; simpl in *;
    try (destruct Hpath; discriminate).
  - destruct (conns w !! Sa) as [c0|] eqn:Hc0; [|discriminate].
    rewrite (gotrequest_some_run Sa p F w ans c0 Hc0) in Hstep.
    destruct (answer 0 ans && (Z.of_nat (size (fwds w)) <? SIZE_MAX)).
    + destruct (answer 1 ans).
      * destruct Hpath as [H|H]; rewrite ?andb_false_r in H; discriminate.
      * congruence.
    + congruence.
  - destruct (fwds w !! F) as [f|] eqn:HF; [|discriminate].
    rewrite (gotresponse_some_run F b w ans f HF (Acct_live w F f HA HF))
      in Hstep.
    destruct (answer 0 ans).
    + destruct Hpath as [H|H]; rewrite ?andb_false_r in H; discriminate.
    + congruence.
Qed.

(** * Properties of the dispatcher *)

(** C1 fails on the code.  Two clients fill a dispatcher with
    [maxconn = 2]; the target fails the request of the newer one.
    [callback_gotresponse] stops the accepts and sets [failed]; its loop then
    cancels the read of that client, [readreq_cancel] calls [dropconn], and
    [dropconn], finding [nsock_active] at the limit, calls [accept_start].
    The callback returns success with the accept armed although [failed] is
    set; the dispatcher is still alive, the other client's response being
    owed. *)
Theorem accept_armed_in_drain_state :
  running draining /\
  failed draining = true /\
  nsock_active draining = 1 /\ nsock_active_max draining = 2 /\
  map accept_cookie (sock_listen draining) = [true] /\
  dispatch_alive draining = true /\
  connections draining = [100%nat] /\
  calls draining =
    [ network_accept 0; wire_readpacket 100%nat;
      network_accept 0; wire_readpacket 101%nat;
      wire_requestqueue_add 200%nat; wire_readpacket 100%nat;
      wire_requestqueue_add 201%nat; wire_readpacket 101%nat;
      wire_readpacket_cancel 101%nat; network_accept 0; close_socket 8;
      wire_readpacket_cancel 100%nat ].
Proof.
  split; [exact draining_running|]. conj_compute.
Qed.

(** C2 fails on the code.  In the drain state reached above the accept is
    armed, so a third client is accepted, its read is armed, and its request
    is forwarded: a forwardee is created and the read is armed again, all
    with [failed] set. *)
Theorem drain_state_admits_and_forwards :
  running draining /\
  failed draining = true /\ dispatch_alive draining = true /\
  connections draining = [100%nat] /\
  fwds draining !! 202%nat = None /\
  run draining late_client = Some relapsed /\
  failed relapsed = true /\
  connections relapsed = [102%nat; 100%nat] /\
  bookkeeping 102%nat relapsed = Some (true, 1) /\
  fwds relapsed !! 202%nat = Some (Forwardee 102%nat [] InQueue) /\
  calls relapsed =
    calls draining ++ [ wire_readpacket 102%nat;
                        wire_requestqueue_add 202%nat;
                        wire_readpacket 102%nat ].
Proof.
  split; [exact draining_running|]. conj_compute.
Qed.

(** C3 fails on the code.  Connections 101 (newer, at the head) and 100 are
    on the list, both with a read armed; the target fails request 200 of
    connection 100.  The loop starts at connection 100 and follows [next],
    so the read of connection 101 is not cancelled. *)
Theorem stop_reading_skips_newer_connections :
  running serving /\
  connections serving = [101%nat; 100%nat] /\
  bookkeeping 100%nat serving = Some (true, 1) /\
  bookkeeping 101%nat serving = Some (true, 0) /\
  fwds serving !! 200%nat = Some (Forwardee 100%nat [] InQueue) /\
  enabled serving older_request_fails = true /\
  step serving older_request_fails = Ok 0 half_stopped [] /\
  failed half_stopped = true /\
  dispatch_alive half_stopped = true /\
  connections half_stopped = [101%nat] /\
  bookkeeping 101%nat half_stopped = Some (true, 0) /\
  calls half_stopped =
    calls serving ++ [ network_accept_cancel 0;
                       wire_readpacket_cancel 100%nat; close_socket 7 ].
Proof.
  split; [exact serving_running|]. conj_compute.
Qed.

(** C4. [dispatch_alive] returns true if and only if the [failed] flag is
    unset or [nsock_active > 0]; for the unsigned counter this means that it
    returns false exactly when [failed] is set and [nsock_active] is 0. *)
Theorem dispatch_alive_spec (w : world) :
  0 <= nsock_active w ->
  (dispatch_alive w = true <-> failed w = false \/ 0 < nsock_active w) /\
  (dispatch_alive w = false <-> failed w = true /\ nsock_active w = 0).
Proof.
  intros Hn. unfold dispatch_alive.
  destruct (failed w); simpl; rewrite ?Z.ltb_lt, ?Z.ltb_ge.
  - split; split.
    + auto.
    + intros [H|H]; [discriminate|exact H].
    + intros H. split; [reflexivity|lia].
    + intros [_ H]. lia.
  - split; split; auto.
    + discriminate.
    + intros [H _]. discriminate.
Qed.

Lemma dispatch_alive_spec_witness :
  0 <= nsock_active failed_and_empty /\
  (dispatch_alive failed_and_empty = true <->
   failed failed_and_empty = false \/ 0 < nsock_active failed_and_empty) /\
  (dispatch_alive failed_and_empty = false <->
   failed failed_and_empty = true /\ nsock_active failed_and_empty = 0).
Proof.
  split; [simpl; lia|].
  apply (dispatch_alive_spec failed_and_empty). simpl. lia.
Defined.

(** C5. In every reachable state, if [dispatch_alive] returns false then
    the list of connections is empty, no connection record is live,
    [nsock_active] is 0 and [failed] is set; these are the assertions of
    [dispatch_done]. *)
Theorem not_alive_is_drained (w : world) :
  reachable w ->
  dispatch_alive w = false ->
  connections w = [] /\ sock_active w = None /\ conns w = ∅ /\
  nsock_active w = 0 /\ failed w = true /\ dispatch_done_asserts w = true.
Proof.
  intros Hr Hdead. destruct (reachable_WInv w Hr) as (l & Hcl & Hn & _).
  assert (H0 : 0 <= nsock_active w) by lia.
  destruct (dispatch_alive_false w H0 Hdead) as [Hf Hz].
  assert (Hl : l = []) by (destruct l; [reflexivity|simpl in Hn; lia]).
  subst l. rewrite (connections_conn_list w [] Hcl).
  destruct Hcl as [(Hhd & _ & _) Hdom]. simpl in Hhd.
  assert (Hdone : dispatch_done_asserts w = true).
  { unfold dispatch_done_asserts. rewrite Hf, Hhd, Hz. reflexivity. }
  repeat split; auto.
  apply map_empty. intros a. apply eq_None_not_Some. intros Ha.
  apply Hdom in Ha. inversion Ha.
Qed.

Lemma not_alive_is_drained_witness :
  reachable drained /\ dispatch_alive drained = false /\
  (connections drained = [] /\ sock_active drained = None /\
   conns drained = ∅ /\ nsock_active drained = 0 /\ failed drained = true /\
   dispatch_done_asserts drained = true).
Proof.
  split; [exact (running_reachable _ drained_running)|].
  split; [reflexivity|].
  apply (not_alive_is_drained drained).
  - exact (running_reachable _ drained_running).
  - reflexivity.
Defined.

(** C6 fails on the code for [maxconn = 0]: [dispatch_init] arms the
    accepts unconditionally and the first client is admitted. *)
Theorem zero_maxconn_admits_one :
  after_init [3] 0 [quiet (gotconn 0 7 100%nat)] = Some zero_cap_one_client /\
  nsock_active_max zero_cap_one_client = 0 /\
  nsock_active zero_cap_one_client = 1 /\
  connections zero_cap_one_client = [100%nat] /\
  ~ nsock_active zero_cap_one_client <= nsock_active_max zero_cap_one_client.
Proof.
  repeat match goal with |- _ /\ _ => split end;
    try (vm_compute; reflexivity).
  vm_compute. intros H. apply H. reflexivity.
Qed.

(** C7, as stated, fails: when [wire_requestqueue_add] fails the
    forwardee is freed but [nrequests] keeps the increment. *)
Lemma enqueue_failure_miscounts :
  running one_client /\
  enabled one_client enqueue_fails = true /\
  exists w' c,
    step one_client enqueue_fails = Ok (-1) w' [] /\
    conns w' !! 100%nat = Some c /\
    nrequests c = 1 /\
    owed 100%nat w' = 0 /\
    nrequests c <> owed 100%nat w'.
Proof.
  split; [exact one_client_running|]. split; [reflexivity|].
  eexists. eexists. split; [vm_compute; reflexivity|].
  split; [vm_compute; reflexivity|].
  split; [reflexivity|]. split; [vm_compute; reflexivity|].
  vm_compute. discriminate.
Qed.

(** C7, amended.  After every callback of a running dispatcher, whatever
    it returns, [nrequests] of each live connection is the number of live
    forwardees whose [conn] is that connection, with two exceptions, both
    on paths that return -1: when [wire_requestqueue_add] fails ([err2] of
    [callback_gotrequest]) and when [wire_writepacket] fails ([err1] of
    [callback_gotresponse]) the forwardee is freed and the [nrequests] of
    its connection is left one above the number of its live forwardees.
    The count is exact on every other path, among them the
    allocation-failure branch of the read completion, a failing [readreq],
    a failing accept and a failing [dropconn].  Every live forwardee
    belongs to a live connection.  A forwardee stays live, on the same
    connection, until its failure response, its write completion, or the
    response that the packet writer refuses; a read completion adds the
    forwardee of its request exactly when the allocation and the enqueue
    succeed. *)
Theorem request_accounting (w : world) (e : event) (rc : Z) (w' : world)
    (o : list bool) :
  running w -> enabled w e = true -> step w e = Ok rc w' o ->
  (forall S c, conns w' !! S = Some c ->
     nrequests c = owed S w' + (if miscounted w e S then 1 else 0)) /\
  (forall S, miscounted w e S = true -> rc = -1) /\
  (rc = 0 -> forall S c, conns w' !! S = Some c -> nrequests c = owed S w') /\
  (forall F f, fwds w' !! F = Some f -> is_Some (conns w' !! conn f)) /\
  fwds w' = fwds_left w e /\
  (forall F f, fwds w !! F = Some f ->
     (fwds w' !! F = None <->
      cb e = gotresponse F None \/
      (exists b, cb e = writresponse F b) \/
      (exists b, cb e = gotresponse F (Some b) /\
                 answer 0 (answers e) = false)) /\
     (forall f', fwds w' !! F = Some f' -> conn f' = conn f)) /\
  (forall S p F, cb e = gotrequest S (Some p) F ->
     fwds w' !! F = if allocates w e && answer 1 (answers e)
                    then Some (Forwardee S p InQueue) else None).
Proof.
  intros Hr Hen Hstep.
  destruct (step_accounting w e rc w' o Hr Hen Hstep) as (Hfw & Hlive & Hcnt).
  assert (Hmis : forall S, miscounted w e S = true -> rc = -1).
  { intros S HS. eapply miscounted_fails; eauto. }
  split; [intros S c Hc; apply (Hcnt S c Hc)|].
  split; [exact Hmis|]. split.
  { intros -> S c Hc. destruct (Hcnt S c Hc) as [Hn _].
    destruct (miscounted w e S) eqn:E; [|lia].
    specialize (Hmis S E). discriminate. }
  split; [exact Hlive|]. split; [exact Hfw|].
  rewrite Hfw. unfold fwds_left, enabled in *. split.
  - intros F f HF.
    destruct (cb e) as [i s Sa|Sa [p|] F0|F0 [b|]|F0 b]; simpl.
    + rewrite HF. split; [|congruence]. split; [discriminate|].
      intros [[=]|[[b [=]]|[b [[=] _]]]].
    + destruct (conns w !! Sa); [|discriminate].
      apply andb_true_iff in Hen as [_ Hfree].
      destruct (fwds w !! F0) eqn:HF0; [discriminate|].
      assert (Hne : F0 <> F) by congruence.
      destruct (allocates w e && answer 1 (answers e));
        rewrite ?lookup_insert_ne by exact Hne; rewrite HF;
        (split; [|congruence]); (split; [discriminate|]);
        intros [[=]|[[b [=]]|[b [[=] _]]]].
    + rewrite HF. split; [|congruence]. split; [discriminate|].
      intros [[=]|[[b [=]]|[b [[=] _]]]].
    + destruct (fwds w !! F0) as [f0|] eqn:HF0; [|discriminate].
      destruct (decide (F0 = F)) as [->|Hne].
      * rewrite HF in HF0. injection HF0 as <-.
        destruct (answer 0 (answers e)) eqn:Hsent.
        -- rewrite lookup_insert_eq.
           split; [|intros f' [= <-]; reflexivity].
           split; [discriminate|].
           intros [[=]|[[b' [=]]|[b' [_ [=]]]]].
        -- rewrite lookup_delete_eq. split; [|discriminate].
           split; [|reflexivity]. intros _. right. right. eauto.
      * destruct (answer 0 (answers e));
          rewrite ?lookup_insert_ne, ?lookup_delete_ne by exact Hne;
          rewrite HF; (split; [|congruence]); (split; [discriminate|]);
          intros [[=]|[[b' [=]]|[b' [[= ? ?] _]]]]; congruence.
    + destruct (decide (F0 = F)) as [->|Hne].
      * rewrite lookup_delete_eq. split; [|discriminate].
        split; auto.
      * rewrite lookup_delete_ne by exact Hne. rewrite HF.
        split; [|congruence]. split; [discriminate|].
        intros [[= ?]|[[b' [=]]|[b' [[=] _]]]]. congruence.
    + destruct (decide (F0 = F)) as [->|Hne].
      * rewrite lookup_delete_eq. split; [|discriminate].
        split; eauto.
      * rewrite lookup_delete_ne by exact Hne. rewrite HF.
        split; [|congruence]. split; [discriminate|].
        intros [[=]|[[b' [= ? ?]]|[b' [[=] _]]]]. congruence.
  - intros S p F He. rewrite He in *.
    destruct (conns w !! S); [|discriminate].
    apply andb_true_iff in Hen as [_ Hfree].
    destruct (fwds w !! F) eqn:HF; [discriminate|].
    destruct (allocates w e && answer 1 (answers e)).
    + apply lookup_insert_eq.
    + exact HF.
Qed.

Lemma request_accounting_witness :
  running one_request /\ enabled one_request write_refused = true /\
  exists w',
    step one_request write_refused = Ok (-1) w' [] /\
    fwds w' = ∅ /\
    forall c, conns w' !! 100%nat = Some c ->
              nrequests c = owed 100%nat w' + 1.
Proof.
  assert (H1 : running one_request) by exact one_request_running.
  assert (H2 : enabled one_request write_refused = true) by reflexivity.
  split; [exact H1|]. split; [exact H2|].
  destruct (step one_request write_refused) as [rc w' o'| | |] eqn:E;
    try (exfalso; vm_compute in E; discriminate E).
  assert (Hrc : rc = -1) by (vm_compute in E; congruence).
  assert (Ho : o' = []) by (vm_compute in E; congruence).
  subst rc o'. exists w'. split; [reflexivity|].
  destruct (request_accounting one_request write_refused (-1) w' [] H1 H2 E)
    as (Hcount & _ & _ & _ & Hfw & _).
  split.
  - rewrite Hfw. vm_compute. reflexivity.
  - intros c Hc. apply (Hcount 100%nat c Hc).
Defined.




(** C9. The write-completion callback does not look at its [failed]
    argument: both values give the same result and the same state, and in
    particular a failed write never sets the dispatcher's [failed] flag. *)
Theorem writresponse_flag_ignored (F : addr) (w : world) (o : list bool) :
  callback_writresponse F true w o = callback_writresponse F false w o /\
  (reachable w ->
   forall b rc w' o',
     callback_writresponse F b w o = Ok rc w' o' -> failed w' = failed w).
Proof.
  split; [reflexivity|].
  intros Hr b rc w' o' Hrun.
  destruct (reachable_WInv w Hr) as [l HW].
  pose proof (callback_writresponse_ok F b w l HW) as Hwp.
  apply (wp_run _ _ _ _ _ _ _ Hwp Hrun).
Qed.

Lemma writresponse_flag_ignored_witness :
  reachable serving /\
  callback_writresponse 200%nat true serving []
  = callback_writresponse 200%nat false serving [] /\
  (reachable serving ->
   forall b rc w' o',
     callback_writresponse 200%nat b serving [] = Ok rc w' o' ->
     failed w' = failed serving).
Proof.
  split; [exact (running_reachable _ serving_running)|].
  apply (writresponse_flag_ignored 200%nat serving []).
Defined.

(** C10. In every reachable state [nsock_active] is the number of
    connections on the list headed at [sock_active], and that list holds
    each live connection exactly once. *)
Theorem nsock_active_counts_connections (w : world) :
  reachable w ->
  nsock_active w = Z.of_nat (length (connections w)) /\
  NoDup (connections w) /\
  (forall S, S ∈ connections w <-> is_Some (conns w !! S)).
Proof.
  intros Hr. destruct (reachable_WInv w Hr) as (l & Hcl & Hn & _).
  rewrite (connections_conn_list w l Hcl).
  destruct Hcl as [(_ & _ & Hnd) Hdom]. auto.
Qed.

Lemma nsock_active_counts_connections_witness :
  reachable serving /\
  nsock_active serving = Z.of_nat (length (connections serving)) /\
  NoDup (connections serving) /\
  (forall S, S ∈ connections serving <-> is_Some (conns serving !! S)).
Proof.
  split; [exact (running_reachable _ serving_running)|].
  apply (nsock_active_counts_connections serving).
  exact (running_reachable _ serving_running).
Defined.

(** * Further properties of the dispatcher *)

(** X1.  [accept_stop] always returns; it cancels the accept of exactly the
    listeners that have one in progress, in index order, clears their
    cookies, consults nothing outside and leaves everything else as it
    was.  In particular it is the identity when no accept is in progress. *)
Theorem accept_stop_cancels_armed_accepts (w : world) (o : list bool) :
  exists w',
    accept_stop w o = Ok tt w' o /\
    sock_listen w' = set_accept_cookie false <$> sock_listen w /\
    none_armed w' /\
    calls w' = calls w ++ (network_accept_cancel
                             <$> armed_from 0 (sock_listen w)) /\
    rest_eq w w'.
Proof.
  eexists. split; [apply accept_stop_exact|].
  split; [reflexivity|]. split; [|split; [reflexivity|repeat split]].
  unfold none_armed. simpl. apply Forall_fmap, Forall_forall.
  intros L _. reflexivity.
Qed.

(** X2.  [accept_start] is all or nothing; it goes one of three ways.
    When it returns 0 no accept was in progress before, one
    [network_accept] was issued per listener, in index order, and every
    listener now has an accept in progress.  When it returns -1 because an
    accept was already in progress, nothing has changed and no call was
    made.  When it returns -1 because the [network_accept] on listener [k]
    failed, the accepts on the listeners [0 .. k] were issued in index
    order, those on the listeners [0 .. k-1], which had succeeded, were
    then cancelled in index order, and the listeners are exactly as they
    were.  Nothing but the listeners and the log of calls changes. *)
Theorem accept_start_all_or_nothing (w : world) (o : list bool) (rc : Z)
    (w' : world) (o' : list bool) :
  accept_start w o = Ok rc w' o' ->
  rest_eq w w' /\
  ((rc = 0 /\ none_armed w /\
    sock_listen w' = set_accept_cookie true <$> sock_listen w /\
    calls w' = calls w ++ (network_accept
                             <$> seq 0 (length (sock_listen w))))
   \/ (rc = -1 /\ any_armed w /\ w' = w)
   \/ (rc = -1 /\ none_armed w /\ sock_listen w' = sock_listen w /\
       exists k,
         (k < length (sock_listen w))%nat /\
         all_succeed k o = true /\ o !! k = Some false /\
         calls w' = calls w ++ (network_accept <$> seq 0 (Datatypes.S k))
                            ++ (network_accept_cancel <$> seq 0 k))).
Proof.
  intros E.
  destruct (accept_start_cases w o rc w' o' E)
    as [(Hrest & _) [(-> & Hnone & _ & _ & Hsl & Hcalls)
                    |[(-> & Hany & -> & _)
                     |(-> & Hnone & _ & Hsl & k & Hk & Hall & Hf & _ & Hc)]]];
    (split; [exact Hrest|]).
  - left. auto.
  - right. left. auto.
  - right. right. split; [reflexivity|]. split; [exact Hnone|].
    split; [exact Hsl|]. exists k. auto.
Qed.

(** Two listeners; the accept on the second fails. *)
Lemma accept_start_all_or_nothing_witness :
  exists w',
    accept_start cold [true; false] = Ok (-1) w' [] /\
    sock_listen w' = sock_listen cold /\
    calls w' = calls cold ++ [network_accept 0; network_accept 1;
                              network_accept_cancel 0].
Proof.
  destruct (accept_start cold [true; false])
    as [rc w' o'| | |] eqn:E; try (exfalso; vm_compute in E; discriminate E).
  assert (Hrc : rc = -1) by (vm_compute in E; congruence).
  assert (Ho : o' = []) by (vm_compute in E; congruence).
  subst rc o'. exists w'. split; [reflexivity|].
  destruct (accept_start_all_or_nothing _ _ _ _ _ E)
    as [_ [(H & _)|[(_ & H & _)|(_ & _ & Hsl & k & Hk & Hall & Hf & Hc)]]].
  - discriminate H.
  - exfalso. unfold any_armed in H. apply any_armed_existsb in H.
    vm_compute in H. discriminate H.
  - split; [exact Hsl|].
    assert (k = 1)%nat as ->.
    { destruct k as [|[|k]]; [vm_compute in Hf; discriminate Hf|reflexivity|].
      vm_compute in Hk. lia. }
    exact Hc.
Defined.

(** X3.  The guard at the top of [accept_start]: if any listener already
    has an accept in progress the function returns -1 at once; it issues no
    call, consults nothing outside and changes nothing. *)
Theorem accept_start_refuses_when_busy (w : world) (o : list bool) :
  any_armed w -> accept_start w o = Ok (-1) w o.
Proof.
  intros Hany.
  pose proof (accept_start_busy_exact (sock_listen w) [] w o eq_refl) as Hb.
  simpl in Hb. apply any_armed_existsb in Hany. rewrite Hany in Hb.
  unfold accept_start, get. unfold bind at 1. cbn beta iota.
  unfold bind at 1. rewrite Hb. reflexivity.
Qed.

Lemma accept_start_refuses_when_busy_witness :
  any_armed one_client /\ accept_start one_client [] = Ok (-1) one_client [].
Proof.
  assert (H : any_armed one_client).
  { unfold any_armed. vm_compute. apply Exists_cons_hd. reflexivity. }
  split; [exact H|]. apply (accept_start_refuses_when_busy one_client [] H).
Defined.

(** X4.  [dispatch_init] succeeds exactly when the two allocations and the
    [network_accept] on every listening socket succeed.  The dispatcher it
    returns has no connection, is not failed, carries [maxconn] unchanged
    and has an accept in progress on every socket, started in the order of
    [socks]; this holds for an empty array of sockets too. *)
Theorem dispatch_init_result (socks : list Z) (maxconn : Z) (o : list bool) :
  dispatch_init socks maxconn o
  = if all_succeed (2 + length socks) o
    then Some (World (map (fun s => SockListen s true) socks) None 0 maxconn
                 false ∅ ∅ (map network_accept (seq 0 (length socks))))
    else None.
Proof.
  set (w1 := World (map (fun s => SockListen s false) socks) None 0 maxconn
               false ∅ ∅ []).
  assert (Hnone : none_armed w1).
  { unfold none_armed. simpl. apply Forall_forall. intros L HL.
    apply list_elem_of_In, in_map_iff in HL as (s & <- & _). reflexivity. }
  assert (Hlen : length (sock_listen w1) = length socks)
    by apply length_map.
  assert (Hcore : forall o2,
    match
      match accept_start w1 o2 with
      | Ok a w' o' => Ok (if nonzero a then false else true) w' o'
      | AssertFailed => AssertFailed
      | Undefined => Undefined
      | OutOfFuel => OutOfFuel
      end
    with
    | Ok true w _ => Some w
    | _ => None
    end
    = if all_succeed (length socks) o2
      then Some (World (map (fun s => SockListen s true) socks) None 0 maxconn
                   false ∅ ∅ (map network_accept (seq 0 (length socks))))
      else None).
  { intros o2. pose proof (accept_start_from_disarmed w1 o2 Hnone) as H.
    rewrite Hlen in H.
    destruct (all_succeed (length socks) o2).
    - rewrite H. simpl. f_equal. unfold set_sock_listen, add_calls. simpl.
      f_equal. clear.
      induction socks as [|s socks IH]; [reflexivity|].
      cbn [map]. rewrite fmap_cons, IH. reflexivity.
    - destruct H as (w' & o' & -> & _). reflexivity. }
  unfold dispatch_init. cbn [Nat.add].
  destruct o as [|[|] [|[|] o2]];
    rewrite ?all_succeed_cons, ?all_succeed_nil;
    cbv beta iota delta [bind ask_env modify ret negb set_sock_listen andb];
    cbn [sock_active nsock_active nsock_active_max failed conns fwds calls];
    fold w1; try reflexivity.
  - rewrite (Hcore []), all_succeed_nil. reflexivity.
  - rewrite (Hcore []), all_succeed_nil. reflexivity.
  - rewrite (Hcore o2). reflexivity.
Qed.

(** X5.  In every reachable state the three assertions of [dispatch_done]
    hold exactly when [dispatch_alive] returns 0: calling [dispatch_done]
    once [dispatch_alive] has returned 0 is safe, and calling it while the
    dispatcher is alive trips an assertion. *)
Theorem dispatch_done_safe_iff_not_alive (w : world) (o : list bool) :
  reachable w ->
  (dispatch_alive w = false -> exists w', dispatch_done w o = Ok tt w' o) /\
  (dispatch_alive w = true -> dispatch_done w o = AssertFailed).
Proof.
  intros Hr. destruct (reachable_WInv w Hr) as (l & [(Hhd & _) _] & Hn & _).
  unfold dispatch_done, dispatch_alive, bind, get, assert, ret.
  destruct (failed w); simpl; [|split; [discriminate|reflexivity]].
  destruct l as [|a l]; simpl in Hhd, Hn; rewrite Hhd, Hn; simpl.
  - split; [eauto|discriminate].
  - split; [|reflexivity]. intros E. apply Z.ltb_ge in E. lia.
Qed.

Lemma dispatch_done_safe_iff_not_alive_witness :
  reachable drained /\ dispatch_alive drained = false /\
  exists w', dispatch_done drained [] = Ok tt w' [].
Proof.
  assert (H : reachable drained)
    by exact (running_reachable _ drained_running).
  split; [exact H|]. split; [reflexivity|].
  destruct (dispatch_done_safe_iff_not_alive drained [] H) as [Hsafe _].
  apply Hsafe. reflexivity.
Defined.

(** X6.  The [failed] flag is sticky and has a single writer.  No callback
    ever clears it; the only callback that changes it is the response
    callback invoked with a [NULL] buffer, and whenever that callback
    returns 0 the flag is set.  This holds from any state and whatever the
    outside calls answer. *)
Theorem failed_set_only_by_failure_response (w : world) (e : event) (rc : Z)
    (w' : world) (o : list bool) :
  step w e = Ok rc w' o ->
  (failed w = true -> failed w' = true) /\
  (failed w' <> failed w -> exists F, cb e = gotresponse F None) /\
  (forall F, cb e = gotresponse F None -> rc = 0 -> failed w' = true).
Proof.
  unfold step. intros E.
  destruct (cb e) as [i s Sa|Sa P F|F buf|F b]; simpl in E.
  - pose proof (wlp_run _ _ _ _ _ _ _ (callback_gotconn_inner i s Sa w) E)
      as (_ & _ & Hf & _).
    split; [congruence|]. split; [congruence|discriminate].
  - pose proof (wlp_run _ _ _ _ _ _ _ (callback_gotrequest_outer Sa P F w) E)
      as (_ & Hf).
    split; [congruence|]. split; [congruence|discriminate].
  - pose proof (wlp_run _ _ _ _ _ _ _ (callback_gotresponse_outer F buf w) E)
      as (_ & Hs & Hch & Hset).
    split; [exact Hs|]. split.
    + intros Hne. rewrite (Hch Hne). eauto.
    + intros F' [= <- ->]. auto.
  - pose proof (wlp_run _ _ _ _ _ _ _ (callback_writresponse_outer F b w) E)
      as (_ & Hf).
    split; [congruence|]. split; [congruence|discriminate].
Qed.

Lemma failed_set_only_by_failure_response_witness :
  step serving older_request_fails = Ok 0 half_stopped [] /\
  failed serving = false /\ failed half_stopped = true.
Proof.
  assert (E : step serving older_request_fails = Ok 0 half_stopped [])
    by (vm_compute; reflexivity).
  split; [exact E|]. split; [reflexivity|].
  destruct (failed_set_only_by_failure_response _ _ _ _ _ E) as (_ & _ & H).
  apply (H 200%nat); reflexivity.
Defined.

(** X7.  No callback, whatever it returns and from whatever state, changes
    the connection limit, the number of listeners or their sockets: the
    configuration passed to [dispatch_init] is never modified. *)
Theorem configuration_never_changes (w : world) (e : event) (rc : Z)
    (w' : world) (o : list bool) :
  step w e = Ok rc w' o ->
  nsock_active_max w' = nsock_active_max w /\
  map listen_s (sock_listen w') = map listen_s (sock_listen w).
Proof.
  unfold step. intros E.
  destruct (cb e) as [i s Sa|Sa P F|F buf|F b]; simpl in E.
  - pose proof (wlp_run _ _ _ _ _ _ _ (callback_gotconn_inner i s Sa w) E)
      as (Hm & Hs & _). auto.
  - pose proof (wlp_run _ _ _ _ _ _ _ (callback_gotrequest_outer Sa P F w) E)
      as ((Hm & Hs & _) & _). auto.
  - pose proof (wlp_run _ _ _ _ _ _ _ (callback_gotresponse_outer F buf w) E)
      as ((Hm & Hs & _) & _). auto.
  - pose proof (wlp_run _ _ _ _ _ _ _ (callback_writresponse_outer F b w) E)
      as ((Hm & Hs & _) & _). auto.
Qed.

Lemma configuration_never_changes_witness :
  step serving older_request_fails = Ok 0 half_stopped [] /\
  nsock_active_max half_stopped = nsock_active_max serving /\
  map listen_s (sock_listen half_stopped) = map listen_s (sock_listen serving).
Proof.
  assert (E : step serving older_request_fails = Ok 0 half_stopped [])
    by (vm_compute; reflexivity).
  split; [exact E|].
  exact (configuration_never_changes _ _ _ _ _ E).
Defined.

(** X8.  A callback touches no forwardee but its own: the records of all
    other in-flight requests, their payloads included, are the same after
    the callback as before, whatever it returns. *)
Theorem other_forwardees_untouched (w : world) (e : event) (rc : Z)
    (w' : world) (o : list bool) (F' : addr) :
  step w e = Ok rc w' o ->
  own_forwardee (cb e) <> Some F' ->
  fwds w' !! F' = fwds w !! F'.
Proof.
  unfold step. intros E Hown.
  destruct (cb e) as [i s Sa|Sa P F|F buf|F b]; simpl in E, Hown.
  - pose proof (wlp_run _ _ _ _ _ _ _ (callback_gotconn_inner i s Sa w) E)
      as (_ & _ & _ & Hfw). rewrite Hfw. reflexivity.
  - pose proof (wlp_run _ _ _ _ _ _ _ (callback_gotrequest_outer Sa P F w) E)
      as ((_ & _ & Hfw) & _). apply Hfw. congruence.
  - pose proof (wlp_run _ _ _ _ _ _ _ (callback_gotresponse_outer F buf w) E)
      as ((_ & _ & Hfw) & _). apply Hfw. congruence.
  - pose proof (wlp_run _ _ _ _ _ _ _ (callback_writresponse_outer F b w) E)
      as ((_ & _ & Hfw) & _). apply Hfw. congruence.
Qed.

Lemma other_forwardees_untouched_witness :
  step serving older_request_fails = Ok 0 half_stopped [] /\
  own_forwardee (cb older_request_fails) <> Some 201%nat /\
  fwds half_stopped !! 201%nat = fwds serving !! 201%nat.
Proof.
  assert (E : step serving older_request_fails = Ok 0 half_stopped [])
    by (vm_compute; reflexivity).
  assert (H : own_forwardee (cb older_request_fails) <> Some 201%nat)
    by (simpl; discriminate).
  split; [exact E|]. split; [exact H|].
  exact (other_forwardees_untouched _ _ _ _ _ 201%nat E H).
Defined.

(** X9.  [dropconn] on a live connection.  If the connection has a read in
    progress or is owed a response, an assertion fails.  Otherwise, on
    every path that returns, success or any of the three error labels, the
    connection record has been freed, the outside calls end with one or
    more calls of [close] on its socket (more than one when [close] was
    interrupted and retried), everything called before them is an accept
    or the cancellation of one, [nsock_active] has been decremented modulo
    [2^64], and neither [failed] nor any forwardee has changed. *)
Theorem dropconn_releases_on_every_path (S : addr) (c : sock_active_t)
    (w : world) (o : list bool) :
  conns w !! S = Some c ->
  (read_cookie c = true \/ nrequests c <> 0 ->
   dropconn S w o = AssertFailed) /\
  (forall rc w' o',
     dropconn S w o = Ok rc w' o' ->
     conns w' !! S = None /\
     (rc = 0 \/ rc = -1) /\
     nsock_active w' = size_wrap (nsock_active w - 1) /\
     failed w' = failed w /\ fwds w' = fwds w /\
     exists cs n,
       calls w' = calls w ++ cs
                  ++ replicate (Datatypes.S n) (close_socket (conn_s c)) /\
       Forall is_accept_call cs).
Proof.
  intros Hc. split.
  - intros Hbusy. unfold dropconn, bind, deref, assert. rewrite Hc.
    destruct (read_cookie c); [reflexivity|]. simpl.
    destruct Hbusy as [[=]|Hnr]. apply Z.eqb_neq in Hnr. rewrite Hnr.
    reflexivity.
  - intros rc w' o' E.
    pose proof (wlp_run _ _ _ _ _ _ _ (dropconn_wlp S c w Hc) E)
      as (Hfree & (_ & _ & Hf & Hfw) & Hn & Hrc & Hcalls).
    auto 10.
Qed.

(** An interrupted [close]: the answers are those of [netbuf_write_destroy]
    (success), of the first [close] (failure, [EINTR]) and of the second
    [close] (success). *)
Lemma dropconn_releases_on_every_path_witness :
  conns stalled !! 100%nat = Some (SockActive None None 7 false 0) /\
  exists w',
    dropconn 100%nat stalled [true; false; true; true] = Ok 0 w' [] /\
    conns w' !! 100%nat = None /\
    calls w' = calls stalled ++ [close_socket 7; close_socket 7] /\
    exists cs n,
      calls w' = calls stalled ++ cs ++ replicate (Datatypes.S n) (close_socket 7) /\
      Forall is_accept_call cs.
Proof.
  assert (Hc : conns stalled !! 100%nat = Some (SockActive None None 7 false 0))
    by (vm_compute; reflexivity).
  split; [exact Hc|].
  destruct (dropconn_releases_on_every_path 100%nat _ stalled
              [true; false; true; true] Hc) as [_ H].
  destruct (dropconn 100%nat stalled [true; false; true; true])
    as [rc w' o'| | |] eqn:E; try (exfalso; vm_compute in E; discriminate E).
  assert (Hrc : rc = 0) by (vm_compute in E; congruence).
  assert (Ho : o' = []) by (vm_compute in E; congruence).
  subst rc o'. exists w'. split; [reflexivity|].
  destruct (H 0 w' [] eq_refl) as (Hfree & _ & _ & _ & _ & Hcs).
  split; [exact Hfree|]. split; [|exact Hcs].
  vm_compute in E. injection E as <-. reflexivity.
Defined.

(** X10.  A successful [callback_gotconn] puts the new connection at the
    head of the list, in front of the connections that were there, with a
    read in progress and no response owed; it leaves the bookkeeping of the
    other connections alone and counts the connection.  Afterwards an
    accept is in progress on every listener if the count is below the
    limit, and on no listener otherwise. *)
Theorem gotconn_admits_at_head (w : world) (e : event) (i : nat) (s : Z)
    (S : addr) (w' : world) (o : list bool) :
  reachable w ->
  cb e = gotconn i s S ->
  enabled w e = true ->
  step w e = Ok 0 w' o ->
  connections w' = S :: connections w /\
  bookkeeping S w' = Some (true, 0) /\
  (forall a, a <> S -> bookkeeping a w' = bookkeeping a w) /\
  nsock_active w' = nsock_active w + 1 /\
  (if nsock_active w' <? nsock_active_max w'
   then all_armed w' else none_armed w').
Proof.
  intros Hr He Hen Hstep.
  destruct (reachable_WInv w Hr) as [l HW].
  destruct (enabled_gotconn w e i s S He Hen) as (L & HL & Harmed & Hfresh).
  unfold step in Hstep. rewrite He in Hstep. simpl in Hstep.
  pose proof (wlp_run _ _ _ _ _ _ _ (callback_gotconn_inner i s S w) Hstep)
    as (Hmax & _).
  pose proof (wp_run _ _ _ _ _ _ _
                (callback_gotconn_admission i s S w l L HW HL Harmed Hfresh)
                Hstep) as [([=] & _)|(HW' & Hv & Hgate)].
  pose proof HW as (_ & Hn & _). pose proof HW' as (_ & Hn' & _).
  assert (Hcount : nsock_active w' = nsock_active w + 1).
  { rewrite Hn', Hn. simpl length. lia. }
  rewrite (WInv_connections w' _ HW'), (WInv_connections w l HW).
  split; [reflexivity|]. unfold bookkeeping. rewrite Hv.
  split; [apply lookup_insert_eq|].
  split; [intros a Ha; apply lookup_insert_ne; congruence|].
  split; [exact Hcount|].
  rewrite Hcount, Hmax.
  destruct Hgate as [(_ & Hgate)|([=] & _)]. exact Hgate.
Qed.

Lemma gotconn_admits_at_head_witness :
  reachable one_client /\
  step one_client (quiet (gotconn 0 8 101%nat)) = Ok 0 two_clients [] /\
  connections two_clients = 101%nat :: connections one_client /\
  bookkeeping 101%nat two_clients = Some (true, 0).
Proof.
  assert (Hr : reachable one_client)
    by exact (running_reachable _ one_client_running).
  assert (E : step one_client (quiet (gotconn 0 8 101%nat))
              = Ok 0 two_clients []) by (vm_compute; reflexivity).
  split; [exact Hr|]. split; [exact E|].
  destruct (gotconn_admits_at_head one_client (quiet (gotconn 0 8 101%nat))
              0%nat 8 101%nat _ _ Hr eq_refl eq_refl E) as (H1 & H2 & _).
  split; [exact H1|exact H2].
Defined.

(** X11.  When [callback_gotconn] returns failure, the return value is -1
    and one of three things has happened.  The accept itself had failed
    ([s = -1]): only the cookie of that listener has been cleared.  Or the
    connection could not be set up: no connection has been added, every
    accept has been cancelled, and the last outside call was [close] on the
    accepted socket.  Or the connection was set up and linked at the head
    of the list, there was room for more, and re-arming the accepts failed:
    the connection stays on the list and no accept is in progress. *)
Theorem gotconn_failure_outcomes (w : world) (e : event) (i : nat) (s : Z)
    (S : addr) (rc : Z) (w' : world) (o : list bool) :
  reachable w ->
  cb e = gotconn i s S ->
  enabled w e = true ->
  step w e = Ok rc w' o ->
  rc <> 0 ->
  rc = -1 /\
  ((conns w' = conns w /\ connections w' = connections w /\
    nsock_active w' = nsock_active w /\
    ((s = -1 /\
      exists L, sock_listen w !! i = Some L /\
                sock_listen w'
                = <[i := set_accept_cookie false L]> (sock_listen w))
     \/ (s <> -1 /\ none_armed w' /\
         exists cs, calls w' = calls w ++ cs ++ [close_socket s])))
   \/
   (connections w' = S :: connections w /\
    nsock_active w' = nsock_active w + 1 /\
    nsock_active w' < nsock_active_max w' /\
    none_armed w')).
Proof.
  intros Hr He Hen Hstep Hrc.
  destruct (reachable_WInv w Hr) as [l HW].
  destruct (enabled_gotconn w e i s S He Hen) as (L & HL & Harmed & Hfresh).
  unfold step in Hstep. rewrite He in Hstep. simpl in Hstep.
  pose proof (wlp_run _ _ _ _ _ _ _ (callback_gotconn_inner i s S w) Hstep)
    as (Hmax & _).
  pose proof (wlp_run _ _ _ _ _ _ _ (callback_gotconn_closes i s S w) Hstep)
    as Hclose.
  pose proof HW as (_ & Hn & _).
  pose proof (wp_run _ _ _ _ _ _ _
                (callback_gotconn_admission i s S w l L HW HL Harmed Hfresh)
                Hstep) as [(-> & HW' & Hc & Hcase)|(HW' & Hv & Hgate)].
  - split; [reflexivity|]. left. pose proof HW' as (_ & Hn' & _).
    rewrite (WInv_connections w' _ HW'), (WInv_connections w l HW).
    split; [exact Hc|]. split; [reflexivity|]. split; [congruence|].
    destruct Hcase as [Hbad|(Hs & Hnone)]; [left; exact Hbad|right].
    split; [exact Hs|]. split; [exact Hnone|].
    apply Hclose; [exact Hs|]. rewrite Hc. exact Hfresh.
  - destruct Hgate as [(-> & _)|(-> & Hroom & Hnone)]; [contradiction|].
    split; [reflexivity|]. right. pose proof HW' as (_ & Hn' & _).
    assert (Hcount : nsock_active w' = nsock_active w + 1).
    { rewrite Hn', Hn. simpl length. lia. }
    rewrite (WInv_connections w' _ HW'), (WInv_connections w l HW).
    split; [reflexivity|]. split; [exact Hcount|].
    split; [rewrite Hcount, Hmax; exact Hroom|exact Hnone].
Qed.

Lemma gotconn_failure_outcomes_witness :
  reachable one_client /\
  step one_client accept_no_memory = Ok (-1) refused [] /\
  connections refused = connections one_client /\
  none_armed refused /\
  exists cs, calls refused = calls one_client ++ cs ++ [close_socket 8].
Proof.
  assert (Hr : reachable one_client)
    by exact (running_reachable _ one_client_running).
  assert (E : step one_client accept_no_memory = Ok (-1) refused [])
    by (vm_compute; reflexivity).
  split; [exact Hr|]. split; [exact E|].
  destruct (gotconn_failure_outcomes one_client accept_no_memory
              0%nat 8 101%nat _ _ _ Hr eq_refl eq_refl E ltac:(discriminate))
    as (_ & [(_ & Hl & _ & [(Hs & _)|(_ & Hnone & Hcs)])|(_ & Hn & _)]).
  - discriminate Hs.
  - auto.
  - exfalso. vm_compute in Hn. discriminate Hn.
Defined.

(** X12.  End of stream on a connection ([callback_gotrequest] with a
    [NULL] packet).  If no response is owed, the connection is torn down
    whatever the callback returns: it is unlinked, the order of the others
    being kept, its record is freed, the count drops by one, the
    bookkeeping of the other connections is untouched and the last outside
    call is [close] on its socket.  If responses are owed, the callback
    returns 0 and changes nothing but the read cookie of that connection,
    which stays on the list until the responses are done. *)
Theorem gotrequest_eof_drops_or_half_closes (w : world) (e : event)
    (S F : addr) (c : sock_active_t) (rc : Z) (w' : world) (o : list bool) :
  reachable w ->
  cb e = gotrequest S None F ->
  conns w !! S = Some c ->
  step w e = Ok rc w' o ->
  if nrequests c =? 0
  then connections w' = remove_addr S (connections w) /\
       conns w' !! S = None /\
       nsock_active w' = nsock_active w - 1 /\
       (forall a, a <> S -> bookkeeping a w' = bookkeeping a w) /\
       exists cs, calls w' = calls w ++ cs ++ [close_socket (conn_s c)]
  else rc = 0 /\
       w' = set_conns (<[S := set_read_cookie false c]> (conns w)) w.
Proof.
  intros Hr He Hc Hstep.
  destruct (reachable_WInv w Hr) as [l HW].
  unfold step in Hstep. rewrite He in Hstep. simpl in Hstep.
  destruct (nrequests c =? 0) eqn:Hn.
  - apply Z.eqb_eq in Hn.
    pose proof (wp_run _ _ _ _ _ _ _
                  (callback_gotrequest_eof_settled S F w l c HW Hc) Hstep)
      as (_ & _ & _ & _ & [(_ & _ & HW' & Hv)|([[=]|Hbad] & _)]);
      [|contradiction].
    pose proof (wlp_run _ _ _ _ _ _ _
                  (callback_gotrequest_eof_closes S F w c Hc Hn) Hstep)
      as (_ & cs & n & Hcs & _).
    pose proof HW as ((Hl & Hdom) & Hcount & _).
    pose proof HW' as (_ & Hcount' & _).
    rewrite (WInv_connections w' _ HW'), (WInv_connections w l HW).
    split; [reflexivity|]. split.
    { apply eq_None_not_Some. rewrite <- is_Some_view, Hv, lookup_delete_eq.
      intros [? [=]]. }
    split.
    { rewrite Hcount', Hcount. apply remove_addr_length.
      - apply Hl.
      - apply Hdom. eauto. }
    split.
    { intros a Ha. unfold bookkeeping. eapply view_others_delete; eauto. }
    exists (cs ++ replicate n (close_socket (conn_s c))).
    rewrite Hcs, <- app_assoc. do 2 f_equal.
    change [close_socket (conn_s c)] with (replicate 1 (close_socket (conn_s c))).
    rewrite <- replicate_add. f_equal. lia.
  - apply Z.eqb_neq in Hn.
    rewrite (gotrequest_eof_half_close S F w _ c Hc Hn) in Hstep.
    injection Hstep as <- <- _. auto.
Qed.

Lemma gotrequest_eof_drops_or_half_closes_witness :
  reachable serving /\
  conns serving !! 101%nat = Some (SockActive (Some 100%nat) None 8 true 0) /\
  step serving newer_client_eof = Ok 0 older_alone [] /\
  connections older_alone = remove_addr 101%nat (connections serving) /\
  conns older_alone !! 101%nat = None.
Proof.
  assert (Hr : reachable serving)
    by exact (running_reachable _ serving_running).
  assert (Hc : conns serving !! 101%nat
               = Some (SockActive (Some 100%nat) None 8 true 0))
    by (vm_compute; reflexivity).
  assert (E : step serving newer_client_eof = Ok 0 older_alone [])
    by (vm_compute; reflexivity).
  split; [exact Hr|]. split; [exact Hc|]. split; [exact E|].
  pose proof (gotrequest_eof_drops_or_half_closes serving newer_client_eof
                101%nat 201%nat _ _ _ _ Hr eq_refl Hc E) as H.
  simpl in H. destruct H as (H1 & H2 & _). split; [exact H1|exact H2].
Defined.

(** X13.  Completion of a response write in a running dispatcher.  The
    forwardee is freed.  If it was the last response owed to a connection
    whose read has ended, the connection is torn down, whatever the
    callback returns.  In every other case the callback returns 0, the
    connection stays where it is on the list and owes one response less.
    The bookkeeping of the other connections does not change. *)
Theorem last_response_drops_half_closed (w : world) (e : event) (F : addr)
    (b : bool) (f : forwardee_t) (c : sock_active_t) (rc : Z) (w' : world)
    (o : list bool) :
  running w ->
  cb e = writresponse F b ->
  fwds w !! F = Some f ->
  conns w !! conn f = Some c ->
  step w e = Ok rc w' o ->
  fwds w' = delete F (fwds w) /\
  (forall a, a <> conn f -> bookkeeping a w' = bookkeeping a w) /\
  if (nrequests c =? 1) && negb (read_cookie c)
  then connections w' = remove_addr (conn f) (connections w) /\
       conns w' !! conn f = None
  else rc = 0 /\
       connections w' = connections w /\
       bookkeeping (conn f) w' = Some (read_cookie c, nrequests c - 1).
Proof.
  intros Hr He HF Hc Hstep.
  destruct (reachable_WInv w (running_reachable w Hr)) as [l HW].
  destruct (running_SInv w Hr) as [HA _].
  destruct (owed_at_least_one w F f HA HF) as (c' & Hc' & Hge & Hle).
  rewrite Hc in Hc'. injection Hc' as <-.
  destruct HA as (_ & _ & Hsize).
  assert (Hwrap : size_wrap (nrequests c - 1) = nrequests c - 1)
    by (apply size_wrap_small; lia).
  unfold step in Hstep. rewrite He in Hstep. simpl in Hstep.
  pose proof (wp_run _ _ _ _ _ _ _
                (callback_writresponse_settled F b w l f c HW HF Hc) Hstep)
    as (Hfw & _ & _ & _ & Hcase).
  rewrite Hwrap in Hcase. simpl in Hfw, Hcase.
  split; [exact Hfw|].
  rewrite (WInv_connections w l HW). unfold bookkeeping.
  destruct Hcase as [(Hrd & Hnr & HW' & Hv)|(Hbusy & HW' & Hv)].
  - split; [intros a Ha; eapply view_others_delete; eauto|].
    replace (nrequests c =? 1) with true by (symmetry; apply Z.eqb_eq; lia).
    rewrite Hrd. simpl.
    rewrite (WInv_connections w' _ HW'). split; [reflexivity|].
    apply eq_None_not_Some. rewrite <- is_Some_view, Hv, lookup_delete_eq.
    intros [? [=]].
  - split; [intros a Ha; eapply view_others; eauto|].
    assert (Hnot : (nrequests c =? 1) && negb (read_cookie c) = false).
    { destruct Hbusy as [-> | Hnz]; [apply andb_false_r|].
      apply andb_false_iff. left. apply Z.eqb_neq. lia. }
    rewrite Hnot.
    assert (Hstay : ~ (size_wrap (nrequests c - 1) = 0 /\
                       read_cookie c = false)).
    { rewrite Hwrap. intros [H0 Hrd]. destruct Hbusy as [Hb|Hb]; congruence. }
    split.
    { exact (wlp_run _ _ _ _ _ _ _
               (callback_writresponse_rc F b w f c HF Hc Hstay) Hstep). }
    rewrite (WInv_connections w' _ HW'). split; [reflexivity|].
    rewrite Hv. apply lookup_insert_eq.
Qed.

Lemma last_response_drops_half_closed_witness :
  running half_closed_answered /\
  fwds half_closed_answered !! 200%nat
  = Some (Forwardee 100%nat [] InWriter) /\
  conns half_closed_answered !! 100%nat
  = Some (SockActive None None 7 false 1) /\
  step half_closed_answered last_write_done = Ok 0 all_done [] /\
  connections all_done = [] /\ conns all_done !! 100%nat = None /\
  fwds all_done = delete 200%nat (fwds half_closed_answered).
Proof.
  assert (Hr : running half_closed_answered).
  { apply (after_init_running [3] 4
             (request_then_eof ++ [quiet (gotresponse 200%nat (Some []))])).
    - unfold SIZE_MAX. lia.
    - vm_compute. reflexivity. }
  assert (HF : fwds half_closed_answered !! 200%nat
               = Some (Forwardee 100%nat [] InWriter))
    by (vm_compute; reflexivity).
  assert (Hc : conns half_closed_answered !! 100%nat
               = Some (SockActive None None 7 false 1))
    by (vm_compute; reflexivity).
  assert (E : step half_closed_answered last_write_done = Ok 0 all_done [])
    by (vm_compute; reflexivity).
  split; [exact Hr|]. split; [exact HF|]. split; [exact Hc|].
  split; [exact E|].
  pose proof (last_response_drops_half_closed half_closed_answered
                last_write_done 200%nat false _ _ _ _ _
                Hr eq_refl HF Hc E) as (Hfw & _ & H).
  simpl in H. destruct H as (H1 & H2).
  split; [|split; [exact H2|exact Hfw]].
  rewrite H1. vm_compute. reflexivity.
Defined.

(** X14.  Serving one request is a round trip.  On a connection that is
    reading, with room in the pool of forwardees and every outside call
    succeeding: the request is read and forwarded, the response arrives and
    is handed to the writer of the connection the request came from, and
    the write completes.  Each of the three callbacks returns 0, and
    afterwards the dispatcher is in the state it started from (same
    connections in the same order, same counters, same forwardees); the
    only trace is the three forwarding calls and the re-armed read. *)
Theorem served_request_restores_state (S F : addr) (p b : list byte)
    (x : bool) (w : world) (c : sock_active_t) :
  conns w !! S = Some c ->
  read_cookie c = true ->
  0 <= nrequests c <= SIZE_MAX ->
  fwds w !! F = None ->
  Z.of_nat (size (fwds w)) < SIZE_MAX ->
  run w [ quiet (gotrequest S (Some p) F);
          quiet (gotresponse F (Some b));
          quiet (writresponse F x) ]
  = Some (add_calls [ wire_requestqueue_add F; wire_readpacket S;
                      wire_writepacket S F ] w).
Proof.
  intros Hc Hrd Hn HF Hroom.
  set (c1 := set_nrequests (size_wrap (nrequests c + 1)) c).
  set (w1 := World (sock_listen w) (sock_active w) (nsock_active w)
               (nsock_active_max w) (failed w) (<[S := c1]> (conns w))
               (<[F := Forwardee S p InQueue]> (fwds w))
               (calls w ++ [wire_requestqueue_add F; wire_readpacket S])).
  set (w2 := World (sock_listen w1) (sock_active w1) (nsock_active w1)
               (nsock_active_max w1) (failed w1) (conns w1)
               (<[F := Forwardee S b InWriter]> (fwds w1))
               (calls w1 ++ [wire_writepacket S F])).
  assert (Hc1 : conns w1 !! S = Some c1) by apply lookup_insert_eq.
  assert (HF1 : fwds w1 !! F = Some (Forwardee S p InQueue))
    by apply lookup_insert_eq.
  assert (HF2 : fwds w2 !! F = Some (Forwardee S b InWriter))
    by apply lookup_insert_eq.
  rewrite (run_cons w _ _ w1 []).
  2:{ unfold enabled. simpl. rewrite Hc, Hrd, HF. reflexivity. }
  2:{ apply gotrequest_forwards; assumption. }
  rewrite (run_cons w1 _ _ w2 []).
  2:{ unfold enabled. simpl cb. cbv beta iota. rewrite HF1. reflexivity. }
  2:{ unfold step. simpl cb. simpl answers. simpl run_callback.
      rewrite (gotresponse_hands_to_writer F b w1 _ HF1); [reflexivity|].
      exists c1. exact Hc1. }
  erewrite run_cons.
  2:{ unfold enabled. simpl cb. cbv beta iota. rewrite HF2. reflexivity. }
  2:{ unfold step. simpl cb. simpl answers. simpl run_callback.
      apply (writresponse_finishes F x w2 _ c1 HF2 Hc1). exact Hrd. }
  simpl. f_equal. unfold add_calls. f_equal.
  - rewrite insert_insert_eq. apply insert_id. rewrite Hc. f_equal.
    unfold c1. simpl. rewrite size_wrap_round by exact Hn.
    destruct c. reflexivity.
  - rewrite insert_insert_eq. apply delete_insert_id. exact HF.
  - rewrite <- app_assoc. reflexivity.
Qed.

Lemma served_request_restores_state_witness :
  conns one_client !! 100%nat = Some (SockActive None None 7 true 0) /\
  run one_client [ quiet (gotrequest 100%nat (Some []) 200%nat);
                   quiet (gotresponse 200%nat (Some []));
                   quiet (writresponse 200%nat false) ]
  = Some (add_calls [ wire_requestqueue_add 200%nat; wire_readpacket 100%nat;
                      wire_writepacket 100%nat 200%nat ] one_client).
Proof.
  assert (Hc : conns one_client !! 100%nat
               = Some (SockActive None None 7 true 0))
    by (vm_compute; reflexivity).
  split; [exact Hc|].
  apply (served_request_restores_state 100%nat 200%nat [] [] false
           one_client _ Hc).
  - reflexivity.
  - simpl. unfold SIZE_MAX. lia.
  - vm_compute. reflexivity.
  - vm_compute. reflexivity.
Defined.

(** X15.  In a running dispatcher the request counters stay within range:
    the counter of a connection lies between 0 and the number of live
    forwardees, which is at most [SIZE_MAX]; and a live forwardee refers to
    a live connection whose counter is at least 1.  So [F->conn] does not
    dangle when a response or write callback starts, and the decrement in
    [reqdone] does not wrap. *)
Theorem request_counters_in_range (w : world) :
  running w ->
  (forall S c, conns w !! S = Some c ->
               0 <= nrequests c <= Z.of_nat (size (fwds w))) /\
  Z.of_nat (size (fwds w)) <= SIZE_MAX /\
  (forall F f, fwds w !! F = Some f ->
               exists c, conns w !! conn f = Some c /\ 1 <= nrequests c).
Proof.
  intros Hr. destruct (running_SInv w Hr) as [HA _].
  pose proof HA as (Hacct & _ & Hsize).
  split; [|split; [exact Hsize|]].
  - intros S c Hc.
    assert (Hnr : nrequests c = owed_in S (fwds w)).
    { apply (Hacct S (read_cookie c)). rewrite view_lookup, Hc. reflexivity. }
    rewrite Hnr. apply owed_le_size.
  - intros F f HF.
    destruct (owed_at_least_one w F f HA HF) as (c & Hc & Hge & _). eauto.
Qed.

Lemma request_counters_in_range_witness :
  running one_request /\
  exists c, conns one_request !! conn (Forwardee 100%nat [] InQueue) = Some c /\
            1 <= nrequests c.
Proof.
  assert (Hr : running one_request).
  { apply (after_init_running [3] 4
             [quiet (gotconn 0 7 100%nat);
              quiet (gotrequest 100%nat (Some []) 200%nat)]).
    - unfold SIZE_MAX. lia.
    - vm_compute. reflexivity. }
  split; [exact Hr|].
  destruct (request_counters_in_range one_request Hr) as (_ & _ & H).
  apply (H 200%nat). vm_compute. reflexivity.
Defined.

Lemma callbacks_return_witness :
  running serving /\ enabled serving older_request_fails = true /\
  exists rc w' o, step serving older_request_fails = Ok rc w' o.
Proof.
  split; [exact serving_running|]. split; [reflexivity|].
  apply (callbacks_return serving older_request_fails serving_running eq_refl).
  intros F f c He HF Hc. injection He as <-.
  vm_compute in HF. injection HF as <-.
  vm_compute in Hc. injection Hc as <-.
  left. reflexivity.
Defined.

Lemma admission_bound_witness :
  reachable serving /\ 1 <= nsock_active_max serving /\
  0 <= nsock_active serving <= nsock_active_max serving.
Proof.
  assert (Hr : reachable serving)
    by exact (running_reachable _ serving_running).
  assert (Hmax : 1 <= nsock_active_max serving)
    by (vm_compute; discriminate).
  split; [exact Hr|]. split; [exact Hmax|].
  exact (admission_bound serving Hr Hmax).
Defined.

Lemma accepts_armed_before_failure_witness :
  running serving /\ 1 <= nsock_active_max serving /\
  failed serving = false /\ SockListen 3 true ∈ sock_listen serving /\
  (accept_cookie (SockListen 3 true) = true <->
   nsock_active serving < nsock_active_max serving).
Proof.
  assert (Hmax : 1 <= nsock_active_max serving)
    by (vm_compute; discriminate).
  assert (Hf : failed serving = false) by reflexivity.
  assert (HL : SockListen 3 true ∈ sock_listen serving).
  { vm_compute. apply list_elem_of_here. }
  split; [exact serving_running|]. split; [exact Hmax|].
  split; [exact Hf|]. split; [exact HL|].
  exact (accepts_armed_before_failure serving _ serving_running Hmax Hf HL).
Defined.

(** X19.  What a failure response achieves when [callback_gotresponse]
    returns 0 in a running dispatcher.  The forwardee is freed and [failed]
    is set.  Walking the list from the connection of the failed request to
    its end, every connection that is owed no further response is torn
    down, and every other one is left on the list, in the same order, not
    reading and with its counter equal to the number of its remaining
    forwardees.  The connections in front of the connection of the failed
    request keep their place and their bookkeeping. *)
Theorem failure_response_stops_readers_behind (w : world) (e : event)
    (F : addr) (f : forwardee_t) (w' : world) (o : list bool) :
  running w ->
  cb e = gotresponse F None ->
  fwds w !! F = Some f ->
  step w e = Ok 0 w' o ->
  failed w' = true /\
  fwds w' = delete F (fwds w) /\
  exists l0 r,
    connections w = l0 ++ conn f :: r /\
    connections w' = l0 ++ filter (fun a => owed a w' <> 0) (conn f :: r) /\
    (forall a, a ∈ l0 -> bookkeeping a w' = bookkeeping a w) /\
    (forall a, a ∈ conn f :: r -> owed a w' <> 0 ->
               bookkeeping a w' = Some (false, owed a w')) /\
    (forall a, a ∈ conn f :: r -> owed a w' = 0 -> conns w' !! a = None).
Proof.
  intros Hr He HF Hstep.
  destruct (reachable_WInv w (running_reachable w Hr)) as [l HW].
  destruct (running_SInv w Hr) as [HA _].
  pose proof HA as (Hacct & Hlive & _).
  destruct (Hlive F f HF) as [c Hc].
  unfold step in Hstep. rewrite He in Hstep. simpl in Hstep.
  pose proof (wlp_run _ _ _ _ _ _ _ (callback_gotresponse_outer F None w) Hstep)
    as (_ & _ & _ & Hset).
  pose proof (wp_run _ _ _ _ _ _ _ (callback_gotresponse_none_ok F w l HW) Hstep)
    as (_ & _ & Hfw).
  specialize (Hfw eq_refl). simpl in Hfw.
  pose proof (wp_run _ _ _ _ _ _ _
                (callback_gotresponse_none_stops F w l f c HW HA HF Hc) Hstep
                eq_refl) as (l0 & r & v1 & -> & Hv1 & HW' & Hv').
  split; [apply Hset; reflexivity|]. split; [exact Hfw|].
  pose proof HW as ((Hl & Hdom) & _). destruct Hl as (_ & _ & Hnd).
  (* the counters in [v1] are the numbers of remaining forwardees *)
  assert (Hown : forall a, a ∈ l0 ++ conn f :: r ->
                 exists rd, v1 !! a = Some (rd, owed a w')).
  { intros a Ha. apply Hdom in Ha as [ca Hca]. unfold owed. rewrite Hfw.
    rewrite (owed_delete a F f) by exact HF. subst v1.
    destruct (decide (a = conn f)) as [->|Hne].
    - rewrite lookup_insert_eq, decide_True by reflexivity.
      exists (read_cookie c).
      assert (Hnr : nrequests c = owed_in (conn f) (fwds w)).
      { apply (Hacct (conn f) (read_cookie c)).
        rewrite view_lookup, Hc. reflexivity. }
      rewrite Hnr. reflexivity.
    - rewrite lookup_insert_ne, decide_False by congruence.
      exists (read_cookie ca). rewrite view_lookup, Hca. simpl.
      assert (Hnr : nrequests ca = owed_in a (fwds w)).
      { apply (Hacct a (read_cookie ca)). rewrite view_lookup, Hca.
        reflexivity. }
      rewrite Hnr, Z.sub_0_r. reflexivity. }
  assert (Hin : forall a, a ∈ conn f :: r -> a ∈ l0 ++ conn f :: r).
  { intros a Ha. apply elem_of_app. right. exact Ha. }
  exists l0, r. rewrite (WInv_connections w _ HW). split; [reflexivity|].
  rewrite (WInv_connections w' _ HW'). split; [|split; [|split]].
  - f_equal. apply filter_agree. intros a Ha.
    destruct (Hown a (Hin a Ha)) as [rd Hlk].
    apply (owes_lookup _ _ _ _ Hlk).
  - intros a Ha. unfold bookkeeping. rewrite Hv'.
    apply NoDup_app in Hnd as (_ & Hdisj & _).
    rewrite decide_False by (apply Hdisj, Ha). subst v1.
    apply lookup_insert_ne. intros <-.
    apply (Hdisj _ Ha), list_elem_of_here.
  - intros a Ha Hnz. unfold bookkeeping. rewrite Hv'.
    rewrite decide_True by exact Ha.
    destruct (Hown a (Hin a Ha)) as [rd Hlk]. rewrite Hlk. simpl.
    apply Z.eqb_neq in Hnz. rewrite Hnz. reflexivity.
  - intros a Ha Hz. apply eq_None_not_Some. rewrite <- is_Some_view, Hv'.
    rewrite decide_True by exact Ha.
    destruct (Hown a (Hin a Ha)) as [rd Hlk]. rewrite Hlk. simpl.
    rewrite Hz. simpl. intros [? [=]].
Qed.

Lemma failure_response_stops_readers_behind_witness :
  running serving /\
  fwds serving !! 200%nat = Some (Forwardee 100%nat [] InQueue) /\
  step serving older_request_fails = Ok 0 half_stopped [] /\
  failed half_stopped = true /\
  fwds half_stopped = delete 200%nat (fwds serving).
Proof.
  assert (HF : fwds serving !! 200%nat = Some (Forwardee 100%nat [] InQueue))
    by (vm_compute; reflexivity).
  assert (E : step serving older_request_fails = Ok 0 half_stopped [])
    by (vm_compute; reflexivity).
  split; [exact serving_running|]. split; [exact HF|]. split; [exact E|].
  destruct (failure_response_stops_readers_behind serving older_request_fails
              200%nat _ _ _ serving_running eq_refl HF E) as (H1 & H2 & _).
  split; [exact H1|exact H2].
Defined.
